(** * The transcription endpoint of qcut (apps/transcription/transcription.py)

    A shallow embedding of [transcribe_audio] and of the collaborators it
    calls (object store, local storage, base64, AES-GCM, Whisper), followed by
    the properties of the endpoint: scratch-file cleanup, decryption,
    timestamp adjustment, response shapes, error containment, source-object
    deletion and language routing.

    Python floats are modelled as exact rationals ([Qc]); a str is the
    sequence of the bytes of its UTF-8 encoding, and [str.lower] is a library
    function of the environment, known to lower-case the letters A-Z of a
    string that has ASCII characters only. *)

From Stdlib Require Import ZArith QArith Qcanon Lqa String Ascii List Lia.
From Stdlib.Strings Require Import Byte.
From stdpp Require Import base strings list gmap.

Local Open Scope string_scope.

(** ** Data model *)

Abbreviation bytes := (list byte).

(** Values found in a Whisper segment dict. *)
Inductive pyval :=
| PInt (z : Z)
| PFloat (q : Qc)
| PStr (s : string)
| PInts (l : list Z)
| PNone.

(** The dict returned by [model.transcribe]. *)
Record WhisperResult := {
  res_text : string;
  res_segments : list (gmap string pyval);
  res_language : string
}.

(** class TranscribeRequest(BaseModel) *)
Record TranscribeRequest := {
  filename : string;
  language : string;
  decryption_key : option string;
  iv : option string
}.

(** The JSON object handed back to the caller: a dict literal, in key order. *)
Inductive jval :=
| JStr (s : string)
| JSegments (l : list (gmap string pyval)).

Definition response := list (string * jval).

(** Exceptions, all of them subclasses of Exception; [LibraryError] is
    whatever a collaborator raises, with its class name and message. *)
Inductive exn :=
| KeyError (key : string)
| TypeError (msg : string)
| FileNotFoundError (path : string)
| LibraryError (cls msg : string).

(** How a computation ends: with a value or with an exception. *)
Inductive outcome (A : Type) :=
| Return (a : A)
| Raise (e : exn).
Arguments Return {A} a.
Arguments Raise {A} e.

(** Calls issued to the collaborators, in the order they are made. *)
Inductive Call :=
| CallDownload (bucket_name key path : string)
| CallDecrypt (key nonce tag ciphertext : bytes)
| CallLoadModel (name : string)
| CallTranscribe (audio : bytes) (lang : option string)
| CallDelete (bucket_name key : string).

Record World := {
  fs : gmap string bytes;
  bucket : gmap string bytes;
  stdout : list string;
  calls : list Call
}.

(** What the surroundings of one invocation answer: process environment,
    temporary-file naming, network faults, and the library functions.

    - [client_fault url id secret] is the exception boto3.client raises for
      these arguments, if any (an endpoint URL it cannot use, for one);
    - [mkstemp] is the directory and the random stem of the name the
      temporary file gets, before the suffix;
    - [download_fault key] is what interrupts the transfer of an object that
      exists, [missing_object key] the exception for a key that does not;
    - [model_cache name] is the file, without its extension, in which Whisper
      keeps the weights of model [name], and [cache_after name cached] is what
      that file holds once load_model has run, given what it held before
      (nothing, when the weights have to be downloaded first);
    - [load_model name] is the exception load_model raises, if any;
    - [str_lower] is str.lower. *)
Record Env := {
  environ : gmap string string;
  client_fault : string -> string -> string -> option exn;
  mkstemp : outcome string;
  download_fault : string -> option exn;
  missing_object : string -> exn;
  b64decode : string -> outcome bytes;
  aes_gcm_decrypt : bytes -> bytes -> bytes -> bytes -> outcome bytes;
  model_cache : string -> string;
  cache_after : string -> option bytes -> option bytes;
  load_model : string -> option exn;
  transcribe : bytes -> option string -> outcome WhisperResult;
  str_lower : string -> string;
  delete_fault : string -> option exn;
  format_exc : exn -> string
}.

(** ** Exceptions and state: the monad of the function body *)

Definition M (A : Type) := World -> outcome A * World.

Definition ret {A} (a : A) : M A := fun w => (Return a, w).
Definition raise {A} (e : exn) : M A := fun w => (Raise e, w).
Definition bind {A B} (m : M A) (k : A -> M B) : M B :=
  fun w => match m w with
           | (Return a, w1) => k a w1
           | (Raise e, w1) => (Raise e, w1)
           end.
Definition lift {A} (o : outcome A) : M A := fun w => (o, w).

Declare Scope py_scope.
Delimit Scope py_scope with py.
Notation "x <- m ;; k" := (bind m (fun x => k))
  (at level 100, m at next level, right associativity) : py_scope.
Notation "m ;;; k" := (bind m (fun _ => k))
  (at level 100, right associativity) : py_scope.

(** try: m finally: fin  -- an exception of [fin] replaces the outcome of [m] *)
Definition try_finally {A} (m : M A) (fin : M unit) : M A :=
  fun w => let (r, w1) := m w in
           match fin w1 with
           | (Return _, w2) => (r, w2)
           | (Raise e, w2) => (Raise e, w2)
           end.

(** try: m except Exception as e: h e *)
Definition try_except {A} (m : M A) (h : exn -> M A) : M A :=
  fun w => match m w with
           | (Return a, w1) => (Return a, w1)
           | (Raise e, w1) => h e w1
           end.

Definition bind_o {A B} (o : outcome A) (k : A -> outcome B) : outcome B :=
  match o with
  | Return a => k a
  | Raise e => Raise e
  end.

(** ** Python primitives *)

(** Truthiness of a str: every string but the empty one. *)
Definition truthy (s : string) : bool := negb (String.eqb s "").

(** The name Python gives the type of a value, as in its error messages. *)
Definition type_name (v : pyval) : string :=
  match v with
  | PInt _ => "int"
  | PFloat _ => "float"
  | PStr _ => "str"
  | PInts _ => "list"
  | PNone => "NoneType"
  end.

Definition str_exn (e : exn) : string :=
  match e with
  | KeyError k => "'" ++ k ++ "'"
  | TypeError msg => msg
  | FileNotFoundError p => "[Errno 2] No such file or directory: '" ++ p ++ "'"
  | LibraryError _ msg => msg
  end.

Definition print (line : string) : M unit :=
  fun w => (Return tt, {| fs := fs w; bucket := bucket w;
                          stdout := stdout w ++ [line]; calls := calls w |}).

Definition call (c : Call) : M unit :=
  fun w => (Return tt, {| fs := fs w; bucket := bucket w;
                          stdout := stdout w; calls := calls w ++ [c] |}).

Definition set_fs (f : gmap string bytes -> gmap string bytes) : M unit :=
  fun w => (Return tt, {| fs := f (fs w); bucket := bucket w;
                          stdout := stdout w; calls := calls w |}).

Definition set_bucket (f : gmap string bytes -> gmap string bytes) : M unit :=
  fun w => (Return tt, {| fs := fs w; bucket := f (bucket w);
                          stdout := stdout w; calls := calls w |}).

(** open(path, 'rb').read() *)
Definition read_file (path : string) : M bytes :=
  fun w => match fs w !! path with
           | Some data => (Return data, w)
           | None => (Raise (FileNotFoundError path), w)
           end.

(** open(path, 'wb').write(data) *)
Definition write_file (path : string) (data : bytes) : M unit :=
  set_fs (insert path data).

Definition os_path_exists (path : string) : M bool :=
  fun w => (Return (bool_decide (is_Some (fs w !! path))), w).

Definition os_unlink (path : string) : M unit :=
  fun w => match fs w !! path with
           | Some _ => set_fs (delete path) w
           | None => (Raise (FileNotFoundError path), w)
           end.

(** ** The collaborators as the endpoint calls them *)

Section Endpoint.

Variable env : Env.

Local Open Scope py_scope.

(** os.environ[name] *)
Definition os_environ (name : string) : M string :=
  match environ env !! name with
  | Some v => ret v
  | None => raise (KeyError name)
  end.

(** os.environ.get(name, default) *)
Definition os_environ_get (name default : string) : string :=
  match environ env !! name with
  | Some v => v
  | None => default
  end.

(** f'https://{account_id}.r2.cloudflarestorage.com' *)
Definition endpoint_url (account_id : string) : string :=
  "https://" ++ account_id ++ ".r2.cloudflarestorage.com".

(** boto3.client('s3', endpoint_url=..., aws_access_key_id=...,
    aws_secret_access_key=..., region_name='auto'): the three arguments are
    evaluated in this order, then the library builds the client or raises. *)
Definition boto3_client : M unit :=
  account_id <- os_environ "CLOUDFLARE_ACCOUNT_ID" ;;
  access_key_id <- os_environ "R2_ACCESS_KEY_ID" ;;
  secret_access_key <- os_environ "R2_SECRET_ACCESS_KEY" ;;
  match client_fault env (endpoint_url account_id) access_key_id secret_access_key with
  | Some e => raise e
  | None => ret tt
  end.

(** tempfile.NamedTemporaryFile(delete=False, suffix='.wav'): the name ends
    with the suffix, and the file exists, empty, once the call has
    returned. *)
Definition NamedTemporaryFile : M string :=
  stem <- lift (mkstemp env) ;;
  let temp_path := stem ++ ".wav" in
  write_file temp_path [] ;;;
  ret temp_path.

(** s3_client.download_file(bucket_name, key, path) *)
Definition s3_download_file (bucket_name key path : string) : M unit :=
  call (CallDownload bucket_name key path) ;;;
  match download_fault env key with
  | Some e => raise e
  | None =>
      fun w => match bucket w !! key with
               | Some data => write_file path data w
               | None => (Raise (missing_object env key), w)
               end
  end.

(** s3_client.delete_object(Bucket=bucket_name, Key=key) *)
Definition s3_delete_object (bucket_name key : string) : M unit :=
  call (CallDelete bucket_name key) ;;;
  match delete_fault env key with
  | Some e => raise e
  | None => set_bucket (delete key)
  end.

(** whisper.load_model(name): the weights are looked up in, and if need be
    downloaded to, the .pt file of the model in Whisper's cache directory;
    then the model is built, or the call raises. *)
Definition whisper_load_model (name : string) : M unit :=
  call (CallLoadModel name) ;;;
  set_fs (partial_alter (cache_after env name) (model_cache env name ++ ".pt")) ;;;
  match load_model env name with
  | Some e => raise e
  | None => ret tt
  end.

(** model.transcribe(path) and model.transcribe(path, language=l) *)
Definition model_transcribe (path : string) (lang : option string) : M WhisperResult :=
  audio <- read_file path ;;
  call (CallTranscribe audio lang) ;;;
  lift (transcribe env audio lang).

(** ** Timestamp adjustment (lines 107-115) *)

Definition SEGMENT_TIME_ADJUSTMENT_SEC : Qc := Q2Qc (1 # 2).

(** segment[key] *)
Definition getitem (segment : gmap string pyval) (key : string) : outcome pyval :=
  match segment !! key with
  | Some v => Return v
  | None => Raise (KeyError key)
  end.

(** v - SEGMENT_TIME_ADJUSTMENT_SEC *)
Definition sub_adjustment (v : pyval) : outcome Qc :=
  match v with
  | PInt z => Return (Qc_of_Z z - SEGMENT_TIME_ADJUSTMENT_SEC)%Qc
  | PFloat q => Return (q - SEGMENT_TIME_ADJUSTMENT_SEC)%Qc
  | _ => Raise (TypeError ("unsupported operand type(s) for -: '" ++ type_name v ++
                           "' and 'float'"))
  end.

(** max(0, x): the first argument, the int 0, unless x is greater. *)
Definition max_0 (x : Qc) : pyval :=
  if Qclt_le_dec 0 x then PFloat x else PInt 0.

(** max(SEGMENT_TIME_ADJUSTMENT_SEC, x) *)
Definition max_adjustment (x : Qc) : pyval :=
  if Qclt_le_dec SEGMENT_TIME_ADJUSTMENT_SEC x then PFloat x
  else PFloat SEGMENT_TIME_ADJUSTMENT_SEC.

(** One turn of the loop: the copy of the segment with both keys rebound. *)
Definition adjust_segment (segment : gmap string pyval) : outcome (gmap string pyval) :=
  bind_o (getitem segment "start") (fun s =>
  bind_o (sub_adjustment s) (fun s' =>
  bind_o (getitem segment "end") (fun e =>
  bind_o (sub_adjustment e) (fun e' =>
  Return (<["end" := max_adjustment e']> (<["start" := max_0 s']> segment)))))).

(** for segment in result["segments"]: ... adjusted_segments.append(...) *)
Fixpoint adjust_segments (segments : list (gmap string pyval))
  : outcome (list (gmap string pyval)) :=
  match segments with
  | [] => Return []
  | segment :: rest =>
      bind_o (adjust_segment segment) (fun adjusted_segment =>
      bind_o (adjust_segments rest) (fun adjusted_rest =>
      Return (adjusted_segment :: adjusted_rest)))
  end.

(** ** Decryption (lines 61-89) *)

Definition decrypt_file (decryption_key iv temp_path : string) : M unit :=
  encrypted_data <- read_file temp_path ;;
  key_bytes <- lift (b64decode env decryption_key) ;;
  iv_bytes <- lift (b64decode env iv) ;;
  let tag := drop (length encrypted_data - 16) encrypted_data in
  let ciphertext := take (length encrypted_data - 16) encrypted_data in
  call (CallDecrypt key_bytes iv_bytes tag ciphertext) ;;;
  decrypted_data <- lift (aes_gcm_decrypt env key_bytes iv_bytes tag ciphertext) ;;
  write_file temp_path decrypted_data.

(** if decryption_key and iv: ... *)
Definition decrypt_step (decryption_key iv : option string) (temp_path : string) : M unit :=
  match decryption_key, iv with
  | Some k, Some n =>
      if truthy k && truthy n then decrypt_file k n temp_path else ret tt
  | _, _ => ret tt
  end.

(** ** transcribe_audio *)

Definition validation_error : response :=
  [("error", JStr "Missing filename parameter")].

Definition generic_error : response :=
  [("error", JStr "An unexpected error occurred during transcription.");
   ("text", JStr "");
   ("segments", JSegments []);
   ("language", JStr "unknown")].

Definition transcript (text : string) (segments : list (gmap string pyval))
    (lang : string) : response :=
  [("text", JStr text); ("segments", JSegments segments); ("language", JStr lang)].

(** Lines 91-121 of the inner try: load the model, transcribe, delete the
    source object, adjust the segments, build the response. *)
Definition infer_and_respond (request : TranscribeRequest) (temp_path : string)
  : M response :=
  whisper_load_model (os_environ_get "WHISPER_MODEL" "base") ;;;
  result <- (if String.eqb (language request) "auto"
             then model_transcribe temp_path None
             else model_transcribe temp_path (Some (str_lower env (language request)))) ;;
  bucket_name <- os_environ "R2_BUCKET_NAME" ;;
  s3_delete_object bucket_name (filename request) ;;;
  adjusted_segments <- lift (adjust_segments (res_segments result)) ;;
  ret (transcript (res_text result) adjusted_segments (res_language result)).

(** The body of the inner try (lines 53-121): download, decrypt when asked
    to, then the rest. *)
Definition pipeline (request : TranscribeRequest) (temp_path : string) : M response :=
  bucket_name <- os_environ "R2_BUCKET_NAME" ;;
  s3_download_file bucket_name (filename request) temp_path ;;;
  decrypt_step (decryption_key request) (iv request) temp_path ;;;
  infer_and_respond request temp_path.

(** The finally clause (lines 123-126). *)
Definition cleanup (temp_path : string) : M unit :=
  present <- os_path_exists temp_path ;;
  if present then os_unlink temp_path else ret tt.

(** The body of the outer try (lines 29-126).  The with statement closes the
    handle of the temporary file on exit and leaves local storage as it is
    (delete=False). *)
Definition transcribe_body (request : TranscribeRequest) : M response :=
  if negb (truthy (filename request)) then ret validation_error
  else
    boto3_client ;;;
    temp_path <- NamedTemporaryFile ;;
    try_finally (pipeline request temp_path) (cleanup temp_path).

(** The except clause (lines 128-140). *)
Definition on_exception (e : exn) : M response :=
  print ("Transcription error: " ++ str_exn e) ;;;
  print ("Traceback: " ++ format_exc env e) ;;;
  ret generic_error.

Definition transcribe_audio (request : TranscribeRequest) : M response :=
  try_except (transcribe_body request) on_exception.

End Endpoint.

(** The calls issued by one invocation started in world [w]. *)
Definition issued (env : Env) (request : TranscribeRequest) (w : World) : list Call :=
  drop (length (calls w)) (calls (snd (transcribe_audio env request w))).

(** The language argument the model is called with: none for detection. *)
Definition language_argument (env : Env) (request : TranscribeRequest) : option string :=
  if String.eqb (language request) "auto" then None
  else Some (str_lower env (language request)).

(** ** What is known of str.lower

    On a string of ASCII characters str.lower replaces the letters A-Z by
    a-z and keeps every other character; on other strings it follows the
    Unicode tables, of which nothing is assumed here. *)

Definition lower_ascii (c : ascii) : ascii :=
  let n := nat_of_ascii c in
  if (65 <=? n)%nat && (n <=? 90)%nat then ascii_of_nat (n + 32) else c.

Fixpoint lower (s : string) : string :=
  match s with
  | EmptyString => EmptyString
  | String c s' => String (lower_ascii c) (lower s')
  end.

Fixpoint isascii (s : string) : bool :=
  match s with
  | EmptyString => true
  | String c s' => (nat_of_ascii c <? 128)%nat && isascii s'
  end.

Definition lower_contract (env : Env) : Prop :=
  forall s, isascii s = true -> str_lower env s = lower s.

(** Calls made before inference: download, decryption, model loading. *)
Definition setup_call (c : Call) : Prop :=
  match c with
  | CallDownload _ _ _ | CallDecrypt _ _ _ _ | CallLoadModel _ => True
  | CallTranscribe _ _ | CallDelete _ _ => False
  end.

(** ** Response shapes (spec, section 3) *)

Definition is_TranscriptResult (r : response) : Prop :=
  exists text segments lang, r = transcript text segments lang.

Definition is_ErrorResult (r : response) : Prop :=
  exists msg, r = [("error", JStr msg); ("text", JStr "");
                   ("segments", JSegments []); ("language", JStr "unknown")].

(** ** Reading timestamps back *)

Definition number (v : pyval) : option Qc :=
  match v with
  | PInt z => Some (Qc_of_Z z)
  | PFloat q => Some q
  | _ => None
  end.

Definition timestamp (segment : gmap string pyval) (key : string) : option Qc :=
  match segment !! key with
  | Some v => number v
  | None => None
  end.

Definition Qc_max (a b : Qc) : Qc := if Qclt_le_dec a b then b else a.

(** [adjusted] is [segment] with its start moved to max(0, start - 0.5) and
    its end to max(0.5, end - 0.5), every other key kept. *)
Definition adjusted_from (segment adjusted : gmap string pyval) : Prop :=
  exists s e,
    timestamp segment "start" = Some s /\
    timestamp segment "end" = Some e /\
    adjusted = <["end" := max_adjustment (e - SEGMENT_TIME_ADJUSTMENT_SEC)%Qc]>
                 (<["start" := max_0 (s - SEGMENT_TIME_ADJUSTMENT_SEC)%Qc]> segment) /\
    timestamp adjusted "start" = Some (Qc_max 0 (s - SEGMENT_TIME_ADJUSTMENT_SEC))%Qc /\
    timestamp adjusted "end" =
      Some (Qc_max SEGMENT_TIME_ADJUSTMENT_SEC (e - SEGMENT_TIME_ADJUSTMENT_SEC))%Qc /\
    forall key, key <> "start" -> key <> "end" -> adjusted !! key = segment !! key.

(** ** Bit flips in a buffer *)

Definition bits8 : Type := bool * (bool * (bool * (bool * (bool * (bool * (bool * bool)))))).

Definition flip_bits8 (k : nat) (t : bits8) : bits8 :=
  let '(b0, (b1, (b2, (b3, (b4, (b5, (b6, b7))))))) := t in
  match k with
  | 0 => (negb b0, (b1, (b2, (b3, (b4, (b5, (b6, b7)))))))
  | 1 => (b0, (negb b1, (b2, (b3, (b4, (b5, (b6, b7)))))))
  | 2 => (b0, (b1, (negb b2, (b3, (b4, (b5, (b6, b7)))))))
  | 3 => (b0, (b1, (b2, (negb b3, (b4, (b5, (b6, b7)))))))
  | 4 => (b0, (b1, (b2, (b3, (negb b4, (b5, (b6, b7)))))))
  | 5 => (b0, (b1, (b2, (b3, (b4, (negb b5, (b6, b7)))))))
  | 6 => (b0, (b1, (b2, (b3, (b4, (b5, (negb b6, b7)))))))
  | 7 => (b0, (b1, (b2, (b3, (b4, (b5, (b6, negb b7)))))))
  | _ => t
  end.

(** Bit [k] (0 the least significant) of byte [b] inverted. *)
Definition flip_bit (k : nat) (b : byte) : byte :=
  Byte.of_bits (flip_bits8 k (Byte.to_bits b)).

(** Bit [k] of the byte at offset [i] of [buf] inverted. *)
Definition flip_bit_at (i k : nat) (buf : bytes) : bytes :=
  alter (flip_bit k) i buf.

(** ** The contract of the cryptography and base64 libraries

    [encrypt K N P] stands for AES-GCM encryption as the client performs it
    (ciphertext and tag, or nothing when the library refuses the key or the
    nonce); the decryptor is the one of [env].  The laws are the documented
    behaviour of the libraries.  [library_contract] is the functional part:
    key sizes, the empty nonce refused, 16-byte tags, decryption inverting
    encryption, and the empty string decoding to no bytes.
    [rejection_contract] is what the decryptor refuses: a ciphertext or a tag
    with one bit flipped, a key of another size, a tag shorter than 16
    bytes. *)

Definition valid_key_length (K : bytes) : Prop :=
  length K = 16 \/ length K = 24 \/ length K = 32.

Record library_contract
    (encrypt : bytes -> bytes -> bytes -> option (bytes * bytes)) (env : Env) : Prop := {
  b64decode_empty : b64decode env "" = Return [];
  encrypt_key_length : forall K N P ct,
    encrypt K N P = Some ct -> valid_key_length K;
  encrypt_nonce_nonempty : forall K N P ct,
    encrypt K N P = Some ct -> N <> [];
  encrypt_tag_length : forall K N P C T,
    encrypt K N P = Some (C, T) -> length T = 16;
  decrypt_encrypt : forall K N P C T,
    encrypt K N P = Some (C, T) -> aes_gcm_decrypt env K N T C = Return P
}.

Record rejection_contract
    (encrypt : bytes -> bytes -> bytes -> option (bytes * bytes)) (env : Env) : Prop := {
  decrypt_flipped_ciphertext : forall K N P C T i k,
    encrypt K N P = Some (C, T) -> i < length C -> k < 8 ->
    exists e, aes_gcm_decrypt env K N T (flip_bit_at i k C) = Raise e;
  decrypt_flipped_tag : forall K N P C T i k,
    encrypt K N P = Some (C, T) -> i < length T -> k < 8 ->
    exists e, aes_gcm_decrypt env K N (flip_bit_at i k T) C = Raise e;
  decrypt_key_length : forall K N T C,
    ~ valid_key_length K -> exists e, aes_gcm_decrypt env K N T C = Raise e;
  decrypt_short_tag : forall K N T C,
    length T < 16 -> exists e, aes_gcm_decrypt env K N T C = Raise e
}.

(** ** Getting as far as the downloaded object *)

(** The variables read to build the store client, in the order read. *)
Definition client_variables : list string :=
  ["CLOUDFLARE_ACCOUNT_ID"; "R2_ACCESS_KEY_ID"; "R2_SECRET_ACCESS_KEY"].

Fixpoint first_missing (vars : gmap string string) (names : list string)
  : option string :=
  match names with
  | [] => None
  | name :: rest =>
      match vars !! name with
      | Some _ => first_missing vars rest
      | None => Some name
      end
  end.

(** The exception that keeps the store client from being built, if any: the
    KeyError of the first variable that is not set, or else what boto3.client
    raises for the values of the three. *)
Definition client_error (env : Env) : option exn :=
  match first_missing (environ env) client_variables with
  | Some name => Some (KeyError name)
  | None =>
      client_fault env
        (endpoint_url (default "" (environ env !! "CLOUDFLARE_ACCOUNT_ID")))
        (default "" (environ env !! "R2_ACCESS_KEY_ID"))
        (default "" (environ env !! "R2_SECRET_ACCESS_KEY"))
  end.

(** The path NamedTemporaryFile hands out, or the exception it raises. *)
Definition scratch_path (env : Env) : outcome string :=
  bind_o (mkstemp env) (fun stem => Return (stem ++ ".wav")).

(** The file that holds the weights of model [name]. *)
Definition cache_file (env : Env) (name : string) : string :=
  model_cache env name ++ ".pt".

(** The store client is built and the bucket is named. *)
Definition configured (env : Env) : Prop :=
  client_error env = None /\
  is_Some (environ env !! "R2_BUCKET_NAME").

(** The endpoint gets as far as the downloaded object: the filename is not
    empty, the client is built, the bucket is named, the temporary file is
    created at [temp_path] and the object [data] is transferred. *)
Definition fetches (env : Env) (request : TranscribeRequest) (w : World)
    (temp_path : string) (data : bytes) : Prop :=
  filename request <> "" /\
  configured env /\
  scratch_path env = Return temp_path /\
  download_fault env (filename request) = None /\
  bucket w !! filename request = Some data.

(** ** A reference environment

    A small authenticated cipher with the interface and the laws of
    [library_contract] (a one-byte pad for the ciphertext, the parity of the
    ciphertext spread over a 16-byte tag), RFC 4648 base64 decoding, and a
    configured environment with one stored object.  It shows that the contract
    can be met and gives the concrete runs of the endpoint used below. *)

Module Reference.

#[local] Instance byte_eq_dec : EqDecision byte := Byte.byte_eq_dec.

Definition xor_bits8 (s t : bits8) : bits8 :=
  let '(s0, (s1, (s2, (s3, (s4, (s5, (s6, s7))))))) := s in
  let '(t0, (t1, (t2, (t3, (t4, (t5, (t6, t7))))))) := t in
  (xorb s0 t0, (xorb s1 t1, (xorb s2 t2, (xorb s3 t3,
  (xorb s4 t4, (xorb s5 t5, (xorb s6 t6, xorb s7 t7))))))).

Definition byte_xor (a b : byte) : byte :=
  Byte.of_bits (xor_bits8 (Byte.to_bits a) (Byte.to_bits b)).

Definition parity_bits8 (t : bits8) : bool :=
  let '(t0, (t1, (t2, (t3, (t4, (t5, (t6, t7))))))) := t in
  xorb t0 (xorb t1 (xorb t2 (xorb t3 (xorb t4 (xorb t5 (xorb t6 t7)))))).

Fixpoint parity (buf : bytes) : bool :=
  match buf with
  | [] => false
  | b :: rest => xorb (parity_bits8 (Byte.to_bits b)) (parity rest)
  end.

Definition pad (K N : bytes) : byte := fold_right byte_xor x00 (K ++ N).

Definition key_length_ok (K : bytes) : bool :=
  ((length K =? 16) || (length K =? 24) || (length K =? 32))%nat.

Definition nonce_length_ok (N : bytes) : bool :=
  ((8 <=? length N) && (length N <=? 128))%nat.

Definition seal_tag (K N C : bytes) : bytes :=
  byte_xor (pad K N) (if parity C then x01 else x00) :: replicate 15 (pad K N).

Definition seal (K N P : bytes) : option (bytes * bytes) :=
  if key_length_ok K && nonce_length_ok N then
    let C := map (byte_xor (pad K N)) P in Some (C, seal_tag K N C)
  else None.

Definition unseal (K N T C : bytes) : outcome bytes :=
  if negb (key_length_ok K) then
    Raise (LibraryError "ValueError" "Invalid key size for AES.")
  else if negb (nonce_length_ok N) then
    Raise (LibraryError "ValueError" "initialization_vector must be between 8 and 128 bytes.")
  else if (length T <? 16)%nat then
    Raise (LibraryError "ValueError" "Authentication tag must be 16 bytes or longer.")
  else if bool_decide (T = seal_tag K N C) then
    Return (map (byte_xor (pad K N)) C)
  else Raise (LibraryError "InvalidTag" "").

(** RFC 4648 base64, padded input. *)
Definition sextet (c : ascii) : option N :=
  let n := N_of_ascii c in
  if ((65 <=? n) && (n <=? 90))%N then Some (n - 65)%N
  else if ((97 <=? n) && (n <=? 122))%N then Some (n - 71)%N
  else if ((48 <=? n) && (n <=? 57))%N then Some (n + 4)%N
  else if (n =? 43)%N then Some 62%N
  else if (n =? 47)%N then Some 63%N
  else None.

Definition octet (n : N) : byte :=
  match Byte.of_N (n mod 256) with
  | Some b => b
  | None => x00
  end.

Definition incorrect_padding : exn := LibraryError "binascii.Error" "Incorrect padding".

Fixpoint decode_quads (s : string) : outcome bytes :=
  match s with
  | EmptyString => Return []
  | String c0 (String c1 (String c2 (String c3 rest))) =>
      match sextet c0, sextet c1 with
      | Some v0, Some v1 =>
          let b0 := octet (v0 * 4 + v1 / 16) in
          match sextet c2, sextet c3 with
          | Some v2, Some v3 =>
              bind_o (decode_quads rest) (fun tail =>
                Return (b0 :: octet (v1 * 16 + v2 / 4) :: octet (v2 * 64 + v3) :: tail))
          | Some v2, None =>
              if Ascii.eqb c3 "="%char && String.eqb rest ""
              then Return [b0; octet (v1 * 16 + v2 / 4)]
              else Raise incorrect_padding
          | None, _ =>
              if Ascii.eqb c2 "="%char && Ascii.eqb c3 "="%char && String.eqb rest ""
              then Return [b0]
              else Raise incorrect_padding
          end
      | _, _ => Raise incorrect_padding
      end
  | _ => Raise incorrect_padding
  end.

Definition sample_environ : gmap string string :=
  list_to_map [("CLOUDFLARE_ACCOUNT_ID", "acct"); ("R2_ACCESS_KEY_ID", "id");
               ("R2_SECRET_ACCESS_KEY", "secret"); ("R2_BUCKET_NAME", "audio")].

Definition first_segment : gmap string pyval :=
  list_to_map [("id", PInt 0); ("start", PFloat (Q2Qc (12 # 10)));
               ("end", PFloat (Q2Qc 3)); ("text", PStr " hello")].

Definition second_segment : gmap string pyval :=
  list_to_map [("id", PInt 1); ("start", PFloat (Q2Qc (2 # 10)));
               ("end", PFloat (Q2Qc (4 # 10))); ("text", PStr " world")].

Definition sample_segments : list (gmap string pyval) :=
  [first_segment; second_segment].

(** The model hears speech in any audio that is not empty. *)
Definition sample_transcribe (audio : bytes) (lang : option string) : outcome WhisperResult :=
  match audio with
  | [] => Raise (LibraryError "RuntimeError" "Failed to load audio")
  | _ => Return {| res_text := " hello world";
                   res_segments := sample_segments;
                   res_language := default "en" lang |}
  end.

(** boto3.client refuses the endpoint of an empty account id. *)
Definition sample_client_fault (url access_key_id secret_access_key : string)
  : option exn :=
  if String.eqb url (endpoint_url "")
  then Some (LibraryError "ValueError" ("Invalid endpoint: " ++ url))
  else None.

(** What botocore raises when the key is not in the bucket. *)
Definition sample_missing_object (key : string) : exn :=
  LibraryError "ClientError"
    "An error occurred (404) when calling the HeadObject operation: Not Found".

Definition sample_model_cache (name : string) : string :=
  "/root/.cache/whisper/" ++ name.

Definition sample_weights : bytes := [x50; x4b; x03; x04].

(** Weights that are not in the cache are downloaded; cached ones are kept. *)
Definition sample_cache_after (name : string) (cached : option bytes) : option bytes :=
  Some (default sample_weights cached).

Definition sample_format_exc (e : exn) : string :=
  "Traceback (most recent call last): " ++ str_exn e.

(** The hints of the sample requests are ASCII strings, for which [lower]
    is what str.lower returns. *)
Definition sample_env_for (vars : gmap string string)
    (model : bytes -> option string -> outcome WhisperResult)
    (fault : string -> option exn) : Env := {|
  environ := vars;
  client_fault := sample_client_fault;
  mkstemp := Return "/tmp/tmpq1";
  download_fault := fun _ => None;
  missing_object := sample_missing_object;
  b64decode := decode_quads;
  aes_gcm_decrypt := unseal;
  model_cache := sample_model_cache;
  cache_after := sample_cache_after;
  load_model := fun _ => None;
  transcribe := model;
  str_lower := lower;
  delete_fault := fault;
  format_exc := sample_format_exc
|}.

Definition sample_env : Env :=
  sample_env_for sample_environ sample_transcribe (fun _ => None).

(** The same environment with a store that refuses the delete. *)
Definition delete_failing_env : Env :=
  sample_env_for sample_environ sample_transcribe
    (fun _ => Some (LibraryError "ClientError" "Access Denied")).

Definition sample_adjusted : list (gmap string pyval) :=
  match adjust_segments sample_segments with
  | Return adjusted => adjusted
  | Raise _ => []
  end.

Definition sample_audio : bytes := [x52; x49; x46; x46].

(** Sixteen bytes of key and twelve of nonce, and their base64 forms. *)
Definition sample_key : bytes := replicate 16 x01.
Definition sample_nonce : bytes := (replicate 11 x02 ++ [x03])%list.
Definition sample_key_b64 : string := "AQEBAQEBAQEBAQEBAQEBAQ==".
Definition sample_nonce_b64 : string := "AgICAgICAgICAgID".

Definition sample_sealed : bytes :=
  match seal sample_key sample_nonce sample_audio with
  | Some (C, T) => (C ++ T)%list
  | None => []
  end.

Definition sample_world : World := {|
  fs := ∅;
  bucket := list_to_map [("clip.wav", sample_audio); ("sealed.wav", sample_sealed);
                         ("tampered.wav", flip_bit_at 1 3 sample_sealed);
                         ("short.wav", [x00; x01; x02])];
  stdout := [];
  calls := []
|}.

Definition request_for (name lang : string) (key nonce : option string) : TranscribeRequest :=
  {| filename := name; language := lang; decryption_key := key; iv := nonce |}.

(** The sample environment with other variables and another model. *)
Definition sample_env_with (vars : gmap string string)
    (model : bytes -> option string -> outcome WhisperResult) : Env :=
  sample_env_for vars model (fun _ => None).

(** A model whose only segment has no "start" key. *)
Definition malformed_transcribe (audio : bytes) (lang : option string)
  : outcome WhisperResult :=
  Return {| res_text := " hello";
            res_segments := [list_to_map [("end", PFloat (Q2Qc (3 # 1)))]];
            res_language := "en" |}.

End Reference.

(** ** The ways an invocation can end

    A relational account of [transcribe_audio], one rule for each place where
    the function can stop.  It is proved below to describe exactly the runs
    of the function, and the further properties are read off it. *)

Definition add_calls (new : list Call) (w : World) : World :=
  {| fs := fs w; bucket := bucket w; stdout := stdout w;
     calls := (calls w ++ new)%list |}.

Definition add_lines (lines : list string) (w : World) : World :=
  {| fs := fs w; bucket := bucket w; stdout := (stdout w ++ lines)%list;
     calls := calls w |}.

Definition put_file (path : string) (data : bytes) (w : World) : World :=
  {| fs := <[path := data]> (fs w); bucket := bucket w; stdout := stdout w;
     calls := calls w |}.

Definition remove_file (path : string) (w : World) : World :=
  {| fs := delete path (fs w); bucket := bucket w; stdout := stdout w;
     calls := calls w |}.

Definition drop_object (key : string) (w : World) : World :=
  {| fs := fs w; bucket := delete key (bucket w); stdout := stdout w;
     calls := calls w |}.

(** The two lines the except clause prints for [e]. *)
Definition log_lines (env : Env) (e : exn) : list string :=
  ["Transcription error: " ++ str_exn e; "Traceback: " ++ format_exc env e].

Definition model_name (env : Env) : string :=
  os_environ_get env "WHISPER_MODEL" "base".

(** Local storage once load_model has looked for, or fetched, the weights. *)
Definition cache_model (env : Env) (w : World) : World :=
  {| fs := partial_alter (cache_after env (model_name env))
             (cache_file env (model_name env)) (fs w);
     bucket := bucket w; stdout := stdout w; calls := calls w |}.

(** The key and nonce strings when the guard of line 61 lets decryption run. *)
Definition decryption_requested (dk n : option string) : option (string * string) :=
  match dk, n with
  | Some k, Some n' => if truthy k && truthy n' then Some (k, n') else None
  | _, _ => None
  end.

Inductive decrypt_ends (env : Env) (dk n : option string) (temp_path : string)
    (w : World) : outcome unit -> World -> Prop :=
| decrypt_skipped :
    decryption_requested dk n = None ->
    decrypt_ends env dk n temp_path w (Return tt) w
| decrypt_no_file k n' :
    decryption_requested dk n = Some (k, n') ->
    fs w !! temp_path = None ->
    decrypt_ends env dk n temp_path w (Raise (FileNotFoundError temp_path)) w
| decrypt_bad_key k n' data e :
    decryption_requested dk n = Some (k, n') ->
    fs w !! temp_path = Some data ->
    b64decode env k = Raise e ->
    decrypt_ends env dk n temp_path w (Raise e) w
| decrypt_bad_nonce k n' data K e :
    decryption_requested dk n = Some (k, n') ->
    fs w !! temp_path = Some data ->
    b64decode env k = Return K ->
    b64decode env n' = Raise e ->
    decrypt_ends env dk n temp_path w (Raise e) w
| decrypt_rejected k n' data K N e :
    decryption_requested dk n = Some (k, n') ->
    fs w !! temp_path = Some data ->
    b64decode env k = Return K ->
    b64decode env n' = Return N ->
    aes_gcm_decrypt env K N (drop (length data - 16) data)
      (take (length data - 16) data) = Raise e ->
    decrypt_ends env dk n temp_path w (Raise e)
      (add_calls [CallDecrypt K N (drop (length data - 16) data)
                    (take (length data - 16) data)] w)
| decrypt_done k n' data K N P :
    decryption_requested dk n = Some (k, n') ->
    fs w !! temp_path = Some data ->
    b64decode env k = Return K ->
    b64decode env n' = Return N ->
    aes_gcm_decrypt env K N (drop (length data - 16) data)
      (take (length data - 16) data) = Return P ->
    decrypt_ends env dk n temp_path w (Return tt)
      (put_file temp_path P
         (add_calls [CallDecrypt K N (drop (length data - 16) data)
                       (take (length data - 16) data)] w)).

Inductive infer_ends (env : Env) (request : TranscribeRequest)
    (temp_path bucket_name : string) (w : World)
  : outcome response -> World -> Prop :=
| load_failed e :
    load_model env (model_name env) = Some e ->
    infer_ends env request temp_path bucket_name w (Raise e)
      (add_calls [CallLoadModel (model_name env)] (cache_model env w))
| audio_missing :
    load_model env (model_name env) = None ->
    fs (cache_model env w) !! temp_path = None ->
    infer_ends env request temp_path bucket_name w
      (Raise (FileNotFoundError temp_path))
      (add_calls [CallLoadModel (model_name env)] (cache_model env w))
| transcribe_failed audio e :
    load_model env (model_name env) = None ->
    fs (cache_model env w) !! temp_path = Some audio ->
    transcribe env audio (language_argument env request) = Raise e ->
    infer_ends env request temp_path bucket_name w (Raise e)
      (add_calls [CallLoadModel (model_name env);
                  CallTranscribe audio (language_argument env request)]
         (cache_model env w))
| delete_failed audio result e :
    load_model env (model_name env) = None ->
    fs (cache_model env w) !! temp_path = Some audio ->
    transcribe env audio (language_argument env request) = Return result ->
    delete_fault env (filename request) = Some e ->
    infer_ends env request temp_path bucket_name w (Raise e)
      (add_calls [CallLoadModel (model_name env);
                  CallTranscribe audio (language_argument env request);
                  CallDelete bucket_name (filename request)]
         (cache_model env w))
| adjust_failed audio result e :
    load_model env (model_name env) = None ->
    fs (cache_model env w) !! temp_path = Some audio ->
    transcribe env audio (language_argument env request) = Return result ->
    delete_fault env (filename request) = None ->
    adjust_segments (res_segments result) = Raise e ->
    infer_ends env request temp_path bucket_name w (Raise e)
      (drop_object (filename request)
         (add_calls [CallLoadModel (model_name env);
                     CallTranscribe audio (language_argument env request);
                     CallDelete bucket_name (filename request)]
            (cache_model env w)))
| responded audio result adjusted :
    load_model env (model_name env) = None ->
    fs (cache_model env w) !! temp_path = Some audio ->
    transcribe env audio (language_argument env request) = Return result ->
    delete_fault env (filename request) = None ->
    adjust_segments (res_segments result) = Return adjusted ->
    infer_ends env request temp_path bucket_name w
      (Return (transcript (res_text result) adjusted (res_language result)))
      (drop_object (filename request)
         (add_calls [CallLoadModel (model_name env);
                     CallTranscribe audio (language_argument env request);
                     CallDelete bucket_name (filename request)]
            (cache_model env w))).

Inductive pipeline_ends (env : Env) (request : TranscribeRequest)
    (temp_path : string) (w : World) : outcome response -> World -> Prop :=
| no_bucket_name :
    environ env !! "R2_BUCKET_NAME" = None ->
    pipeline_ends env request temp_path w (Raise (KeyError "R2_BUCKET_NAME")) w
| download_interrupted bucket_name e :
    environ env !! "R2_BUCKET_NAME" = Some bucket_name ->
    download_fault env (filename request) = Some e ->
    pipeline_ends env request temp_path w (Raise e)
      (add_calls [CallDownload bucket_name (filename request) temp_path] w)
| object_missing bucket_name :
    environ env !! "R2_BUCKET_NAME" = Some bucket_name ->
    download_fault env (filename request) = None ->
    bucket w !! filename request = None ->
    pipeline_ends env request temp_path w
      (Raise (missing_object env (filename request)))
      (add_calls [CallDownload bucket_name (filename request) temp_path] w)
| decrypt_failed bucket_name data e w2 :
    environ env !! "R2_BUCKET_NAME" = Some bucket_name ->
    download_fault env (filename request) = None ->
    bucket w !! filename request = Some data ->
    decrypt_ends env (decryption_key request) (iv request) temp_path
      (put_file temp_path data
         (add_calls [CallDownload bucket_name (filename request) temp_path] w))
      (Raise e) w2 ->
    pipeline_ends env request temp_path w (Raise e) w2
| inferred bucket_name data w2 r w3 :
    environ env !! "R2_BUCKET_NAME" = Some bucket_name ->
    download_fault env (filename request) = None ->
    bucket w !! filename request = Some data ->
    decrypt_ends env (decryption_key request) (iv request) temp_path
      (put_file temp_path data
         (add_calls [CallDownload bucket_name (filename request) temp_path] w))
      (Return tt) w2 ->
    infer_ends env request temp_path bucket_name w2 r w3 ->
    pipeline_ends env request temp_path w r w3.

Inductive run_ends (env : Env) (request : TranscribeRequest) (w : World)
  : response -> World -> Prop :=
| rejected_empty_filename :
    filename request = "" ->
    run_ends env request w validation_error w
| client_failed e :
    filename request <> "" ->
    client_error env = Some e ->
    run_ends env request w generic_error (add_lines (log_lines env e) w)
| tempfile_failed e :
    filename request <> "" ->
    client_error env = None ->
    scratch_path env = Raise e ->
    run_ends env request w generic_error (add_lines (log_lines env e) w)
| pipeline_returned temp_path r w2 :
    filename request <> "" ->
    client_error env = None ->
    scratch_path env = Return temp_path ->
    pipeline_ends env request temp_path (put_file temp_path [] w) (Return r) w2 ->
    run_ends env request w r (remove_file temp_path w2)
| pipeline_raised temp_path e w2 :
    filename request <> "" ->
    client_error env = None ->
    scratch_path env = Return temp_path ->
    pipeline_ends env request temp_path (put_file temp_path [] w) (Raise e) w2 ->
    run_ends env request w generic_error
      (add_lines (log_lines env e) (remove_file temp_path w2)).

(** An exception [e] raised by one of the steps inside the outer try, and
    the world it leaves once the finally clause, if entered, has run: the
    client could not be built, the temporary file could not be created, or
    the inner try raised -- the bucket name is not set, the download failed,
    the decrypt step failed (file, base64 or library), the model could not
    be loaded, the audio could not be read or transcribed, the delete
    failed, or a segment could not be adjusted. *)
Inductive raised_inside (env : Env) (request : TranscribeRequest) (w : World)
  : exn -> World -> Prop :=
| raised_by_client e :
    client_error env = Some e ->
    raised_inside env request w e w
| raised_by_tempfile e :
    client_error env = None ->
    scratch_path env = Raise e ->
    raised_inside env request w e w
| raised_by_pipeline temp_path e w2 :
    client_error env = None ->
    scratch_path env = Return temp_path ->
    pipeline_ends env request temp_path (put_file temp_path [] w) (Raise e) w2 ->
    raised_inside env request w e (remove_file temp_path w2).

(** ** Request bodies (class TranscribeRequest, lines 6-10)

    A JSON body whose values are strings or null, as a map from key to
    value ([None] for null).  The model reads the fields by their JSON
    names: [filename] is required, [language] defaults to "auto",
    [decryptionKey] and [iv] default to None and may be null; other keys are
    ignored.  A body that does not validate never reaches the function. *)
Definition parse_request (body : gmap string (option string)) : option TranscribeRequest :=
  match body !! "filename" with
  | Some (Some name) =>
      match default (Some "auto") (body !! "language") with
      | Some lang =>
          Some {| filename := name; language := lang;
                  decryption_key := default None (body !! "decryptionKey");
                  iv := default None (body !! "iv") |}
      | None => None
      end
  | _ => None
  end.

(** * Properties *)

Local Open Scope list_scope.

(** ** Stepping through the monad *)

Lemma bind_Return {A B} (m : M A) (k : A -> M B) w a w1 :
  m w = (Return a, w1) -> bind m k w = k a w1.
Proof. intros H. unfold bind. by rewrite H. Qed.

Lemma bind_Raise {A B} (m : M A) (k : A -> M B) w e w1 :
  m w = (Raise e, w1) -> bind m k w = (Raise e, w1).
Proof. intros H. unfold bind. by rewrite H. Qed.

Lemma bind_inv {A B} (m : M A) (k : A -> M B) w r w' :
  bind m k w = (r, w') ->
  (exists a w1, m w = (Return a, w1) /\ k a w1 = (r, w')) \/
  (exists e, m w = (Raise e, w') /\ r = Raise e).
Proof.
  unfold bind. destruct (m w) as [[a|e] w1]; intros H.
  - left. by exists a, w1.
  - right. exists e. by inversion H.
Qed.

Ltac bind_Return_inv H :=
  let a := fresh "a" in let w := fresh "w" in let Hm := fresh "Hm" in
  apply bind_inv in H as [(a & w & Hm & H) | (? & ? & ?)]; [| discriminate].

Lemma os_environ_Some env name v w :
  environ env !! name = Some v -> os_environ env name w = (Return v, w).
Proof. intros H. unfold os_environ. by rewrite H. Qed.

Lemma os_environ_world env name r w w' :
  os_environ env name w = (r, w') -> w' = w.
Proof.
  unfold os_environ, ret, raise. destruct (environ env !! name); congruence.
Qed.

Lemma boto3_client_spec env w :
  boto3_client env w =
  match client_error env with
  | Some e => (Raise e, w)
  | None => (Return tt, w)
  end.
Proof.
  unfold boto3_client, client_error, bind, os_environ, ret, raise. cbn.
  repeat (destruct (environ env !! _); cbn; [|done]).
  by destruct (client_fault env _ _ _).
Qed.

Lemma boto3_client_world env r w w' :
  boto3_client env w = (r, w') -> w' = w.
Proof.
  rewrite boto3_client_spec. destruct (client_error env); congruence.
Qed.

Lemma boto3_client_configured env w :
  configured env -> boto3_client env w = (Return tt, w).
Proof.
  intros [Hc _]. by rewrite boto3_client_spec, Hc.
Qed.

Lemma first_missing_client_error env name :
  first_missing (environ env) client_variables = Some name ->
  client_error env = Some (KeyError name).
Proof. intros H. unfold client_error. by rewrite H. Qed.

(** ** The scratch file and the cache of the model are different files *)

Lemma string_app_length (s t : string) :
  String.length (s ++ t) = String.length s + String.length t.
Proof. induction s as [|c s IH]; simpl; [done|]. by rewrite IH. Qed.

Lemma string_app_inj_tail (s1 s2 t1 t2 : string) :
  String.length t1 = String.length t2 ->
  (s1 ++ t1 = s2 ++ t2)%string -> t1 = t2.
Proof.
  intros Hlen. revert s2.
  induction s1 as [|c s1 IH]; intros [|d s2] H.
  - done.
  - apply (f_equal String.length) in H.
    rewrite !string_app_length in H. simpl in H. lia.
  - apply (f_equal String.length) in H.
    rewrite !string_app_length in H. simpl in H. lia.
  - inversion H. by eapply IH.
Qed.

Lemma string_app_assoc (s t u : string) :
  ((s ++ t) ++ u = s ++ t ++ u)%string.
Proof.
  induction s as [|c s IH]; [done|].
  change (String c ((s ++ t) ++ u) = String c (s ++ t ++ u))%string. by rewrite IH.
Qed.

Lemma wav_is_not_pt (stem cache : string) :
  (stem ++ ".wav")%string <> (cache ++ ".pt")%string.
Proof.
  intros H. change ".wav" with ("." ++ "wav")%string in H.
  rewrite <- string_app_assoc in H.
  by apply string_app_inj_tail in H.
Qed.

Lemma scratch_path_inv env temp_path :
  scratch_path env = Return temp_path ->
  exists stem, mkstemp env = Return stem /\ temp_path = (stem ++ ".wav")%string.
Proof.
  unfold scratch_path. destruct (mkstemp env) as [stem|]; [|done].
  intros H. inversion H. by exists stem.
Qed.

Lemma scratch_is_not_cache env temp_path name :
  scratch_path env = Return temp_path -> temp_path <> cache_file env name.
Proof.
  intros (stem & _ & ->)%scratch_path_inv. apply wav_is_not_pt.
Qed.

Lemma cache_model_scratch env temp_path w :
  scratch_path env = Return temp_path ->
  fs (cache_model env w) !! temp_path = fs w !! temp_path.
Proof.
  intros H. cbn. apply lookup_partial_alter_ne.
  intros Heq. by eapply scratch_is_not_cache.
Qed.

(** ** The finally clause *)

Lemma cleanup_removes temp_path w :
  exists w', cleanup temp_path w = (Return tt, w') /\
             fs w' = delete temp_path (fs w) /\
             bucket w' = bucket w /\ stdout w' = stdout w /\ calls w' = calls w.
Proof.
  unfold cleanup, bind, os_path_exists, os_unlink, set_fs, ret.
  destruct (fs w !! temp_path) as [data|] eqn:Hp.
  - rewrite bool_decide_eq_true_2 by eauto. rewrite Hp.
    eexists; split; [done|]. done.
  - rewrite bool_decide_eq_false_2 by (intros [? ?]; done).
    exists w. repeat split; try done. symmetry. by apply delete_id.
Qed.

Lemma try_finally_cleanup {A} (m : M A) temp_path w r w1 :
  m w = (r, w1) ->
  exists w2, try_finally m (cleanup temp_path) w = (r, w2) /\
             fs w2 = delete temp_path (fs w1) /\
             bucket w2 = bucket w1 /\ stdout w2 = stdout w1 /\ calls w2 = calls w1.
Proof.
  intros Hm. unfold try_finally. rewrite Hm.
  destruct (cleanup_removes temp_path w1) as (w2 & Hc & Hrest).
  rewrite Hc. by exists w2.
Qed.

(** ** The except clause *)

Lemma on_exception_spec env e w :
  on_exception env e w =
    (Return generic_error,
     {| fs := fs w; bucket := bucket w;
        stdout := stdout w ++ [("Transcription error: " ++ str_exn e)%string;
                               ("Traceback: " ++ format_exc env e)%string];
        calls := calls w |}).
Proof.
  unfold on_exception, bind, print, ret. cbn. by rewrite <- app_assoc.
Qed.

Lemma transcribe_audio_Raise env request w e w1 :
  transcribe_body env request w = (Raise e, w1) ->
  transcribe_audio env request w = on_exception env e w1.
Proof. intros H. unfold transcribe_audio, try_except. by rewrite H. Qed.

Lemma transcribe_audio_Return env request w r w1 :
  transcribe_body env request w = (Return r, w1) ->
  transcribe_audio env request w = (Return r, w1).
Proof. intros H. unfold transcribe_audio, try_except. by rewrite H. Qed.

Lemma truthy_nonempty s : truthy s = true <-> s <> "".
Proof.
  unfold truthy. destruct (String.eqb_spec s ""); split; intros; try done.
Qed.

Lemma truthy_empty s : truthy s = false <-> s = "".
Proof.
  unfold truthy. destruct (String.eqb_spec s ""); split; intros; try done.
Qed.

(** ** Inverting a successful pipeline *)

Lemma model_transcribe_route env request temp_path :
  (if String.eqb (language request) "auto"
   then model_transcribe env temp_path None
   else model_transcribe env temp_path (Some (str_lower env (language request))))
  = model_transcribe env temp_path (language_argument env request).
Proof. unfold language_argument. by destruct (String.eqb _ _). Qed.

Lemma model_transcribe_inv env temp_path lang w r w' :
  model_transcribe env temp_path lang w = (r, w') ->
  (fs w !! temp_path = None /\ r = Raise (FileNotFoundError temp_path) /\ w' = w) \/
  (exists audio, fs w !! temp_path = Some audio /\
                 r = transcribe env audio lang /\
                 fs w' = fs w /\ bucket w' = bucket w /\ stdout w' = stdout w /\
                 calls w' = calls w ++ [CallTranscribe audio lang]).
Proof.
  unfold model_transcribe, bind, read_file, call, lift.
  destruct (fs w !! temp_path) as [audio|]; intros H; inversion H; subst.
  - right. by exists audio.
  - by left.
Qed.

Lemma pipeline_Return_inv env request temp_path w r w' :
  pipeline env request temp_path w = (Return r, w') ->
  exists audio result adjusted,
    transcribe env audio (language_argument env request) = Return result /\
    delete_fault env (filename request) = None /\
    adjust_segments (res_segments result) = Return adjusted /\
    r = transcript (res_text result) adjusted (res_language result).
Proof.
  unfold pipeline, infer_and_respond. rewrite model_transcribe_route. intros H.
  do 5 bind_Return_inv H.
  apply model_transcribe_inv in Hm3 as [(_ & ? & _) | (audio & _ & Htr & _)];
    [discriminate|].
  do 3 bind_Return_inv H.
  unfold s3_delete_object, bind, call in Hm4.
  destruct (delete_fault env (filename request)) eqn:Hdel; [discriminate|].
  unfold lift in Hm5. unfold ret in H. inversion Hm5. inversion H. subst.
  exists audio, a3, a6. eauto.
Qed.

Lemma transcribe_body_Return_inv env request w r w' :
  transcribe_body env request w = (Return r, w') ->
  (filename request = "" /\ r = validation_error /\ w' = w) \/
  (filename request <> "" /\
   exists audio result adjusted,
     transcribe env audio (language_argument env request) = Return result /\
     delete_fault env (filename request) = None /\
     adjust_segments (res_segments result) = Return adjusted /\
     r = transcript (res_text result) adjusted (res_language result)).
Proof.
  unfold transcribe_body.
  destruct (truthy (filename request)) eqn:Hf; cbn [negb].
  - intros H. right. split; [by apply truthy_nonempty|].
    do 2 bind_Return_inv H.
    unfold try_finally in H.
    destruct (pipeline env request a0 w1) as [r1 w2] eqn:Hp.
    destruct (cleanup a0 w2) as [[[]|e] w3]; [|discriminate].
    inversion H; subst. by apply pipeline_Return_inv in Hp.
  - intros H. inversion H. left. by apply truthy_empty in Hf.
Qed.

Lemma NamedTemporaryFile_inv env w r w1 :
  NamedTemporaryFile env w = (r, w1) ->
  (exists e, scratch_path env = Raise e /\ r = Raise e /\ w1 = w) \/
  (exists temp_path, scratch_path env = Return temp_path /\ r = Return temp_path /\
     fs w1 = <[temp_path := []]> (fs w) /\
     bucket w1 = bucket w /\ stdout w1 = stdout w /\ calls w1 = calls w).
Proof.
  unfold NamedTemporaryFile, scratch_path, bind, lift, write_file, set_fs, ret.
  destruct (mkstemp env) as [stem|e]; intros H; inversion H; subst.
  - right. by eexists.
  - left. by exists e.
Qed.

(** ** Scratch-file cleanup *)

(** C1. Whenever the invocation got as far as creating the scratch file
    (the filename is not empty, the store client was built and
    NamedTemporaryFile returned [temp_path]), the file exists at that point
    and is absent from local storage when the invocation completes, whatever
    the response is. *)
Theorem scratch_file_removed env request w w0 w1 temp_path :
  filename request <> "" ->
  boto3_client env w = (Return tt, w0) ->
  NamedTemporaryFile env w0 = (Return temp_path, w1) ->
  fs w1 !! temp_path = Some [] /\
  fs (snd (transcribe_audio env request w)) !! temp_path = None.
Proof.
  intros Hf Hb Hn. split.
  - apply NamedTemporaryFile_inv in Hn as [(e & _ & ? & _) | (p & _ & Hp & Hfs & _)];
      [discriminate|].
    inversion Hp; subst. rewrite Hfs. apply lookup_insert_eq.
  - unfold transcribe_audio, try_except, transcribe_body.
    apply truthy_nonempty in Hf. rewrite Hf. cbn [negb].
    rewrite (bind_Return _ _ _ _ _ Hb), (bind_Return _ _ _ _ _ Hn).
    destruct (pipeline env request temp_path w1) as [r w2] eqn:Hp.
    destruct (try_finally_cleanup _ temp_path _ _ _ Hp) as (w3 & Hfin & Hfs & _).
    rewrite Hfin. destruct r as [r|e].
    + cbn. rewrite Hfs. apply lookup_delete_eq.
    + rewrite on_exception_spec. cbn. rewrite Hfs. apply lookup_delete_eq.
Qed.

Lemma scratch_file_removed_witness :
  fs (snd (transcribe_audio Reference.sample_env
             (Reference.request_for "clip.wav" "EN" None None)
             Reference.sample_world)) !! "/tmp/tmpq1.wav" = None.
Proof.
  refine (proj2 (scratch_file_removed Reference.sample_env
                   (Reference.request_for "clip.wav" "EN" None None)
                   Reference.sample_world Reference.sample_world
                   {| fs := <["/tmp/tmpq1.wav" := []]> ∅;
                      bucket := bucket Reference.sample_world;
                      stdout := []; calls := [] |}
                   "/tmp/tmpq1.wav" _ _ _)).
  - discriminate.
  - reflexivity.
  - reflexivity.
Defined.

(** ** Response shapes *)

Lemma generic_error_is_ErrorResult : is_ErrorResult generic_error.
Proof. by eexists. Qed.

(** C4, as the code has it.  Every invocation returns, and the response is
    one of three dicts: the one-key validation dict when the filename is
    empty; otherwise a complete TranscriptResult or the complete generic
    ErrorResult. *)
Theorem response_shapes env request w :
  exists r w', transcribe_audio env request w = (Return r, w') /\
    ((filename request = "" /\ r = validation_error) \/
     (filename request <> "" /\ is_TranscriptResult r /\ ~ is_ErrorResult r) \/
     (filename request <> "" /\ r = generic_error /\ is_ErrorResult r)).
Proof.
  destruct (transcribe_body env request w) as [[r|e] w1] eqn:Hb.
  - exists r, w1. split; [by apply transcribe_audio_Return|].
    apply transcribe_body_Return_inv in Hb
      as [(Hf & -> & _) | (Hf & audio & result & adjusted & _ & _ & _ & ->)].
    + by left.
    + right; left. split; [done|]. split; [by eexists _, _, _|].
      intros (msg & H). discriminate.
  - rewrite (transcribe_audio_Raise _ _ _ _ _ Hb), on_exception_spec.
    eexists _, _. split; [done|]. right; right.
    split; [|split; [done | apply generic_error_is_ErrorResult]].
    intros Hf. unfold transcribe_body in Hb.
    apply truthy_empty in Hf. rewrite Hf in Hb. discriminate.
Qed.

(** C4 as stated fails on the validation path: with an empty filename the
    response is the one-key dict, which is neither a TranscriptResult nor an
    ErrorResult. *)
Lemma validation_response_incomplete :
  transcribe_audio Reference.sample_env
    (Reference.request_for "" "auto" None None) Reference.sample_world =
  (Return [("error", JStr "Missing filename parameter")], Reference.sample_world) /\
  ~ is_TranscriptResult [("error", JStr "Missing filename parameter")] /\
  ~ is_ErrorResult [("error", JStr "Missing filename parameter")].
Proof.
  split; [reflexivity|]. split.
  - intros (t & s & l & H). discriminate.
  - intros (msg & H). discriminate.
Qed.

(** ** Timestamp adjustment *)

Lemma number_max_0 x : number (max_0 x) = Some (Qc_max 0 x).
Proof.
  unfold max_0, Qc_max. destruct (Qclt_le_dec 0 x); [done|].
  cbn. by rewrite Z2Qc_inj_0.
Qed.

Lemma number_max_adjustment x :
  number (max_adjustment x) = Some (Qc_max SEGMENT_TIME_ADJUSTMENT_SEC x).
Proof.
  unfold max_adjustment, Qc_max.
  by destruct (Qclt_le_dec SEGMENT_TIME_ADJUSTMENT_SEC x).
Qed.

Lemma adjusted_from_insert segment s e :
  timestamp segment "start" = Some s ->
  timestamp segment "end" = Some e ->
  adjusted_from segment
    (<["end" := max_adjustment (e - SEGMENT_TIME_ADJUSTMENT_SEC)%Qc]>
       (<["start" := max_0 (s - SEGMENT_TIME_ADJUSTMENT_SEC)%Qc]> segment)).
Proof.
  intros Hs He. exists s, e. repeat split; try done.
  - unfold timestamp. rewrite lookup_insert_ne by done.
    rewrite lookup_insert_eq. apply number_max_0.
  - unfold timestamp. rewrite lookup_insert_eq. apply number_max_adjustment.
  - intros key H1 H2. by rewrite !lookup_insert_ne.
Qed.

Lemma getitem_sub segment key :
  bind_o (getitem segment key) sub_adjustment =
  match timestamp segment key with
  | Some q => Return (q - SEGMENT_TIME_ADJUSTMENT_SEC)%Qc
  | None =>
      match segment !! key with
      | Some v => Raise (TypeError ("unsupported operand type(s) for -: '" ++
                                    type_name v ++ "' and 'float'"))
      | None => Raise (KeyError key)
      end
  end.
Proof.
  unfold timestamp, getitem. by destruct (segment !! key) as [[]|].
Qed.

Lemma adjust_segment_unfold segment :
  adjust_segment segment =
  bind_o (bind_o (getitem segment "start") sub_adjustment) (fun s' =>
  bind_o (bind_o (getitem segment "end") sub_adjustment) (fun e' =>
  Return (<["end" := max_adjustment e']> (<["start" := max_0 s']> segment)))).
Proof.
  unfold adjust_segment.
  destruct (getitem segment "start") as [vs|]; [|done]. cbn.
  destruct (sub_adjustment vs); [|done]. cbn.
  by destruct (getitem segment "end").
Qed.

Lemma adjust_segment_spec segment s e :
  timestamp segment "start" = Some s ->
  timestamp segment "end" = Some e ->
  adjust_segment segment =
    Return (<["end" := max_adjustment (e - SEGMENT_TIME_ADJUSTMENT_SEC)%Qc]>
              (<["start" := max_0 (s - SEGMENT_TIME_ADJUSTMENT_SEC)%Qc]> segment)).
Proof.
  intros Hs He. rewrite adjust_segment_unfold, !getitem_sub, Hs, He. done.
Qed.

Lemma adjust_segment_inv segment adjusted :
  adjust_segment segment = Return adjusted -> adjusted_from segment adjusted.
Proof.
  rewrite adjust_segment_unfold, !getitem_sub.
  destruct (timestamp segment "start") as [s|] eqn:Hs;
    [|by destruct (segment !! "start")].
  destruct (timestamp segment "end") as [e|] eqn:He;
    [|by destruct (segment !! "end")].
  cbn. intros H. inversion H. by apply adjusted_from_insert.
Qed.

Lemma adjust_segments_inv segments adjusted :
  adjust_segments segments = Return adjusted ->
  Forall2 adjusted_from segments adjusted.
Proof.
  revert adjusted. induction segments as [|segment rest IH]; intros adjusted; cbn.
  - intros H. inversion H. constructor.
  - destruct (adjust_segment segment) as [a|] eqn:Ha; [|done]. cbn.
    destruct (adjust_segments rest) as [r|]; [|done]. cbn.
    intros H. inversion H; subst. constructor; [by apply adjust_segment_inv|].
    by apply IH.
Qed.

Lemma adjustment_keeps_order (s e : Qc) :
  (s <= e)%Qc ->
  (Qc_max 0 (s - SEGMENT_TIME_ADJUSTMENT_SEC) <=
   Qc_max SEGMENT_TIME_ADJUSTMENT_SEC (e - SEGMENT_TIME_ADJUSTMENT_SEC))%Qc.
Proof.
  intros H. unfold Qc_max.
  destruct (Qclt_le_dec 0 (s - SEGMENT_TIME_ADJUSTMENT_SEC)) as [H1|H1],
    (Qclt_le_dec SEGMENT_TIME_ADJUSTMENT_SEC (e - SEGMENT_TIME_ADJUSTMENT_SEC))
      as [H2|H2];
    unfold Qcle, Qclt, Qcminus, Qcplus, Qcopp, SEGMENT_TIME_ADJUSTMENT_SEC, Q2Qc in *;
    cbn [this] in *; rewrite ?Qred_correct in *; lra.
Qed.

Lemma max_0_example_1 :
  max_0 (Q2Qc (12 # 10) - SEGMENT_TIME_ADJUSTMENT_SEC)%Qc = PFloat (Q2Qc (7 # 10)).
Proof.
  unfold max_0. destruct (Qclt_le_dec _ _) as [_|H].
  - apply (f_equal PFloat), Qc_is_canon. reflexivity.
  - exfalso. vm_compute in H. by apply H.
Qed.

Lemma max_0_example_2 :
  max_0 (Q2Qc (2 # 10) - SEGMENT_TIME_ADJUSTMENT_SEC)%Qc = PInt 0.
Proof.
  unfold max_0. destruct (Qclt_le_dec _ _) as [H|_]; [|done].
  exfalso. vm_compute in H. discriminate.
Qed.

Lemma max_adjustment_example_1 :
  max_adjustment (Q2Qc (3 # 1) - SEGMENT_TIME_ADJUSTMENT_SEC)%Qc = PFloat (Q2Qc (25 # 10)).
Proof.
  unfold max_adjustment. destruct (Qclt_le_dec _ _) as [_|H].
  - apply (f_equal PFloat), Qc_is_canon. reflexivity.
  - exfalso. vm_compute in H. by apply H.
Qed.

Lemma max_adjustment_example_2 :
  max_adjustment (Q2Qc (4 # 10) - SEGMENT_TIME_ADJUSTMENT_SEC)%Qc = PFloat (Q2Qc (5 # 10)).
Proof.
  unfold max_adjustment. destruct (Qclt_le_dec _ _) as [H|_].
  - exfalso. vm_compute in H. discriminate.
  - apply (f_equal PFloat), Qc_is_canon. reflexivity.
Qed.

(** C9 as stated fails: no segment with start <= end, short or not, comes
    out of the adjustment with end < start. *)
Lemma no_segment_inverted :
  ~ exists (segment adjusted : gmap string pyval) (s e s' e' : Qc),
      timestamp segment "start" = Some s /\
      timestamp segment "end" = Some e /\
      (s <= e)%Qc /\ (e - s < SEGMENT_TIME_ADJUSTMENT_SEC)%Qc /\
      adjust_segment segment = Return adjusted /\
      timestamp adjusted "start" = Some s' /\
      timestamp adjusted "end" = Some e' /\
      (e' < s')%Qc.
Proof.
  intros (segment & adjusted & s & e & s' & e' & Hs & He & Hle & _ & Ha & Hs' & He' & Hlt).
  apply adjust_segment_inv in Ha as (s0 & e0 & Hs0 & He0 & _ & Hs1 & He1 & _).
  rewrite Hs in Hs0. rewrite He in He0. inversion Hs0; inversion He0; subst.
  rewrite Hs' in Hs1. rewrite He' in He1. inversion Hs1; inversion He1; subst.
  apply Qclt_not_le in Hlt. apply Hlt. by apply adjustment_keeps_order.
Qed.

(** C9, as the code has it.  A segment with start <= end is adjusted to a
    segment whose start is again at most its end: subtracting the same
    offset from both and raising the end to at least 0.5 cannot put the
    start, which is raised to at least 0 only, above the end. *)
Theorem adjusted_order_kept segment s e :
  timestamp segment "start" = Some s ->
  timestamp segment "end" = Some e ->
  (s <= e)%Qc ->
  exists adjusted s' e',
    adjust_segment segment = Return adjusted /\
    timestamp adjusted "start" = Some s' /\
    timestamp adjusted "end" = Some e' /\
    s' = Qc_max 0 (s - SEGMENT_TIME_ADJUSTMENT_SEC) /\
    e' = Qc_max SEGMENT_TIME_ADJUSTMENT_SEC (e - SEGMENT_TIME_ADJUSTMENT_SEC) /\
    (s' <= e')%Qc.
Proof.
  intros Hs He Hle.
  destruct (adjusted_from_insert _ _ _ Hs He) as (s0 & e0 & Hs0 & He0 & _ & Hs1 & He1 & _).
  rewrite Hs in Hs0. rewrite He in He0. inversion Hs0; inversion He0; subst.
  eexists _, _, _. split; [by apply adjust_segment_spec|].
  repeat split; try done. by apply adjustment_keeps_order.
Qed.

Lemma adjusted_order_kept_witness :
  exists adjusted s' e',
    adjust_segment (list_to_map [("start", PFloat (Q2Qc (2 # 10)));
                                 ("end", PFloat (Q2Qc (4 # 10)))]) = Return adjusted /\
    timestamp adjusted "start" = Some s' /\
    timestamp adjusted "end" = Some e' /\
    s' = Qc_max 0 (Q2Qc (2 # 10) - SEGMENT_TIME_ADJUSTMENT_SEC) /\
    e' = Qc_max SEGMENT_TIME_ADJUSTMENT_SEC (Q2Qc (4 # 10) - SEGMENT_TIME_ADJUSTMENT_SEC) /\
    (s' <= e')%Qc.
Proof.
  apply (adjusted_order_kept
           (list_to_map [("start", PFloat (Q2Qc (2 # 10)));
                         ("end", PFloat (Q2Qc (4 # 10)))])
           (Q2Qc (2 # 10)) (Q2Qc (4 # 10))).
  - reflexivity.
  - reflexivity.
  - vm_compute. discriminate.
Defined.

(** ** The reference environment meets the library contract *)

Lemma xorb_cancel (m a : bool) : xorb m (xorb m a) = a.
Proof. by destruct m, a. Qed.

Lemma byte_xor_involutive m a : Reference.byte_xor m (Reference.byte_xor m a) = a.
Proof.
  unfold Reference.byte_xor. rewrite Byte.to_bits_of_bits.
  rewrite <- (Byte.of_bits_to_bits a) at 2. f_equal.
  destruct (Byte.to_bits m) as (m0 & m1 & m2 & m3 & m4 & m5 & m6 & m7).
  destruct (Byte.to_bits a) as (a0 & a1 & a2 & a3 & a4 & a5 & a6 & a7).
  cbn. by rewrite !xorb_cancel.
Qed.

Lemma map_byte_xor_involutive m (P : bytes) :
  map (Reference.byte_xor m) (map (Reference.byte_xor m) P) = P.
Proof.
  induction P as [|b P IH]; [done|]. cbn. by rewrite byte_xor_involutive, IH.
Qed.

Lemma flip_bits8_neq k t : k < 8 -> flip_bits8 k t <> t.
Proof.
  intros Hk.
  destruct t as (b0 & b1 & b2 & b3 & b4 & b5 & b6 & b7).
  do 8 (destruct k as [|k]; [cbn; intros H; inversion H;
                              by eapply no_fixpoint_negb|]).
  lia.
Qed.

Lemma flip_bit_neq k b : k < 8 -> flip_bit k b <> b.
Proof.
  intros Hk H. apply (flip_bits8_neq k (Byte.to_bits b) Hk).
  unfold flip_bit in H. rewrite <- H at 2. by rewrite Byte.to_bits_of_bits.
Qed.

Lemma flip_bit_at_neq i k (buf : bytes) :
  i < length buf -> k < 8 -> flip_bit_at i k buf <> buf.
Proof.
  unfold flip_bit_at. revert i. induction buf as [|b buf IH]; intros i Hi Hk; cbn in Hi.
  - lia.
  - destruct i as [|i]; cbn; intros H; inversion H.
    + by eapply flip_bit_neq.
    + eapply IH; [|done..]. lia.
Qed.

Lemma parity_flip_bits8 k t :
  k < 8 -> Reference.parity_bits8 (flip_bits8 k t) = negb (Reference.parity_bits8 t).
Proof.
  intros Hk.
  destruct t as (b0 & b1 & b2 & b3 & b4 & b5 & b6 & b7).
  do 8 (destruct k as [|k];
        [by destruct b0, b1, b2, b3, b4, b5, b6, b7|]).
  lia.
Qed.

Lemma parity_flip_bit_at i k (C : bytes) :
  i < length C -> k < 8 ->
  Reference.parity (flip_bit_at i k C) = negb (Reference.parity C).
Proof.
  unfold flip_bit_at. revert i. induction C as [|b C IH]; intros i Hi Hk; cbn in Hi.
  - lia.
  - destruct i as [|i]; cbn.
    + unfold flip_bit. rewrite Byte.to_bits_of_bits, parity_flip_bits8 by done.
      by rewrite negb_xorb_l.
    + rewrite IH by (done || lia). by rewrite negb_xorb_r.
Qed.

Lemma key_length_ok_spec K :
  Reference.key_length_ok K = true <-> valid_key_length K.
Proof.
  unfold Reference.key_length_ok, valid_key_length.
  rewrite !orb_true_iff, !Nat.eqb_eq. tauto.
Qed.

Lemma seal_tag_length K N C : length (Reference.seal_tag K N C) = 16.
Proof. reflexivity. Qed.

Lemma seal_tag_flipped K N C i k :
  i < length C -> k < 8 ->
  Reference.seal_tag K N (flip_bit_at i k C) <> Reference.seal_tag K N C.
Proof.
  intros Hi Hk. unfold Reference.seal_tag.
  rewrite parity_flip_bit_at by done. intros H. inversion H as [H1].
  apply (f_equal (Reference.byte_xor (Reference.pad K N))) in H1.
  rewrite !byte_xor_involutive in H1. by destruct (Reference.parity C).
Qed.

Lemma seal_inv K N P C T :
  Reference.seal K N P = Some (C, T) ->
  Reference.key_length_ok K = true /\ Reference.nonce_length_ok N = true /\
  C = map (Reference.byte_xor (Reference.pad K N)) P /\ T = Reference.seal_tag K N C.
Proof.
  unfold Reference.seal.
  destruct (Reference.key_length_ok K), (Reference.nonce_length_ok N);
    cbn; intros H; inversion H; done.
Qed.

Lemma unseal_tag_mismatch K N T C :
  T <> Reference.seal_tag K N C -> exists e, Reference.unseal K N T C = Raise e.
Proof.
  intros H. unfold Reference.unseal.
  destruct (negb _); [by eexists|]. destruct (negb _); [by eexists|].
  destruct (_ <? _)%nat; [by eexists|].
  rewrite bool_decide_eq_false_2 by done. by eexists.
Qed.

Lemma reference_contract : library_contract Reference.seal Reference.sample_env.
Proof.
  split; cbn.
  - done.
  - intros K N P [C T] H. apply seal_inv in H as (H & _). by apply key_length_ok_spec.
  - intros K N P [C T] H. apply seal_inv in H as (_ & H & _).
    unfold Reference.nonce_length_ok in H. apply andb_true_iff in H as [H _].
    apply Nat.leb_le in H. intros ->. cbn in H. lia.
  - intros K N P C T H. apply seal_inv in H as (_ & _ & _ & ->). apply seal_tag_length.
  - intros K N P C T H. apply seal_inv in H as (HK & HN & -> & ->).
    unfold Reference.unseal. rewrite HK, HN, seal_tag_length. cbn.
    rewrite bool_decide_eq_true_2 by done. by rewrite map_byte_xor_involutive.
Qed.

Lemma reference_rejection : rejection_contract Reference.seal Reference.sample_env.
Proof.
  split; cbn.
  - intros K N P C T i k H Hi Hk. apply seal_inv in H as (_ & _ & _ & ->).
    apply unseal_tag_mismatch. intros H. by eapply seal_tag_flipped.
  - intros K N P C T i k H Hi Hk. apply seal_inv in H as (_ & _ & _ & HT).
    apply unseal_tag_mismatch. rewrite <- HT. by apply flip_bit_at_neq.
  - intros K N T C H. unfold Reference.unseal.
    destruct (Reference.key_length_ok K) eqn:HK; [|by eexists].
    by apply key_length_ok_spec in HK.
  - intros K N T C H. unfold Reference.unseal.
    destruct (negb _); [by eexists|]. destruct (negb _); [by eexists|].
    apply Nat.ltb_lt in H. rewrite H. by eexists.
Qed.

(** ** Decryption *)

Lemma decrypt_step_truthy env k n temp_path :
  k <> "" -> n <> "" ->
  decrypt_step env (Some k) (Some n) temp_path = decrypt_file env k n temp_path.
Proof.
  intros Hk Hn. unfold decrypt_step.
  apply truthy_nonempty in Hk, Hn. by rewrite Hk, Hn.
Qed.

Lemma decrypt_file_spec env k n temp_path w data K N :
  fs w !! temp_path = Some data ->
  b64decode env k = Return K ->
  b64decode env n = Return N ->
  decrypt_file env k n temp_path w =
    let tag := drop (length data - 16) data in
    let ciphertext := take (length data - 16) data in
    match aes_gcm_decrypt env K N tag ciphertext with
    | Return P =>
        (Return tt,
         {| fs := <[temp_path := P]> (fs w); bucket := bucket w; stdout := stdout w;
            calls := calls w ++ [CallDecrypt K N tag ciphertext] |})
    | Raise e =>
        (Raise e,
         {| fs := fs w; bucket := bucket w; stdout := stdout w;
            calls := calls w ++ [CallDecrypt K N tag ciphertext] |})
    end.
Proof.
  intros Hf HK HN.
  unfold decrypt_file, bind, read_file, lift, call, write_file, set_fs.
  rewrite Hf, HK, HN. cbn.
  by destruct (aes_gcm_decrypt env K N _ _).
Qed.

(** The last 16 bytes are the tag, what precedes is the ciphertext. *)
Lemma split_ciphertext_tag (C T : bytes) :
  length T = 16 ->
  drop (length (C ++ T) - 16) (C ++ T) = T /\
  take (length (C ++ T) - 16) (C ++ T) = C.
Proof.
  intros HT. rewrite length_app, HT.
  replace (length C + 16 - 16) with (length C) by lia.
  by rewrite drop_app_length, take_app_length.
Qed.

Lemma decoded_nonempty env encrypt s (B : bytes) :
  library_contract encrypt env ->
  b64decode env s = Return B -> B <> [] -> s <> "".
Proof.
  intros Hc Hs HB ->. rewrite (b64decode_empty _ _ Hc) in Hs. by inversion Hs.
Qed.

Lemma valid_key_nonempty K : valid_key_length K -> K <> [].
Proof. intros H ->. unfold valid_key_length in H. cbn in H. lia. Qed.

(** C2. If AES-GCM encryption of [P] under key [K] and nonce [N] gives
    ciphertext [C] and tag [T], the scratch file holds C || T, and the
    request carries strings that base64-decode to [K] and [N], then the
    decrypt step calls the library with tag [T] (the trailing 16 bytes) and
    ciphertext [C], does not raise, and leaves exactly [P] in the file. *)
Theorem decrypt_roundtrip env encrypt K N P C T key_b64 nonce_b64 temp_path w :
  library_contract encrypt env ->
  encrypt K N P = Some (C, T) ->
  b64decode env key_b64 = Return K ->
  b64decode env nonce_b64 = Return N ->
  fs w !! temp_path = Some (C ++ T) ->
  exists w',
    decrypt_step env (Some key_b64) (Some nonce_b64) temp_path w = (Return tt, w') /\
    fs w' !! temp_path = Some P /\
    calls w' = calls w ++ [CallDecrypt K N T C].
Proof.
  intros Hc He HK HN Hf.
  assert (key_b64 <> "") as Hk.
  { eapply decoded_nonempty; [done..|].
    eapply valid_key_nonempty, encrypt_key_length; done. }
  assert (nonce_b64 <> "") as Hn.
  { eapply decoded_nonempty; [done..|]. eapply encrypt_nonce_nonempty; done. }
  rewrite (decrypt_step_truthy _ _ _ _ Hk Hn).
  rewrite (decrypt_file_spec _ _ _ _ _ _ _ _ Hf HK HN). cbn zeta.
  destruct (split_ciphertext_tag C T) as [-> ->];
    [by eapply encrypt_tag_length|].
  rewrite (decrypt_encrypt _ _ Hc _ _ _ _ _ He).
  eexists. split; [done|]. split; [|done]. cbn. apply lookup_insert_eq.
Qed.

Lemma decrypt_roundtrip_witness :
  exists w',
    decrypt_step Reference.sample_env (Some Reference.sample_key_b64)
      (Some Reference.sample_nonce_b64) "/tmp/tmpq1.wav"
      {| fs := {["/tmp/tmpq1.wav" := Reference.sample_sealed]};
         bucket := ∅; stdout := []; calls := [] |} = (Return tt, w') /\
    fs w' !! "/tmp/tmpq1.wav" = Some Reference.sample_audio /\
    calls w' = [] ++ [CallDecrypt Reference.sample_key Reference.sample_nonce
                        (replicate 16 x01) [x53; x48; x47; x47]].
Proof.
  apply (decrypt_roundtrip Reference.sample_env Reference.seal
           Reference.sample_key Reference.sample_nonce Reference.sample_audio
           [x53; x48; x47; x47] (replicate 16 x01)
           Reference.sample_key_b64 Reference.sample_nonce_b64 "/tmp/tmpq1.wav"
           {| fs := {["/tmp/tmpq1.wav" := Reference.sample_sealed]};
              bucket := ∅; stdout := []; calls := [] |}).
  - exact reference_contract.
  - reflexivity.
  - reflexivity.
  - reflexivity.
  - reflexivity.
Defined.

(** C10. A request whose decryptionKey or iv is supplied as the empty
    string takes the branch that skips decryption: the decrypt step returns
    without raising and without touching the scratch file or calling the
    library, and the whole invocation behaves as if neither had been
    supplied. *)
Theorem empty_key_or_nonce_skips_decryption env request w :
  decryption_key request = Some "" \/ iv request = Some "" ->
  (forall temp_path w1,
     decrypt_step env (decryption_key request) (iv request) temp_path w1 =
       (Return tt, w1)) /\
  transcribe_audio env request w =
    transcribe_audio env
      {| filename := filename request; language := language request;
         decryption_key := None; iv := None |} w.
Proof.
  destruct request as [f l dk n]. cbn. intros [-> | ->].
  - split.
    + intros temp_path w1. by destruct n.
    + unfold transcribe_audio, transcribe_body, pipeline, decrypt_step. cbn.
      by destruct n.
  - split.
    + intros temp_path w1. destruct dk as [k|]; [|done].
      unfold decrypt_step. by rewrite andb_false_r.
    + unfold transcribe_audio, transcribe_body, pipeline, decrypt_step. cbn.
      destruct dk as [k|]; [|done]. by destruct (truthy k).
Qed.

Lemma empty_key_or_nonce_skips_decryption_witness :
  (forall temp_path w1,
     decrypt_step Reference.sample_env (Some "") (Some Reference.sample_nonce_b64)
       temp_path w1 = (Return tt, w1)) /\
  transcribe_audio Reference.sample_env
    (Reference.request_for "sealed.wav" "auto" (Some "") (Some Reference.sample_nonce_b64))
    Reference.sample_world =
  transcribe_audio Reference.sample_env
    (Reference.request_for "sealed.wav" "auto" None None) Reference.sample_world.
Proof.
  apply (empty_key_or_nonce_skips_decryption Reference.sample_env
           (Reference.request_for "sealed.wav" "auto" (Some "")
              (Some Reference.sample_nonce_b64)) Reference.sample_world).
  left. reflexivity.
Defined.

(** ** The calls of one invocation *)

Lemma s3_download_file_inv env b k p w r w' :
  s3_download_file env b k p w = (r, w') ->
  calls w' = calls w ++ [CallDownload b k p] /\
  bucket w' = bucket w /\ stdout w' = stdout w /\
  ((exists data, download_fault env k = None /\ bucket w !! k = Some data /\
                 r = Return tt /\ fs w' = <[p := data]> (fs w)) \/
   (exists e, r = Raise e /\ fs w' = fs w)).
Proof.
  unfold s3_download_file, bind, call, raise, write_file, set_fs. cbn.
  destruct (download_fault env k) as [e|].
  - intros H; inversion H; subst; cbn. split_and!; try done. right. by exists e.
  - cbn. destruct (bucket w !! k) as [data|] eqn:Hb; intros H; inversion H; subst; cbn;
      split_and!; try done.
    + left. by exists data.
    + right. by eexists.
Qed.

Lemma decrypt_step_calls env dk n p w r w' :
  decrypt_step env dk n p w = (r, w') ->
  bucket w' = bucket w /\
  exists dec, calls w' = calls w ++ dec /\ Forall setup_call dec.
Proof.
  assert (forall (r0 : outcome unit), (r0, w) = (r, w') ->
            bucket w' = bucket w /\
            exists dec, calls w' = calls w ++ dec /\ Forall setup_call dec) as Hsame.
  { intros r0 H. inversion H; subst. split; [done|]. exists [].
    by rewrite app_nil_r. }
  unfold decrypt_step. destruct dk as [k|]; [|apply Hsame].
  destruct n as [n|]; [|apply Hsame].
  destruct (truthy k && truthy n); [|apply Hsame].
  unfold decrypt_file, bind, read_file, lift, call, write_file, set_fs.
  destruct (fs w !! p) as [data|]; [|apply Hsame].
  destruct (b64decode env k) as [K|]; [|apply Hsame].
  destruct (b64decode env n) as [N|]; [|apply Hsame].
  cbn. destruct (aes_gcm_decrypt env K N _ _); intros H; inversion H; subst; cbn;
    (split; [done|]); eexists; (split; [done|]); by repeat constructor.
Qed.

Lemma whisper_load_model_inv env name w r w' :
  whisper_load_model env name w = (r, w') ->
  calls w' = calls w ++ [CallLoadModel name] /\ bucket w' = bucket w /\
  fs w' = partial_alter (cache_after env name) (cache_file env name) (fs w).
Proof.
  unfold whisper_load_model, bind, call, set_fs, raise, ret. cbn.
  destruct (load_model env name); intros H; inversion H; subst; done.
Qed.

Lemma s3_delete_object_inv env b k w r w' :
  s3_delete_object env b k w = (r, w') ->
  calls w' = calls w ++ [CallDelete b k] /\
  ((exists e, delete_fault env k = Some e /\ r = Raise e) \/
   (delete_fault env k = None /\ r = Return tt /\ bucket w' = delete k (bucket w))).
Proof.
  unfold s3_delete_object, bind, call, raise, set_bucket. cbn.
  destruct (delete_fault env k) as [e|]; intros H; inversion H; subst; cbn;
    (split; [done|]).
  - left. by exists e.
  - by right.
Qed.

Lemma infer_and_respond_trace env request temp_path w r w' :
  is_Some (environ env !! "R2_BUCKET_NAME") ->
  infer_and_respond env request temp_path w = (r, w') ->
  exists pre post,
    calls w' = calls w ++ pre ++ post /\ Forall setup_call pre /\
    ((post = [] /\ exists e, r = Raise e) \/
     (exists audio e,
        post = [CallTranscribe audio (language_argument env request)] /\
        transcribe env audio (language_argument env request) = Raise e /\
        r = Raise e) \/
     (exists audio result bucket_name,
        post = [CallTranscribe audio (language_argument env request);
                CallDelete bucket_name (filename request)] /\
        transcribe env audio (language_argument env request) = Return result /\
        ((exists e, delete_fault env (filename request) = Some e /\ r = Raise e) \/
         (delete_fault env (filename request) = None /\
          bucket w' !! filename request = None)))).
Proof.
  intros [bn Hbn]. unfold infer_and_respond. rewrite model_transcribe_route.
  intros H. exists [CallLoadModel (os_environ_get env "WHISPER_MODEL" "base")].
  assert (Forall setup_call
            [CallLoadModel (os_environ_get env "WHISPER_MODEL" "base")]) as Hpre
    by (by repeat constructor).
  apply bind_inv in H as [([] & w1 & Hload & H) | (e & Hload & ->)];
    apply whisper_load_model_inv in Hload as (Hc1 & Hb1 & _).
  - apply bind_inv in H as [(result & w2 & Htr & H) | (e & Htr & ->)];
      apply model_transcribe_inv in Htr
        as [(_ & Hr & Hw) | (audio & _ & Hr & _ & Hb2 & _ & Hc2)];
      try discriminate.
    + rewrite (bind_Return _ _ _ _ _ (os_environ_Some env _ bn w2 Hbn)) in H.
      exists [CallTranscribe audio (language_argument env request);
              CallDelete bn (filename request)].
      assert (calls w2 ++ [CallDelete bn (filename request)] =
              calls w ++
                [CallLoadModel (os_environ_get env "WHISPER_MODEL" "base")] ++
                [CallTranscribe audio (language_argument env request);
                 CallDelete bn (filename request)]) as Hcalls.
      { rewrite Hc2, Hc1, <- !app_assoc. done. }
      apply bind_inv in H as [([] & w3 & Hdel & H) | (e & Hdel & ->)];
        apply s3_delete_object_inv in Hdel
          as (Hc3 & [(e' & Hfault & Hr') | (Hfault & Hr' & Hb3)]);
        try discriminate.
      * assert (bucket w' = bucket w3 /\ calls w' = calls w3) as [Hb4 Hc4].
        { apply bind_inv in H as [(adj & w4 & Hl & H) | (e & Hl & ->)];
            unfold lift, ret in *; inversion Hl; subst; [by inversion H | done]. }
        rewrite Hc4, Hc3. split; [done|]. split; [done|].
        right; right. exists audio, result, bn. split; [done|]. split; [done|].
        right. split; [done|]. rewrite Hb4, Hb3. apply lookup_delete_eq.
      * rewrite Hc3. split; [done|]. split; [done|].
        right; right. exists audio, result, bn. split; [done|]. split; [done|].
        left. exists e. split; [|done]. inversion Hr'. by subst.
    + subst. exists []. rewrite app_nil_r. split; [done|]. split; [done|].
      left. split; [done|]. by eexists.
    + exists [CallTranscribe audio (language_argument env request)].
      rewrite Hc2, Hc1, <- app_assoc. split; [done|]. split; [done|].
      right; left. by exists audio, e.
  - exists []. rewrite app_nil_r. split; [done|]. split; [done|].
    left. split; [done|]. by eexists.
Qed.

Lemma pipeline_trace env request temp_path w r w' :
  pipeline env request temp_path w = (r, w') ->
  exists pre post,
    calls w' = calls w ++ pre ++ post /\ Forall setup_call pre /\
    ((post = [] /\ exists e, r = Raise e) \/
     (exists audio e,
        post = [CallTranscribe audio (language_argument env request)] /\
        transcribe env audio (language_argument env request) = Raise e /\
        r = Raise e) \/
     (exists audio result bucket_name,
        post = [CallTranscribe audio (language_argument env request);
                CallDelete bucket_name (filename request)] /\
        transcribe env audio (language_argument env request) = Return result /\
        ((exists e, delete_fault env (filename request) = Some e /\ r = Raise e) \/
         (delete_fault env (filename request) = None /\
          bucket w' !! filename request = None)))).
Proof.
  unfold pipeline. intros H.
  apply bind_inv in H as [(bn & w0 & Henv & H) | (e & Henv & ->)].
  2: { apply os_environ_world in Henv as ->. exists [], [].
       rewrite !app_nil_r. split; [done|]. split; [done|].
       left. split; [done|]. by eexists. }
  assert (is_Some (environ env !! "R2_BUCKET_NAME")) as Hbn.
  { unfold os_environ in Henv. destruct (environ env !! "R2_BUCKET_NAME"); [done|].
    discriminate. }
  apply os_environ_world in Henv as ->.
  apply bind_inv in H as [([] & w1 & Hdl & H) | (e & Hdl & ->)];
    apply s3_download_file_inv in Hdl as (Hc1 & _).
  2: { exists [CallDownload bn (filename request) temp_path], [].
       rewrite app_nil_r. split; [done|]. split; [by repeat constructor|].
       left. split; [done|]. by eexists. }
  apply bind_inv in H as [([] & w2 & Hdec & H) | (e & Hdec & ->)];
    apply decrypt_step_calls in Hdec as (_ & dec & Hc2 & Hdec).
  2: { exists (CallDownload bn (filename request) temp_path :: dec), [].
       rewrite app_nil_r, Hc2, Hc1, <- app_assoc. split; [done|].
       split; [by constructor|]. left. split; [done|]. by eexists. }
  apply (infer_and_respond_trace _ _ _ _ _ _ Hbn) in H
    as (pre & post & Hc3 & Hpre & Hcases).
  exists (CallDownload bn (filename request) temp_path :: dec ++ pre), post.
  split.
  - rewrite Hc3, Hc2, Hc1. rewrite <- ?app_assoc. cbn. by rewrite <- ?app_assoc.
  - split; [|done]. constructor; [done|]. by apply Forall_app.
Qed.

Lemma issued_of env request w r w' new :
  transcribe_audio env request w = (r, w') ->
  calls w' = calls w ++ new ->
  issued env request w = new.
Proof.
  intros H Hc. unfold issued. rewrite H. cbn. rewrite Hc. apply drop_app_length.
Qed.

Lemma run_trace env request w :
  exists pre post,
    issued env request w = pre ++ post /\ Forall setup_call pre /\
    (post = [] \/
     (exists audio e,
        post = [CallTranscribe audio (language_argument env request)] /\
        transcribe env audio (language_argument env request) = Raise e /\
        fst (transcribe_audio env request w) = Return generic_error) \/
     (exists audio result bucket_name,
        post = [CallTranscribe audio (language_argument env request);
                CallDelete bucket_name (filename request)] /\
        transcribe env audio (language_argument env request) = Return result /\
        ((exists e, delete_fault env (filename request) = Some e /\
                    fst (transcribe_audio env request w) = Return generic_error) \/
         (delete_fault env (filename request) = None /\
          bucket (snd (transcribe_audio env request w)) !! filename request = None)))).
Proof.
  assert (forall r w', transcribe_audio env request w = (r, w') ->
            calls w' = calls w ->
            exists pre post,
              issued env request w = pre ++ post /\ Forall setup_call pre /\
              (post = [] \/
               (exists audio e,
                  post = [CallTranscribe audio (language_argument env request)] /\
                  transcribe env audio (language_argument env request) = Raise e /\
                  fst (transcribe_audio env request w) = Return generic_error) \/
               (exists audio result bucket_name,
                  post = [CallTranscribe audio (language_argument env request);
                          CallDelete bucket_name (filename request)] /\
                  transcribe env audio (language_argument env request) = Return result /\
                  ((exists e, delete_fault env (filename request) = Some e /\
                              fst (transcribe_audio env request w) = Return generic_error) \/
                   (delete_fault env (filename request) = None /\
                    bucket (snd (transcribe_audio env request w)) !! filename request
                      = None))))) as Hquiet.
  { intros r w' H Hc. exists [], [].
    rewrite (issued_of _ _ _ _ _ [] H) by (by rewrite app_nil_r).
    split; [done|]. split; [done|]. by left. }
  destruct (transcribe_body env request w) as [r w3] eqn:Hbody.
  pose proof Hbody as Hb. unfold transcribe_body in Hb.
  destruct (truthy (filename request)); cbn [negb] in Hb.
  2: { inversion Hb; subst. eapply Hquiet; [|done].
       by apply transcribe_audio_Return. }
  apply bind_inv in Hb as [([] & w0 & Hcl & Hb) | (e & Hcl & ->)];
    apply boto3_client_world in Hcl as ->.
  2: { eapply Hquiet.
       - rewrite (transcribe_audio_Raise _ _ _ _ _ Hbody). apply on_exception_spec.
       - done. }
  apply bind_inv in Hb as [(temp_path & w1 & Htmp & Hb) | (e & Htmp & ->)];
    apply NamedTemporaryFile_inv in Htmp
      as [(e' & _ & He' & Hw) | (p & _ & Hp & _ & _ & _ & Hc1)]; try discriminate.
  2: { subst. eapply Hquiet.
       - rewrite (transcribe_audio_Raise _ _ _ _ _ Hbody). apply on_exception_spec.
       - done. }
  clear Hquiet.
  destruct (pipeline env request temp_path w1) as [r2 w2] eqn:Hpipe.
  destruct (try_finally_cleanup _ temp_path _ _ _ Hpipe) as (w3' & Hfin & _ & Hb3 & _ & Hc3).
  rewrite Hfin in Hb. inversion Hb; subst r2 w3'. clear Hb.
  apply pipeline_trace in Hpipe as (pre & post & Hc2 & Hpre & Hcases).
  exists pre, post.
  assert (calls w3 = calls w ++ pre ++ post) as Hc by (by rewrite Hc3, Hc2, Hc1).
  destruct r as [r|e].
  - pose proof (transcribe_audio_Return _ _ _ _ _ Hbody) as Hrun.
    rewrite (issued_of _ _ _ _ _ _ Hrun Hc), Hrun. cbn [fst snd].
    split; [done|]. split; [done|].
    destruct Hcases as [(Hp0 & _) | [(audio & e & _ & _ & ?) |
      (audio & result & bn & Hpost & Htr & [(e & _ & ?) | (Hdel & Hbk)])]];
      try discriminate.
    + by left.
    + right; right. exists audio, result, bn. split; [done|]. split; [done|].
      right. split; [done|]. by rewrite Hb3.
  - pose proof (transcribe_audio_Raise _ _ _ _ _ Hbody) as Hrun.
    rewrite on_exception_spec in Hrun.
    rewrite (issued_of _ _ _ _ _ _ Hrun Hc), Hrun. cbn [fst snd bucket].
    split; [done|]. split; [done|].
    destruct Hcases as [(Hp0 & _) | [(audio & e0 & Hpost & Htr & _) |
      (audio & result & bn & Hpost & Htr & [(e0 & Hdel & _) | (Hdel & Hbk)])]].
    + by left.
    + right; left. by exists audio, e0.
    + right; right. exists audio, result, bn. split; [done|]. split; [done|].
      left. by exists e0.
    + right; right. exists audio, result, bn. split; [done|]. split; [done|].
      right. split; [done|]. by rewrite Hb3.
Qed.

Lemma In_post (c : Call) pre post :
  Forall setup_call pre -> ~ setup_call c -> In c (pre ++ post) -> In c post.
Proof.
  intros Hpre Hc Hin. apply in_app_or in Hin as [Hin|Hin]; [|done].
  rewrite Forall_forall in Hpre. exfalso. apply Hc, Hpre. by apply list_elem_of_In.
Qed.

(** ** Running as far as the downloaded object *)

Lemma fetch_run env request w temp_path data :
  fetches env request w temp_path data ->
  exists bucket_name,
    environ env !! "R2_BUCKET_NAME" = Some bucket_name /\
    transcribe_body env request w =
      try_finally
        (bind (decrypt_step env (decryption_key request) (iv request) temp_path)
              (fun _ => infer_and_respond env request temp_path))
        (cleanup temp_path)
        {| fs := <[temp_path := data]> (fs w); bucket := bucket w;
           stdout := stdout w;
           calls := calls w ++ [CallDownload bucket_name (filename request) temp_path] |}.
Proof.
  intros (Hf & Hconf & Htmp & Hfault & Hobj).
  pose proof Hconf as (_ & [bn Hbn]). exists bn. split; [done|].
  unfold transcribe_body. apply truthy_nonempty in Hf. rewrite Hf. cbn [negb].
  rewrite (bind_Return _ _ _ _ _ (boto3_client_configured env w Hconf)).
  apply scratch_path_inv in Htmp as (stem & Hstem & ->).
  unfold NamedTemporaryFile, try_finally, pipeline, s3_download_file.
  unfold bind, lift, call, write_file, set_fs, ret, os_environ.
  rewrite Hstem, Hbn, Hfault. cbn. rewrite Hobj. cbn.
  by rewrite insert_insert_eq.
Qed.

Lemma after_fetch_Raise env request w temp_path data e w2 bucket_name :
  fetches env request w temp_path data ->
  environ env !! "R2_BUCKET_NAME" = Some bucket_name ->
  bind (decrypt_step env (decryption_key request) (iv request) temp_path)
       (fun _ => infer_and_respond env request temp_path)
       {| fs := <[temp_path := data]> (fs w); bucket := bucket w;
          stdout := stdout w;
          calls := calls w ++ [CallDownload bucket_name (filename request) temp_path] |}
    = (Raise e, w2) ->
  exists w3,
    transcribe_audio env request w = (Return generic_error, w3) /\
    calls w3 = calls w2 /\ bucket w3 = bucket w2 /\
    fs w3 = delete temp_path (fs w2).
Proof.
  intros Hfetch Hbn Hrest.
  destruct (fetch_run _ _ _ _ _ Hfetch) as (bn & Hbn' & Hbody).
  rewrite Hbn in Hbn'. inversion Hbn'; subst bn.
  destruct (try_finally_cleanup _ temp_path _ _ _ Hrest) as (w3 & Hfin & Hfs & Hb & _ & Hc).
  rewrite Hfin in Hbody.
  rewrite (transcribe_audio_Raise _ _ _ _ _ Hbody), on_exception_spec.
  eexists. split; [done|]. by cbn.
Qed.

(** ** Tampered and malformed input *)

Lemma flipped_buffer_rejected env encrypt K N P C T i k :
  library_contract encrypt env ->
  rejection_contract encrypt env ->
  encrypt K N P = Some (C, T) ->
  i < length (C ++ T) -> k < 8 ->
  let data := flip_bit_at i k (C ++ T) in
  exists e, aes_gcm_decrypt env K N (drop (length data - 16) data)
              (take (length data - 16) data) = Raise e.
Proof.
  intros Hc Hrej He Hi Hk data.
  pose proof (encrypt_tag_length _ _ Hc _ _ _ _ _ He) as HT.
  assert (length data - 16 = length C) as ->.
  { unfold data, flip_bit_at. rewrite length_alter, length_app. lia. }
  unfold data, flip_bit_at. rewrite length_app in Hi.
  destruct (decide (i < length C)) as [Hlt|Hge].
  - rewrite alter_app_l by done.
    rewrite drop_app_length', take_app_length' by (by rewrite length_alter).
    by eapply decrypt_flipped_ciphertext.
  - rewrite alter_app_r_alt by lia.
    rewrite drop_app_length, take_app_length.
    eapply decrypt_flipped_tag; [done..| |done]. lia.
Qed.

(** C7, as the code has it.  When decryption is attempted (both strings
    non-empty, which an encryption under the decoded key and nonce
    implies), the code hands the library the trailing 16 bytes as tag and
    the rest as ciphertext, so that a buffer with one bit flipped anywhere,
    a key that is not 16, 24 or 32 bytes long, and a buffer shorter than 16
    bytes are all refused by it; the exception ends the invocation with the
    generic ErrorResult, the model is never called and the scratch file is
    removed. *)
Theorem tampered_or_malformed_rejected
    env encrypt request w temp_path data key_b64 nonce_b64 K N :
  library_contract encrypt env ->
  rejection_contract encrypt env ->
  fetches env request w temp_path data ->
  decryption_key request = Some key_b64 ->
  iv request = Some nonce_b64 ->
  b64decode env key_b64 = Return K ->
  b64decode env nonce_b64 = Return N ->
  (exists P C T i k,
     encrypt K N P = Some (C, T) /\ i < length (C ++ T) /\ k < 8 /\
     data = flip_bit_at i k (C ++ T)) \/
  (key_b64 <> "" /\ nonce_b64 <> "" /\
   (~ valid_key_length K \/ length data < 16)) ->
  (exists e, aes_gcm_decrypt env K N (drop (length data - 16) data)
               (take (length data - 16) data) = Raise e) /\
  fst (transcribe_audio env request w) = Return generic_error /\
  (exists bucket_name,
     issued env request w =
       [CallDownload bucket_name (filename request) temp_path;
        CallDecrypt K N (drop (length data - 16) data)
          (take (length data - 16) data)]) /\
  (forall audio lang, ~ In (CallTranscribe audio lang) (issued env request w)) /\
  fs (snd (transcribe_audio env request w)) !! temp_path = None.
Proof.
  intros Hc Hrej Hfetch Hdk Hiv HK HN Hbad.
  assert (key_b64 <> "" /\ nonce_b64 <> "" /\
          exists e, aes_gcm_decrypt env K N (drop (length data - 16) data)
                      (take (length data - 16) data) = Raise e)
    as (Hk & Hn & e & Hlib).
  { destruct Hbad as [(P & C & T & i & k & He & Hi & Hk & ->) |
                      (Hk & Hn & [Hlen | Hshort])].
    - split; [|split].
      + eapply decoded_nonempty; [done..|].
        eapply valid_key_nonempty, encrypt_key_length; done.
      + eapply decoded_nonempty; [done..|]. eapply encrypt_nonce_nonempty; done.
      + by eapply flipped_buffer_rejected.
    - split; [done|]. split; [done|]. by eapply decrypt_key_length.
    - split; [done|]. split; [done|]. eapply decrypt_short_tag; [done|].
      rewrite length_drop. lia. }
  destruct (fetch_run _ _ _ _ _ Hfetch) as (bn & Hbn & _).
  set (w1 := {| fs := <[temp_path := data]> (fs w); bucket := bucket w;
                stdout := stdout w;
                calls := calls w ++ [CallDownload bn (filename request) temp_path] |}).
  assert (fs w1 !! temp_path = Some data) as Hfile by apply lookup_insert_eq.
  pose proof (decrypt_file_spec env _ _ _ _ _ _ _ Hfile HK HN) as Hdec.
  cbn zeta in Hdec. rewrite Hlib in Hdec.
  rewrite <- (decrypt_step_truthy _ _ _ _ Hk Hn), <- Hdk, <- Hiv in Hdec.
  destruct (after_fetch_Raise _ _ _ _ _ e _ bn Hfetch Hbn
              (bind_Raise _ _ _ _ _ Hdec)) as (w3 & Hrun & Hc3 & _ & Hfs3).
  assert (issued env request w =
            [CallDownload bn (filename request) temp_path;
             CallDecrypt K N (drop (length data - 16) data)
               (take (length data - 16) data)]) as Hissued.
  { eapply issued_of; [done|]. rewrite Hc3. cbn. by rewrite <- app_assoc. }
  split; [by exists e|]. rewrite Hrun. cbn [fst snd].
  split; [done|]. split; [by exists bn|]. split.
  - intros audio lang. rewrite Hissued. by intros [?|[?|[]]].
  - rewrite Hfs3. apply lookup_delete_eq.
Qed.

Lemma sample_configured : configured Reference.sample_env.
Proof. split; [reflexivity | by eexists]. Qed.

Lemma tampered_or_malformed_rejected_witness :
  fst (transcribe_audio Reference.sample_env
         (Reference.request_for "tampered.wav" "auto"
            (Some Reference.sample_key_b64) (Some Reference.sample_nonce_b64))
         Reference.sample_world) = Return generic_error /\
  forall audio lang,
    ~ In (CallTranscribe audio lang)
         (issued Reference.sample_env
            (Reference.request_for "tampered.wav" "auto"
               (Some Reference.sample_key_b64) (Some Reference.sample_nonce_b64))
            Reference.sample_world).
Proof.
  destruct (tampered_or_malformed_rejected Reference.sample_env Reference.seal
              (Reference.request_for "tampered.wav" "auto"
                 (Some Reference.sample_key_b64) (Some Reference.sample_nonce_b64))
              Reference.sample_world "/tmp/tmpq1.wav"
              (flip_bit_at 1 3 Reference.sample_sealed)
              Reference.sample_key_b64 Reference.sample_nonce_b64
              Reference.sample_key Reference.sample_nonce)
    as (_ & Hr & _ & Hno & _).
  - exact reference_contract.
  - exact reference_rejection.
  - split; [discriminate|]. split; [exact sample_configured|].
    split; [reflexivity|]. split; reflexivity.
  - reflexivity.
  - reflexivity.
  - reflexivity.
  - reflexivity.
  - left. exists Reference.sample_audio, [x53; x48; x47; x47], (replicate 16 x01), 1, 3.
    split; [reflexivity|]. split; [cbn; lia|]. split; [lia|]. reflexivity.
  - split; [exact Hr | exact Hno].
Defined.

(** C7 as stated fails for a key of invalid length: the empty string is
    the base64 form of the 0-byte key, yet with it the decrypt step is not
    attempted, the stored ciphertext goes to the model as it is and the
    caller gets a transcript. *)
Lemma empty_key_not_rejected :
  b64decode Reference.sample_env "" = Return [] /\
  ~ valid_key_length [] /\
  fst (transcribe_audio Reference.sample_env
         (Reference.request_for "sealed.wav" "auto" (Some "")
            (Some Reference.sample_nonce_b64))
         Reference.sample_world) =
    Return (transcript " hello world" Reference.sample_adjusted "en") /\
  issued Reference.sample_env
    (Reference.request_for "sealed.wav" "auto" (Some "")
       (Some Reference.sample_nonce_b64))
    Reference.sample_world =
    [CallDownload "audio" "sealed.wav" "/tmp/tmpq1.wav";
     CallLoadModel "base";
     CallTranscribe Reference.sample_sealed None;
     CallDelete "audio" "sealed.wav"].
Proof.
  split; [reflexivity|]. split.
  - unfold valid_key_length. cbn. lia.
  - split; vm_compute; reflexivity.
Qed.

(** ** Source-object deletion *)

(** C6 as stated fails: when the store refuses the delete, the transcript
    that inference produced is dropped and the caller gets the generic
    ErrorResult. *)
Lemma delete_error_fails_request :
  transcribe Reference.delete_failing_env Reference.sample_audio None =
    Return {| res_text := " hello world";
              res_segments := Reference.sample_segments;
              res_language := "en" |} /\
  issued Reference.delete_failing_env
    (Reference.request_for "clip.wav" "auto" None None) Reference.sample_world =
    [CallDownload "audio" "clip.wav" "/tmp/tmpq1.wav";
     CallLoadModel "base";
     CallTranscribe Reference.sample_audio None;
     CallDelete "audio" "clip.wav"] /\
  delete_fault Reference.delete_failing_env "clip.wav" =
    Some (LibraryError "ClientError" "Access Denied") /\
  fst (transcribe_audio Reference.delete_failing_env
         (Reference.request_for "clip.wav" "auto" None None)
         Reference.sample_world) = Return generic_error /\
  ~ is_TranscriptResult generic_error.
Proof.
  split; [reflexivity|]. split; [vm_compute; reflexivity|].
  split; [reflexivity|]. split; [vm_compute; reflexivity|].
  intros (t & s & l & H). discriminate.
Qed.

(** C6, as the code has it.  The delete of the source object is issued
    exactly when inference returned a result, for the requested key and
    after the transcribe call.  It is not best-effort: if the delete call
    raises, the invocation ends with the generic ErrorResult; if it does
    not, the object is gone from the bucket. *)
Theorem source_deleted_after_inference env request w :
  ((exists bucket_name key, In (CallDelete bucket_name key) (issued env request w)) <->
   (exists audio lang result,
      In (CallTranscribe audio lang) (issued env request w) /\
      transcribe env audio lang = Return result)) /\
  (forall bucket_name key,
     In (CallDelete bucket_name key) (issued env request w) ->
     key = filename request /\
     (forall e, delete_fault env key = Some e ->
        fst (transcribe_audio env request w) = Return generic_error) /\
     (delete_fault env key = None ->
        bucket (snd (transcribe_audio env request w)) !! key = None)).
Proof.
  destruct (run_trace env request w) as (pre & post & -> & Hpre & Hcases).
  assert (forall b k, ~ setup_call (CallDelete b k)) as Hd by (intros ? ? []).
  assert (forall a l, ~ setup_call (CallTranscribe a l)) as Ht by (intros ? ? []).
  split; [split|].
  - intros (b & k & Hin). apply (In_post _ _ _ Hpre (Hd b k)) in Hin.
    destruct Hcases as [-> | [(audio & e & -> & _) |
      (audio & result & bn & -> & Htr & _)]].
    + destruct Hin.
    + by destruct Hin as [?|[]].
    + exists audio, (language_argument env request), result. split; [|done].
      apply in_or_app. right. by left.
  - intros (audio & lang & result & Hin & Htr).
    apply (In_post _ _ _ Hpre (Ht audio lang)) in Hin.
    destruct Hcases as [-> | [(audio' & e & -> & Htr' & _) |
      (audio' & result' & bn & -> & _)]].
    + destruct Hin.
    + destruct Hin as [Heq|[]]. inversion Heq; subst. congruence.
    + exists bn, (filename request). apply in_or_app. right. right. by left.
  - intros b k Hin. apply (In_post _ _ _ Hpre (Hd b k)) in Hin.
    destruct Hcases as [-> | [(audio & e & -> & _) |
      (audio & result & bn & -> & Htr & Hdel)]].
    + destruct Hin.
    + by destruct Hin as [?|[]].
    + destruct Hin as [?|[Heq|[]]]; [discriminate|]. inversion Heq; subst.
      split; [done|].
      destruct Hdel as [(e & Hf & Hr) | (Hf & Hb)]; split; try done; congruence.
Qed.

Lemma source_deleted_after_inference_witness :
  bucket (snd (transcribe_audio Reference.sample_env
                 (Reference.request_for "clip.wav" "auto" None None)
                 Reference.sample_world)) !! "clip.wav" = None.
Proof.
  refine (proj2 (proj2 (proj2 (source_deleted_after_inference Reference.sample_env
                          (Reference.request_for "clip.wav" "auto" None None)
                          Reference.sample_world) "audio" "clip.wav" _)) _).
  - vm_compute. tauto.
  - reflexivity.
Defined.

Lemma transcribe_audio_calls env request w r w1 :
  transcribe_body env request w = (r, w1) ->
  calls (snd (transcribe_audio env request w)) = calls w1.
Proof.
  intros H. destruct r as [r|e].
  - by rewrite (transcribe_audio_Return _ _ _ _ _ H).
  - by rewrite (transcribe_audio_Raise _ _ _ _ _ H), on_exception_spec.
Qed.

Lemma infer_and_respond_transcribes env request temp_path data w r w' :
  fs w !! temp_path = Some data ->
  temp_path <> cache_file env (os_environ_get env "WHISPER_MODEL" "base") ->
  load_model env (os_environ_get env "WHISPER_MODEL" "base") = None ->
  infer_and_respond env request temp_path w = (r, w') ->
  exists more,
    calls w' = calls w ++
      [CallLoadModel (os_environ_get env "WHISPER_MODEL" "base");
       CallTranscribe data (language_argument env request)] ++ more.
Proof.
  intros Hfile Hne Hload. unfold infer_and_respond. rewrite model_transcribe_route.
  intros H.
  apply bind_inv in H as [([] & w1 & Hl & H) | (e & Hl & _)].
  2: { unfold whisper_load_model, bind, call, set_fs, raise, ret in Hl.
       cbn in Hl. rewrite Hload in Hl. discriminate. }
  apply whisper_load_model_inv in Hl as (Hc1 & _ & Hfs1).
  assert (fs w1 !! temp_path = Some data) as Hfile1.
  { rewrite Hfs1, lookup_partial_alter_ne; [done|]. congruence. }
  clear Hfs1.
  assert (forall o w2, model_transcribe env temp_path (language_argument env request) w1
                       = (o, w2) ->
            calls w2 = calls w ++
              [CallLoadModel (os_environ_get env "WHISPER_MODEL" "base");
               CallTranscribe data (language_argument env request)]) as Htr.
  { intros o w2 Hm.
    apply model_transcribe_inv in Hm as [(Hnone & _) | (audio & Hsome & _ & _ & _ & _ & Hc2)].
    - rewrite Hfile1 in Hnone. discriminate.
    - rewrite Hfile1 in Hsome. inversion Hsome; subst.
      rewrite Hc2, Hc1, <- app_assoc. done. }
  apply bind_inv in H as [(result & w2 & Hm & H) | (e & Hm & _)].
  2: { exists []. rewrite app_nil_r. by eapply Htr. }
  apply Htr in Hm as Hc2.
  apply bind_inv in H as [(bn & w3 & Henv & H) | (e & Henv & _)];
    apply os_environ_world in Henv as ->.
  2: { exists []. by rewrite app_nil_r. }
  apply bind_inv in H as [([] & w4 & Hdel & H) | (e & Hdel & _)];
    apply s3_delete_object_inv in Hdel as (Hc4 & _).
  2: { exists [CallDelete bn (filename request)]. rewrite Hc4, Hc2.
       by rewrite <- app_assoc. }
  exists [CallDelete bn (filename request)].
  assert (calls w' = calls w4) as ->.
  { apply bind_inv in H as [(adj & w5 & Hlift & H) | (e & Hlift & _)];
      unfold lift, ret in *; inversion Hlift; subst; [by inversion H | done]. }
  rewrite Hc4, Hc2. by rewrite <- app_assoc.
Qed.

(** ** Language routing *)

(** C8. Every call of model.transcribe made by an invocation has no language
    argument when the hint is the exact string "auto", and str.lower of the
    hint as its language otherwise, so that hint "EN" is passed as "en"; and
    the call is made, on the downloaded object, whenever the object is
    fetched, no decryption is requested and the model loads. *)
Theorem language_routing env request w :
  (forall audio lang,
     In (CallTranscribe audio lang) (issued env request w) ->
     (language request = "auto" -> lang = None) /\
     (language request <> "auto" -> lang = Some (str_lower env (language request))) /\
     (lower_contract env -> language request = "EN" -> lang = Some "en")) /\
  (forall temp_path data,
     fetches env request w temp_path data ->
     decryption_key request = None ->
     load_model env (os_environ_get env "WHISPER_MODEL" "base") = None ->
     In (CallTranscribe data (language_argument env request)) (issued env request w)).
Proof.
  split.
  - intros audio lang Hin.
    destruct (run_trace env request w) as (pre & post & Heq & Hpre & Hcases).
    rewrite Heq in Hin. apply (In_post _ _ _ Hpre) in Hin; [|intros []].
    assert (lang = language_argument env request) as ->.
    { destruct Hcases as [-> | [(a & e & -> & _) | (a & r & bn & -> & _)]].
      - destruct Hin.
      - destruct Hin as [Heq'|[]]. by inversion Heq'.
      - destruct Hin as [Heq'|[?|[]]]; [|discriminate]. by inversion Heq'. }
    unfold language_argument.
    destruct (String.eqb_spec (language request) "auto") as [Hauto|Hauto];
      split_and!; try congruence.
    intros Hlow Hen. rewrite Hen. by rewrite Hlow.
  - intros temp_path data Hfetch Hdk Hload.
    destruct (fetch_run _ _ _ _ _ Hfetch) as (bn & Hbn & Hbody).
    rewrite Hdk in Hbody. unfold decrypt_step in Hbody.
    set (w1 := {| fs := <[temp_path := data]> (fs w); bucket := bucket w;
                  stdout := stdout w;
                  calls := calls w ++ [CallDownload bn (filename request) temp_path] |})
      in Hbody.
    destruct (infer_and_respond env request temp_path w1) as [r w2] eqn:Hinf.
    destruct (infer_and_respond_transcribes env request temp_path data w1 r w2)
      as (more & Hc2); [apply lookup_insert_eq | | done | done |].
    { destruct Hfetch as (_ & _ & Htmp & _). by eapply scratch_is_not_cache. }
    assert (bind (ret ()) (fun _ => infer_and_respond env request temp_path) w1
            = (r, w2)) as Hrest by (by unfold bind, ret).
    destruct (try_finally_cleanup _ temp_path _ _ _ Hrest)
      as (w3 & Hfin & _ & _ & _ & Hc3).
    rewrite Hfin in Hbody.
    unfold issued. rewrite (transcribe_audio_calls _ _ _ _ _ Hbody), Hc3, Hc2.
    cbn [calls w1]. rewrite <- app_assoc, drop_app_length.
    cbn. right. right. by left.
Qed.

Lemma sample_lower_contract vars model fault :
  lower_contract (Reference.sample_env_for vars model fault).
Proof. by intros s _. Qed.

Lemma language_routing_witness :
  In (CallTranscribe Reference.sample_audio (Some "en"))
     (issued Reference.sample_env (Reference.request_for "clip.wav" "EN" None None)
        Reference.sample_world).
Proof.
  apply (proj2 (language_routing Reference.sample_env
                  (Reference.request_for "clip.wav" "EN" None None)
                  Reference.sample_world)
           "/tmp/tmpq1.wav" Reference.sample_audio).
  - split; [discriminate|]. split; [exact sample_configured|].
    split; [reflexivity|]. split; reflexivity.
  - reflexivity.
  - reflexivity.
Defined.

(** * The relational account and what follows from it *)

(** ** The relational account describes the runs of the function *)

Lemma cleanup_spec temp_path w :
  cleanup temp_path w = (Return tt, remove_file temp_path w).
Proof.
  unfold cleanup, bind, os_path_exists, os_unlink, set_fs, ret, remove_file.
  destruct (fs w !! temp_path) as [data|] eqn:Hp.
  - rewrite bool_decide_eq_true_2 by eauto. by rewrite Hp.
  - rewrite bool_decide_eq_false_2 by (intros [? ?]; done).
    rewrite delete_id by done. by destruct w.
Qed.

Lemma decrypt_step_requested env dk n temp_path :
  decrypt_step env dk n temp_path =
  match decryption_requested dk n with
  | Some (k, n') => decrypt_file env k n' temp_path
  | None => ret tt
  end.
Proof.
  unfold decrypt_step, decryption_requested.
  destruct dk as [k|], n as [n'|]; try done. by destruct (truthy k && truthy n').
Qed.

Lemma decrypt_ends_iff env dk n temp_path w r w' :
  decrypt_step env dk n temp_path w = (r, w') <->
  decrypt_ends env dk n temp_path w r w'.
Proof.
  rewrite decrypt_step_requested. split.
  - destruct (decryption_requested dk n) as [[k n']|] eqn:Hreq.
    + unfold decrypt_file, bind, read_file, lift, call, write_file, set_fs.
      destruct (fs w !! temp_path) as [data|] eqn:Hfile.
      2: { intros H; inversion H; subst. by eapply decrypt_no_file. }
      destruct (b64decode env k) as [K|e] eqn:HK.
      2: { intros H; inversion H; subst. by eapply decrypt_bad_key. }
      destruct (b64decode env n') as [N|e] eqn:HN.
      2: { intros H; inversion H; subst. by eapply decrypt_bad_nonce. }
      cbn. destruct (aes_gcm_decrypt env K N _ _) as [P|e] eqn:Hlib;
        intros H; inversion H; subst.
      * by eapply decrypt_done.
      * by eapply decrypt_rejected.
    + intros H; inversion H; subst. by constructor.
  - intros H. destruct H as [Hreq | k n' Hreq Hfile | k n' data e Hreq Hfile HK
      | k n' data K e Hreq Hfile HK HN | k n' data K N e Hreq Hfile HK HN Hlib
      | k n' data K N P Hreq Hfile HK HN Hlib]; rewrite Hreq; try done;
      unfold decrypt_file, bind, read_file, lift, call, write_file, set_fs;
      rewrite Hfile; try done; rewrite HK; try done; rewrite HN; try done;
      cbn; by rewrite Hlib.
Qed.

Ltac same_world :=
  unfold add_calls, put_file, remove_file, drop_object, add_lines, cache_model,
    cache_file; cbn;
  rewrite <- ?app_assoc; reflexivity.

Lemma infer_ends_sound env request temp_path bucket_name w r w' :
  environ env !! "R2_BUCKET_NAME" = Some bucket_name ->
  infer_ends env request temp_path bucket_name w r w' ->
  infer_and_respond env request temp_path w = (r, w').
Proof.
  intros Hbn H. unfold infer_and_respond. rewrite model_transcribe_route.
  unfold whisper_load_model, model_transcribe, s3_delete_object, os_environ.
  unfold bind, call, raise, ret, read_file, lift, set_bucket, set_fs.
  cbn.
  destruct H as [e Hl | Hl Hf | audio e Hl Hf Ht | audio result e Hl Hf Ht Hd
    | audio result e Hl Hf Ht Hd Ha | audio result adjusted Hl Hf Ht Hd Ha];
    unfold cache_model, cache_file, model_name in *; cbn in *;
    rewrite Hl; cbn; try same_world;
    rewrite Hf; cbn; try same_world;
    rewrite Ht; cbn; try same_world;
    rewrite Hbn; cbn; rewrite Hd; cbn; try same_world;
    rewrite Ha; cbn; same_world.
Qed.

Lemma infer_ends_total env request temp_path bucket_name w :
  exists r w', infer_ends env request temp_path bucket_name w r w'.
Proof.
  destruct (load_model env (model_name env)) as [e|] eqn:Hl.
  { eexists _, _. by eapply load_failed. }
  destruct (fs (cache_model env w) !! temp_path) as [audio|] eqn:Hf.
  2: { eexists _, _. by eapply audio_missing. }
  destruct (transcribe env audio (language_argument env request)) as [result|e] eqn:Ht.
  2: { eexists _, _. by eapply transcribe_failed. }
  destruct (delete_fault env (filename request)) as [e|] eqn:Hd.
  { eexists _, _. by eapply delete_failed. }
  destruct (adjust_segments (res_segments result)) as [adjusted|e] eqn:Ha.
  - eexists _, _. by eapply responded.
  - eexists _, _. by eapply adjust_failed.
Qed.

Lemma infer_ends_iff env request temp_path bucket_name w r w' :
  environ env !! "R2_BUCKET_NAME" = Some bucket_name ->
  infer_and_respond env request temp_path w = (r, w') <->
  infer_ends env request temp_path bucket_name w r w'.
Proof.
  intros Hbn. split; [|by apply infer_ends_sound].
  intros Hrun.
  destruct (infer_ends_total env request temp_path bucket_name w) as (r0 & w0 & H).
  pose proof (infer_ends_sound _ _ _ _ _ _ _ Hbn H) as Hrun0.
  rewrite Hrun in Hrun0. by inversion Hrun0; subst.
Qed.

Lemma pipeline_ends_sound env request temp_path w r w' :
  pipeline_ends env request temp_path w r w' ->
  pipeline env request temp_path w = (r, w').
Proof.
  intros H. unfold pipeline.
  destruct H as [Hbn | bn e Hbn Hfault | bn Hbn Hfault Hobj
    | bn data e w2 Hbn Hfault Hobj Hdec | bn data w2 r w3 Hbn Hfault Hobj Hdec Hinf].
  - unfold bind, os_environ. by rewrite Hbn.
  - rewrite (bind_Return _ _ _ _ _ (os_environ_Some env _ bn w Hbn)).
    unfold s3_download_file, bind, call, raise. cbn. by rewrite Hfault.
  - rewrite (bind_Return _ _ _ _ _ (os_environ_Some env _ bn w Hbn)).
    unfold s3_download_file, bind, call, raise. cbn. rewrite Hfault. cbn.
    by rewrite Hobj.
  - rewrite (bind_Return _ _ _ _ _ (os_environ_Some env _ bn w Hbn)).
    apply decrypt_ends_iff in Hdec.
    unfold s3_download_file, bind, call, raise, write_file, set_fs. cbn.
    rewrite Hfault. cbn. rewrite Hobj. unfold put_file, add_calls in Hdec.
    cbn in Hdec. by rewrite Hdec.
  - rewrite (bind_Return _ _ _ _ _ (os_environ_Some env _ bn w Hbn)).
    apply decrypt_ends_iff in Hdec. apply (infer_ends_sound _ _ _ _ _ _ _ Hbn) in Hinf.
    unfold s3_download_file, bind, call, raise, write_file, set_fs. cbn.
    rewrite Hfault. cbn. rewrite Hobj. unfold put_file, add_calls in Hdec.
    cbn in Hdec. by rewrite Hdec.
Qed.

Lemma pipeline_ends_total env request temp_path w :
  exists r w', pipeline_ends env request temp_path w r w'.
Proof.
  destruct (environ env !! "R2_BUCKET_NAME") as [bn|] eqn:Hbn.
  2: { eexists _, _. by eapply no_bucket_name. }
  destruct (download_fault env (filename request)) as [e|] eqn:Hfault.
  { eexists _, _. by eapply download_interrupted. }
  destruct (bucket w !! filename request) as [data|] eqn:Hobj.
  2: { eexists _, _. by eapply object_missing. }
  destruct (decrypt_step env (decryption_key request) (iv request) temp_path
              (put_file temp_path data
                 (add_calls [CallDownload bn (filename request) temp_path] w)))
    as [[[]|e] w2] eqn:Hdec; apply decrypt_ends_iff in Hdec.
  - destruct (infer_ends_total env request temp_path bn w2) as (r & w3 & Hinf).
    eexists _, _. by eapply inferred.
  - eexists _, _. by eapply decrypt_failed.
Qed.

Lemma pipeline_ends_iff env request temp_path w r w' :
  pipeline env request temp_path w = (r, w') <->
  pipeline_ends env request temp_path w r w'.
Proof.
  split; [|by apply pipeline_ends_sound].
  intros Hrun.
  destruct (pipeline_ends_total env request temp_path w) as (r0 & w0 & H).
  pose proof (pipeline_ends_sound _ _ _ _ _ _ H) as Hrun0.
  rewrite Hrun in Hrun0. by inversion Hrun0; subst.
Qed.

Lemma NamedTemporaryFile_spec env w :
  NamedTemporaryFile env w =
  match scratch_path env with
  | Return temp_path => (Return temp_path, put_file temp_path [] w)
  | Raise e => (Raise e, w)
  end.
Proof.
  unfold NamedTemporaryFile, scratch_path, bind, lift, write_file, set_fs, ret.
  by destruct (mkstemp env).
Qed.

Lemma on_exception_log env e w :
  on_exception env e w = (Return generic_error, add_lines (log_lines env e) w).
Proof. by rewrite on_exception_spec. Qed.

Lemma transcribe_body_created env request w temp_path :
  filename request <> "" ->
  client_error env = None ->
  scratch_path env = Return temp_path ->
  transcribe_body env request w =
    try_finally (pipeline env request temp_path) (cleanup temp_path)
      (put_file temp_path [] w).
Proof.
  intros Hf Hvars Htmp. unfold transcribe_body.
  apply truthy_nonempty in Hf. rewrite Hf. cbn [negb].
  unfold bind at 1. rewrite boto3_client_spec, Hvars.
  unfold bind. by rewrite NamedTemporaryFile_spec, Htmp.
Qed.

Lemma raised_inside_sound env request w e w1 :
  filename request <> "" ->
  raised_inside env request w e w1 ->
  transcribe_body env request w = (Raise e, w1).
Proof.
  intros Hf H.
  destruct H as [e Hvars | e Hvars Htmp | temp_path e w2 Hvars Htmp Hp].
  - unfold transcribe_body. apply truthy_nonempty in Hf. rewrite Hf. cbn [negb].
    unfold bind. by rewrite boto3_client_spec, Hvars.
  - unfold transcribe_body. apply truthy_nonempty in Hf. rewrite Hf. cbn [negb].
    unfold bind at 1. rewrite boto3_client_spec, Hvars.
    unfold bind. by rewrite NamedTemporaryFile_spec, Htmp.
  - rewrite (transcribe_body_created _ _ _ _ Hf Hvars Htmp).
    apply pipeline_ends_sound in Hp. unfold try_finally.
    by rewrite Hp, cleanup_spec.
Qed.

Lemma run_ends_sound env request w r w' :
  run_ends env request w r w' ->
  transcribe_audio env request w = (Return r, w').
Proof.
  intros H.
  destruct H as [Hf | e Hf Hvars | e Hf Hvars Htmp
    | temp_path r w2 Hf Hvars Htmp Hp | temp_path e w2 Hf Hvars Htmp Hp].
  - apply transcribe_audio_Return. unfold transcribe_body.
    apply truthy_empty in Hf. by rewrite Hf.
  - rewrite <- on_exception_log. apply transcribe_audio_Raise.
    apply raised_inside_sound; [done|]. by apply raised_by_client.
  - rewrite <- on_exception_log. apply transcribe_audio_Raise.
    apply raised_inside_sound; [done|]. by apply raised_by_tempfile.
  - apply transcribe_audio_Return.
    rewrite (transcribe_body_created _ _ _ _ Hf Hvars Htmp).
    apply pipeline_ends_sound in Hp. unfold try_finally.
    by rewrite Hp, cleanup_spec.
  - rewrite <- on_exception_log. apply transcribe_audio_Raise.
    apply raised_inside_sound; [done|]. by eapply raised_by_pipeline.
Qed.

Lemma run_ends_total env request w :
  exists r w', run_ends env request w r w'.
Proof.
  destruct (decide (filename request = "")) as [Hf|Hf].
  { eexists _, _. by eapply rejected_empty_filename. }
  destruct (client_error env) as [e|] eqn:Hvars.
  { eexists _, _. by eapply client_failed. }
  destruct (scratch_path env) as [temp_path|e] eqn:Htmp.
  2: { eexists _, _. by eapply tempfile_failed. }
  destruct (pipeline_ends_total env request temp_path (put_file temp_path [] w))
    as ([r|e] & w2 & Hp).
  - eexists _, _. by eapply pipeline_returned.
  - eexists _, _. by eapply pipeline_raised.
Qed.

Lemma run_ends_iff env request w r w' :
  transcribe_audio env request w = (Return r, w') <->
  run_ends env request w r w'.
Proof.
  split; [|by apply run_ends_sound].
  intros Hrun.
  destruct (run_ends_total env request w) as (r0 & w0 & H).
  pose proof (run_ends_sound _ _ _ _ _ H) as Hrun0.
  rewrite Hrun in Hrun0. by inversion Hrun0; subst.
Qed.

Lemma raised_inside_complete env request w e w1 :
  transcribe_body env request w = (Raise e, w1) ->
  filename request <> "" /\ raised_inside env request w e w1.
Proof.
  intros H.
  destruct (decide (filename request = "")) as [Hf|Hf].
  { unfold transcribe_body in H. apply truthy_empty in Hf. rewrite Hf in H.
    discriminate. }
  split; [done|].
  assert (forall e0 w0, raised_inside env request w e0 w0 ->
            raised_inside env request w e w1) as Hsame.
  { intros e0 w0 H0. pose proof (raised_inside_sound _ _ _ _ _ Hf H0) as Hrun.
    rewrite H in Hrun. by inversion Hrun; subst. }
  destruct (client_error env) as [e0|] eqn:Hvars.
  { eapply Hsame. by apply raised_by_client. }
  destruct (scratch_path env) as [temp_path|e0] eqn:Htmp.
  2: { eapply Hsame. by apply raised_by_tempfile. }
  destruct (pipeline_ends_total env request temp_path (put_file temp_path [] w))
    as ([r|e0] & w2 & Hp).
  - rewrite (transcribe_body_created _ _ _ _ Hf Hvars Htmp) in H.
    apply pipeline_ends_sound in Hp. unfold try_finally in H.
    rewrite Hp, cleanup_spec in H. discriminate.
  - eapply Hsame. by eapply raised_by_pipeline.
Qed.

(** ** Error containment *)

(** C5. An exception raised by any step inside the outer try -- building
    the store client, creating the temporary file, reading R2_BUCKET_NAME,
    the download, the decrypt step (reading the file, base64, the library),
    loading the model, reading or transcribing the audio, the delete, the
    adjustment of a segment -- reaches the except clause: the caller gets
    the fixed response [generic_error], which mentions neither the exception
    nor the environment nor the world, and the message of the exception and
    its traceback go to standard output only.  These steps are the only
    places where the body of the outer try raises. *)
Theorem exceptions_contained env request w :
  (forall e w1,
     filename request <> "" ->
     raised_inside env request w e w1 ->
     transcribe_audio env request w =
       (Return generic_error,
        {| fs := fs w1; bucket := bucket w1;
           stdout := stdout w1 ++ [("Transcription error: " ++ str_exn e)%string;
                                   ("Traceback: " ++ format_exc env e)%string];
           calls := calls w1 |})) /\
  (forall e w1,
     transcribe_body env request w = (Raise e, w1) ->
     filename request <> "" /\ raised_inside env request w e w1).
Proof.
  split.
  - intros e w1 Hf H.
    rewrite (transcribe_audio_Raise _ _ _ _ _ (raised_inside_sound _ _ _ _ _ Hf H)).
    apply on_exception_spec.
  - apply raised_inside_complete.
Qed.

Lemma exceptions_contained_witness :
  transcribe_audio Reference.sample_env
    (Reference.request_for "nope.wav" "auto" None None) Reference.sample_world =
  (Return generic_error,
   {| fs := ∅; bucket := bucket Reference.sample_world;
      stdout := ["Transcription error: An error occurred (404) when calling the HeadObject operation: Not Found";
                 ("Traceback: " ++
                  format_exc Reference.sample_env
                    (missing_object Reference.sample_env "nope.wav"))%string];
      calls := [CallDownload "audio" "nope.wav" "/tmp/tmpq1.wav"] |}).
Proof.
  apply (proj1 (exceptions_contained Reference.sample_env
                  (Reference.request_for "nope.wav" "auto" None None)
                  Reference.sample_world)
           (missing_object Reference.sample_env "nope.wav")
           {| fs := ∅; bucket := bucket Reference.sample_world; stdout := [];
              calls := [CallDownload "audio" "nope.wav" "/tmp/tmpq1.wav"] |}).
  - discriminate.
  - exact (raised_by_pipeline Reference.sample_env
             (Reference.request_for "nope.wav" "auto" None None)
             Reference.sample_world "/tmp/tmpq1.wav" _ _ eq_refl eq_refl
             (object_missing Reference.sample_env
                (Reference.request_for "nope.wav" "auto" None None)
                "/tmp/tmpq1.wav"
                (put_file "/tmp/tmpq1.wav" [] Reference.sample_world)
                "audio" eq_refl eq_refl eq_refl)).
Defined.

Lemma pipeline_Return_transcript env request temp_path w r w' :
  pipeline_ends env request temp_path w (Return r) w' -> is_TranscriptResult r.
Proof.
  intros H. inversion H as [| | | | bn data w2 r' w3 _ _ _ _ Hinf]; subst.
  inversion Hinf; subst. by eexists _, _, _.
Qed.

(** ** Validation and configuration *)

(** X1. The response is the validation dict exactly when the filename is
    empty, and then nothing at all has happened: no variable was read, no
    file created, no call made, nothing printed. *)
Theorem validation_only_for_empty_filename env request w :
  (fst (transcribe_audio env request w) = Return validation_error <->
   filename request = "") /\
  (filename request = "" ->
   transcribe_audio env request w = (Return validation_error, w)).
Proof.
  assert (filename request = "" ->
          transcribe_audio env request w = (Return validation_error, w)) as Hempty.
  { intros Hf. by apply run_ends_sound, rejected_empty_filename. }
  split; [|done]. split; [|by intros Hf; rewrite (Hempty Hf)].
  destruct (run_ends_total env request w) as (r & w' & H).
  rewrite (run_ends_sound _ _ _ _ _ H). cbn. intros Hr. inversion Hr; subst.
  inversion H as [| | | temp_path r' w2 _ _ _ Hp |]; subst; try done.
  apply pipeline_Return_transcript in Hp as (t & sg & l & Ht). discriminate.
Qed.

(** X2. With a filename but one of the three client variables unset, the
    invocation ends with the generic ErrorResult before anything else
    happens: local storage, the bucket and the call log are as before, and
    the log names the first unset variable, in the order the code reads
    them. *)
Theorem missing_client_variable env request w name :
  filename request <> "" ->
  first_missing (environ env) client_variables = Some name ->
  transcribe_audio env request w =
    (Return generic_error,
     {| fs := fs w; bucket := bucket w;
        stdout := stdout w ++ [("Transcription error: '" ++ name ++ "'")%string;
                               ("Traceback: " ++ format_exc env (KeyError name))%string];
        calls := calls w |}).
Proof.
  intros Hf Hvars. apply first_missing_client_error in Hvars.
  apply run_ends_sound. exact (client_failed env request w (KeyError name) Hf Hvars).
Qed.

Lemma missing_client_variable_witness :
  transcribe_audio
    (Reference.sample_env_with {["CLOUDFLARE_ACCOUNT_ID" := "acct"]}
       Reference.sample_transcribe)
    (Reference.request_for "clip.wav" "auto" None None) Reference.sample_world =
  (Return generic_error,
   {| fs := ∅; bucket := bucket Reference.sample_world;
      stdout := [] ++ ["Transcription error: 'R2_ACCESS_KEY_ID'";
                 "Traceback: Traceback (most recent call last): 'R2_ACCESS_KEY_ID'"];
      calls := [] |}).
Proof.
  apply (missing_client_variable
           (Reference.sample_env_with {["CLOUDFLARE_ACCOUNT_ID" := "acct"]}
              Reference.sample_transcribe)
           (Reference.request_for "clip.wav" "auto" None None)
           Reference.sample_world "R2_ACCESS_KEY_ID").
  - discriminate.
  - reflexivity.
Defined.

(** X21. The same holds when the three variables are set but boto3.client
    itself raises, as it does for an endpoint URL it cannot use (an empty
    account id, for one): the invocation ends with the generic ErrorResult
    before anything else happens, and the log carries the exception of the
    library. *)
Theorem client_not_built env request w account_id access_key_id secret_access_key e :
  filename request <> "" ->
  environ env !! "CLOUDFLARE_ACCOUNT_ID" = Some account_id ->
  environ env !! "R2_ACCESS_KEY_ID" = Some access_key_id ->
  environ env !! "R2_SECRET_ACCESS_KEY" = Some secret_access_key ->
  client_fault env ("https://" ++ account_id ++ ".r2.cloudflarestorage.com")%string
    access_key_id secret_access_key = Some e ->
  transcribe_audio env request w =
    (Return generic_error,
     {| fs := fs w; bucket := bucket w;
        stdout := stdout w ++ [("Transcription error: " ++ str_exn e)%string;
                               ("Traceback: " ++ format_exc env e)%string];
        calls := calls w |}).
Proof.
  intros Hf Ha Hk Hs He. apply run_ends_sound.
  apply (client_failed env request w e Hf).
  unfold client_error. cbn. by rewrite Ha, Hk, Hs.
Qed.

Lemma client_not_built_witness :
  transcribe_audio
    (Reference.sample_env_with
       (list_to_map [("CLOUDFLARE_ACCOUNT_ID", ""); ("R2_ACCESS_KEY_ID", "id");
                     ("R2_SECRET_ACCESS_KEY", "secret"); ("R2_BUCKET_NAME", "audio")])
       Reference.sample_transcribe)
    (Reference.request_for "clip.wav" "auto" None None) Reference.sample_world =
  (Return generic_error,
   {| fs := ∅; bucket := bucket Reference.sample_world;
      stdout := [] ++
        ["Transcription error: Invalid endpoint: https://.r2.cloudflarestorage.com";
         ("Traceback: " ++
          Reference.sample_format_exc
            (LibraryError "ValueError"
               "Invalid endpoint: https://.r2.cloudflarestorage.com"))%string];
      calls := [] |}).
Proof.
  apply (client_not_built
           (Reference.sample_env_with
              (list_to_map [("CLOUDFLARE_ACCOUNT_ID", ""); ("R2_ACCESS_KEY_ID", "id");
                            ("R2_SECRET_ACCESS_KEY", "secret");
                            ("R2_BUCKET_NAME", "audio")])
              Reference.sample_transcribe)
           (Reference.request_for "clip.wav" "auto" None None)
           Reference.sample_world "" "id" "secret"
           (LibraryError "ValueError"
              "Invalid endpoint: https://.r2.cloudflarestorage.com")).
  - discriminate.
  - reflexivity.
  - reflexivity.
  - reflexivity.
  - reflexivity.
Defined.

(** X3. With the store client built (its three variables set and accepted
    by boto3.client) but R2_BUCKET_NAME unset, the scratch file is created
    and removed again, the download is never issued (the KeyError comes from
    evaluating its first argument), and the caller gets the generic
    ErrorResult. *)
Theorem missing_bucket_name env request w temp_path :
  filename request <> "" ->
  client_error env = None ->
  scratch_path env = Return temp_path ->
  environ env !! "R2_BUCKET_NAME" = None ->
  transcribe_audio env request w =
    (Return generic_error,
     {| fs := delete temp_path (fs w); bucket := bucket w;
        stdout := stdout w ++ ["Transcription error: 'R2_BUCKET_NAME'";
                               ("Traceback: " ++
                                format_exc env (KeyError "R2_BUCKET_NAME"))%string];
        calls := calls w |}) /\
  issued env request w = [].
Proof.
  intros Hf Hvars Htmp Hbn.
  assert (transcribe_audio env request w =
            (Return generic_error,
             {| fs := delete temp_path (fs w); bucket := bucket w;
                stdout := stdout w ++ ["Transcription error: 'R2_BUCKET_NAME'";
                                       ("Traceback: " ++
                                        format_exc env (KeyError "R2_BUCKET_NAME"))%string];
                calls := calls w |})) as Hrun.
  { rewrite (run_ends_sound _ _ _ _ _
               (pipeline_raised _ _ _ temp_path _ _ Hf Hvars Htmp
                  (no_bucket_name _ _ _ _ Hbn))).
    unfold add_lines, remove_file, put_file, log_lines. cbn.
    by rewrite delete_insert_eq. }
  split; [done|]. eapply issued_of; [done|]. cbn. by rewrite app_nil_r.
Qed.

Lemma missing_bucket_name_witness :
  issued
    (Reference.sample_env_with
       (list_to_map [("CLOUDFLARE_ACCOUNT_ID", "acct"); ("R2_ACCESS_KEY_ID", "id");
                     ("R2_SECRET_ACCESS_KEY", "secret")])
       Reference.sample_transcribe)
    (Reference.request_for "clip.wav" "auto" None None) Reference.sample_world = [].
Proof.
  refine (proj2 (missing_bucket_name
            (Reference.sample_env_with
               (list_to_map [("CLOUDFLARE_ACCOUNT_ID", "acct");
                             ("R2_ACCESS_KEY_ID", "id");
                             ("R2_SECRET_ACCESS_KEY", "secret")])
               Reference.sample_transcribe)
            (Reference.request_for "clip.wav" "auto" None None)
            Reference.sample_world "/tmp/tmpq1.wav" _ _ _ _)).
  - discriminate.
  - reflexivity.
  - reflexivity.
  - reflexivity.
Defined.

(** ** What an invocation may change *)

Lemma decrypt_ends_effect env dk n temp_path w r w' :
  decrypt_ends env dk n temp_path w r w' ->
  bucket w' = bucket w /\ stdout w' = stdout w /\
  (forall path, path <> temp_path -> fs w' !! path = fs w !! path) /\
  exists dec,
    calls w' = calls w ++ dec /\
    (dec = [] \/ exists K N T C, dec = [CallDecrypt K N T C]) /\
    (decryption_requested dk n = None -> dec = []).
Proof.
  intros H.
  destruct H as [Hreq | k n' Hreq Hfile | k n' data e Hreq Hfile HK
    | k n' data K e Hreq Hfile HK HN | k n' data K N e Hreq Hfile HK HN Hlib
    | k n' data K N P Hreq Hfile HK HN Hlib]; cbn; split_and!; try done.
  all: try (exists []; rewrite app_nil_r; split_and!; by eauto).
  - eexists. split; [done|]. split; [right; by eexists _, _, _, _|].
    by rewrite Hreq.
  - intros path Hne. by rewrite lookup_insert_ne.
  - eexists. split; [done|]. split; [right; by eexists _, _, _, _|].
    by rewrite Hreq.
Qed.

Lemma infer_ends_effect env request temp_path bucket_name w r w' :
  infer_ends env request temp_path bucket_name w r w' ->
  fs w' = fs (cache_model env w) /\ stdout w' = stdout w /\
  exists audio l,
    calls w' = calls w ++ l /\
    l `prefix_of` [CallLoadModel (model_name env);
                   CallTranscribe audio (language_argument env request);
                   CallDelete bucket_name (filename request)] /\
    (In (CallTranscribe audio (language_argument env request)) l ->
     fs (cache_model env w) !! temp_path = Some audio) /\
    ((bucket w' = bucket w /\
      (In (CallDelete bucket_name (filename request)) l ->
       is_Some (delete_fault env (filename request)))) \/
     (bucket w' = delete (filename request) (bucket w) /\
      delete_fault env (filename request) = None /\
      In (CallDelete bucket_name (filename request)) l)).
Proof.
  intros H.
  destruct H as [e Hl | Hl Hf | audio e Hl Hf Ht | audio result e Hl Hf Ht Hd
    | audio result e Hl Hf Ht Hd Ha | audio result adjusted Hl Hf Ht Hd Ha];
    cbn; split_and!; try done.
  - exists [], [CallLoadModel (model_name env)]. split_and!; try done.
    + by eexists.
    + by intros [?|[]].
    + left. split; [done|]. by intros [?|[]].
  - exists [], [CallLoadModel (model_name env)]. split_and!; try done.
    + by eexists.
    + by intros [?|[]].
    + left. split; [done|]. by intros [?|[]].
  - exists audio, [CallLoadModel (model_name env);
                   CallTranscribe audio (language_argument env request)].
    split_and!; try done.
    + by eexists.
    + left. split; [done|]. by intros [?|[?|[]]].
  - exists audio, [CallLoadModel (model_name env);
                   CallTranscribe audio (language_argument env request);
                   CallDelete bucket_name (filename request)].
    split_and!; try done. left. split; [done|]. intros _. by rewrite Hd.
  - exists audio, [CallLoadModel (model_name env);
                   CallTranscribe audio (language_argument env request);
                   CallDelete bucket_name (filename request)].
    split_and!; try done. right. split_and!; try done. right. right. by left.
  - exists audio, [CallLoadModel (model_name env);
                   CallTranscribe audio (language_argument env request);
                   CallDelete bucket_name (filename request)].
    split_and!; try done. right. split_and!; try done. right. right. by left.
Qed.

Lemma pipeline_ends_effect env request temp_path w r w' :
  pipeline_ends env request temp_path w r w' ->
  stdout w' = stdout w /\
  (forall path, path <> temp_path -> path <> cache_file env (model_name env) ->
     fs w' !! path = fs w !! path) /\
  exists bucket_name dec audio l,
    calls w' = calls w ++ l /\
    (l <> [] -> environ env !! "R2_BUCKET_NAME" = Some bucket_name) /\
    l `prefix_of` (CallDownload bucket_name (filename request) temp_path :: dec ++
                     [CallLoadModel (model_name env);
                      CallTranscribe audio (language_argument env request);
                      CallDelete bucket_name (filename request)]) /\
    (dec = [] \/ exists K N T C, dec = [CallDecrypt K N T C]) /\
    (decryption_requested (decryption_key request) (iv request) = None -> dec = []) /\
    ((bucket w' = bucket w /\
      (In (CallDelete bucket_name (filename request)) l ->
       is_Some (delete_fault env (filename request)))) \/
     (bucket w' = delete (filename request) (bucket w) /\
      delete_fault env (filename request) = None /\
      In (CallDelete bucket_name (filename request)) l)).
Proof.
  intros H.
  destruct H as [Hbn | bn e Hbn Hfault | bn Hbn Hfault Hobj
    | bn data e w2 Hbn Hfault Hobj Hdec | bn data w2 r w3 Hbn Hfault Hobj Hdec Hinf].
  - split; [done|]. split; [done|]. exists "", [], [], [].
    rewrite app_nil_r. split_and!; try done; [apply prefix_nil | by left |].
    left. split; [done|]. by intros [].
  - cbn. split; [done|]. split; [done|].
    exists bn, [], [], [CallDownload bn (filename request) temp_path].
    split_and!; try done; [by eexists | by left |].
    left. split; [done|]. by intros [?|[]].
  - cbn. split; [done|]. split; [done|].
    exists bn, [], [], [CallDownload bn (filename request) temp_path].
    split_and!; try done; [by eexists | by left |].
    left. split; [done|]. by intros [?|[]].
  - apply decrypt_ends_effect in Hdec as (Hb & Hs & Hfs & dec & Hc & Hshape & Hnone).
    cbn in Hb, Hs, Hfs, Hc. split; [done|]. split.
    { intros path Hne _. rewrite Hfs by done. by apply lookup_insert_ne. }
    exists bn, dec, [], (CallDownload bn (filename request) temp_path :: dec).
    split_and!; try done.
    + rewrite Hc, <- app_assoc. done.
    + apply prefix_cons, prefix_app_r. done.
    + left. split; [done|]. intros [?|Hin]; [done|].
      destruct Hshape as [-> | (K & N & T & C & ->)]; [done|].
      by destruct Hin as [?|[]].
  - apply decrypt_ends_effect in Hdec as (Hb & Hs & Hfs & dec & Hc & Hshape & Hnone).
    apply infer_ends_effect in Hinf
      as (Hfs3 & Hs3 & audio & l & Hc3 & Hpre & _ & Hbucket).
    cbn in Hb, Hs, Hfs, Hc. split; [congruence|]. split.
    { intros path Hne Hcache. rewrite Hfs3. cbn.
      rewrite lookup_partial_alter_ne by done.
      rewrite Hfs by done. by apply lookup_insert_ne. }
    exists bn, dec, audio, (CallDownload bn (filename request) temp_path :: dec ++ l).
    split_and!; try done.
    + rewrite Hc3, Hc, <- !app_assoc. done.
    + apply prefix_cons, prefix_app. done.
    + destruct Hbucket as [(Hb3 & Hdel) | (Hb3 & Hdel & Hin)].
      * left. split; [congruence|]. intros [?|Hin]; [done|].
        apply in_app_or in Hin as [Hin|Hin]; [|by apply Hdel].
        destruct Hshape as [-> | (K & N & T & C & ->)]; [done|].
        by destruct Hin as [?|[]].
      * right. split; [congruence|]. split; [done|].
        right. apply in_or_app. by right.
Qed.

Lemma run_ends_issued env request w r w' l :
  run_ends env request w r w' ->
  calls w' = calls w ++ l ->
  issued env request w = l.
Proof.
  intros H Hc. eapply issued_of; [|done]. by apply run_ends_sound.
Qed.

Lemma pipeline_ends_cache env request temp_path w r w' l :
  pipeline_ends env request temp_path w r w' ->
  temp_path <> cache_file env (model_name env) ->
  calls w' = calls w ++ l ->
  (fs w' !! cache_file env (model_name env) = fs w !! cache_file env (model_name env) /\
   ~ In (CallLoadModel (model_name env)) l) \/
  (fs w' !! cache_file env (model_name env) =
     cache_after env (model_name env) (fs w !! cache_file env (model_name env)) /\
   In (CallLoadModel (model_name env)) l).
Proof.
  intros H Hne Hc.
  destruct H as [Hbn | bn e Hbn Hfault | bn Hbn Hfault Hobj
    | bn data e w2 Hbn Hfault Hobj Hdec | bn data w2 r w3 Hbn Hfault Hobj Hdec Hinf].
  - left. split; [done|]. rewrite <- (app_nil_r (calls w)) in Hc at 1.
    apply app_inv_head in Hc. subst. by intros [].
  - left. split; [done|]. cbn in Hc. apply app_inv_head in Hc. subst.
    by intros [?|[]].
  - left. split; [done|]. cbn in Hc. apply app_inv_head in Hc. subst.
    by intros [?|[]].
  - apply decrypt_ends_effect in Hdec as (_ & _ & Hfs & dec & Hc2 & Hshape & _).
    left. split.
    + rewrite Hfs by congruence. cbn. apply lookup_insert_ne. congruence.
    + cbn in Hc2. rewrite Hc2, <- app_assoc in Hc. apply app_inv_head in Hc. subst.
      intros [?|Hin]; [done|].
      destruct Hshape as [-> | (K & N & T & C & ->)]; [done|].
      by destruct Hin as [?|[]].
  - apply decrypt_ends_effect in Hdec as (_ & _ & Hfs & dec & Hc2 & _).
    pose proof (infer_ends_effect _ _ _ _ _ _ _ Hinf)
      as (Hfs3 & _ & audio & l3 & Hc3 & Hpre & _).
    right. split.
    + rewrite Hfs3. cbn. rewrite lookup_partial_alter_eq. f_equal.
      rewrite Hfs by congruence. cbn. apply lookup_insert_ne. congruence.
    + cbn in Hc2. rewrite Hc3, Hc2, <- !app_assoc in Hc. apply app_inv_head in Hc.
      subst. cbn. right. apply in_or_app. right.
      inversion Hinf; subst; cbn in Hc3; apply app_inv_head in Hc3; subst; by left.
Qed.

(** X4. An invocation touches two local files at most: its scratch file
    and the file in which Whisper keeps the weights of the model.  Every
    other path holds afterwards what it held before.  The file of the
    weights is as before when load_model was not called, and is what
    load_model made of it otherwise. *)
Theorem local_storage_frame env request w :
  (forall path,
     scratch_path env <> Return path ->
     path <> cache_file env (model_name env) ->
     fs (snd (transcribe_audio env request w)) !! path = fs w !! path) /\
  ((fs (snd (transcribe_audio env request w)) !! cache_file env (model_name env) =
      fs w !! cache_file env (model_name env) /\
    ~ In (CallLoadModel (model_name env)) (issued env request w)) \/
   (fs (snd (transcribe_audio env request w)) !! cache_file env (model_name env) =
      cache_after env (model_name env) (fs w !! cache_file env (model_name env)) /\
    In (CallLoadModel (model_name env)) (issued env request w))).
Proof.
  destruct (run_ends_total env request w) as (r & w' & H).
  pose proof (run_ends_sound _ _ _ _ _ H) as Hrun.
  rewrite Hrun. cbn [snd].
  assert (calls w' = calls w -> issued env request w = []) as Hquiet.
  { intros Hc. eapply issued_of; [done|]. by rewrite app_nil_r. }
  assert (forall temp_path w2 (r2 : outcome response),
            scratch_path env = Return temp_path ->
            pipeline_ends env request temp_path (put_file temp_path [] w) r2 w2 ->
            issued env request w = drop (length (calls w)) (calls w2) ->
            (forall path,
               scratch_path env <> Return path ->
               path <> cache_file env (model_name env) ->
               delete temp_path (fs w2) !! path = fs w !! path) /\
            ((delete temp_path (fs w2) !! cache_file env (model_name env) =
                fs w !! cache_file env (model_name env) /\
              ~ In (CallLoadModel (model_name env)) (issued env request w)) \/
             (delete temp_path (fs w2) !! cache_file env (model_name env) =
                cache_after env (model_name env)
                  (fs w !! cache_file env (model_name env)) /\
              In (CallLoadModel (model_name env)) (issued env request w)))) as Hframe.
  { intros temp_path w2 r2 Htmp Hp Hissued.
    pose proof (scratch_is_not_cache env temp_path (model_name env) Htmp) as Hne.
    pose proof (pipeline_ends_effect _ _ _ _ _ _ Hp)
      as (_ & Hfs & bn & dec & audio & l & Hc & _).
    split.
    - intros path Hpath Hcache.
      assert (path <> temp_path) as Hne' by congruence.
      rewrite lookup_delete_ne, Hfs by done. cbn. by apply lookup_insert_ne.
    - rewrite lookup_delete_ne by done.
      cbn in Hc. rewrite Hc, drop_app_length in Hissued. rewrite Hissued.
      destruct (pipeline_ends_cache _ _ _ _ _ _ l Hp Hne Hc) as [[Hsame Hno]|[Hnew Hin]].
      + left. split; [|done]. rewrite Hsame. cbn. apply lookup_insert_ne. congruence.
      + right. split; [|done]. rewrite Hnew. f_equal. cbn.
        apply lookup_insert_ne. congruence. }
  destruct H as [Hf | e Hf Hvars | e Hf Hvars Htmp
    | temp_path r w2 Hf Hvars Htmp Hp | temp_path e w2 Hf Hvars Htmp Hp].
  - rewrite Hquiet by done. split; [done|]. left. split; [done|]. by intros [].
  - rewrite Hquiet by done. split; [done|]. left. split; [done|]. by intros [].
  - rewrite Hquiet by done. split; [done|]. left. split; [done|]. by intros [].
  - cbn. eapply Hframe; [done..|]. unfold issued. by rewrite Hrun.
  - cbn. eapply Hframe; [done..|]. unfold issued. by rewrite Hrun.
Qed.

Lemma local_storage_frame_witness :
  fs (snd (transcribe_audio Reference.sample_env
             (Reference.request_for "clip.wav" "auto" None None)
             {| fs := {["/srv/notes.txt" := [x68; x69]]};
                bucket := bucket Reference.sample_world;
                stdout := []; calls := [] |})) !! "/srv/notes.txt" =
  Some [x68; x69].
Proof.
  refine (proj1 (local_storage_frame Reference.sample_env
                   (Reference.request_for "clip.wav" "auto" None None)
                   {| fs := {["/srv/notes.txt" := [x68; x69]]};
                      bucket := bucket Reference.sample_world;
                      stdout := []; calls := [] |}) "/srv/notes.txt" _ _).
  - discriminate.
  - discriminate.
Defined.

Lemma run_ends_effect env request w r w' :
  run_ends env request w r w' ->
  ((r <> generic_error /\ stdout w' = stdout w) \/
   (r = generic_error /\ exists e, stdout w' = stdout w ++ log_lines env e)) /\
  exists bucket_name temp_path dec audio l,
    calls w' = calls w ++ l /\
    (l <> [] -> environ env !! "R2_BUCKET_NAME" = Some bucket_name /\
                scratch_path env = Return temp_path) /\
    l `prefix_of` (CallDownload bucket_name (filename request) temp_path :: dec ++
                     [CallLoadModel (model_name env);
                      CallTranscribe audio (language_argument env request);
                      CallDelete bucket_name (filename request)]) /\
    (dec = [] \/ exists K N T C, dec = [CallDecrypt K N T C]) /\
    (decryption_requested (decryption_key request) (iv request) = None -> dec = []) /\
    ((bucket w' = bucket w /\
      (In (CallDelete bucket_name (filename request)) l ->
       is_Some (delete_fault env (filename request)))) \/
     (bucket w' = delete (filename request) (bucket w) /\
      delete_fault env (filename request) = None /\
      In (CallDelete bucket_name (filename request)) l)).
Proof.
  assert (forall w0, calls w0 = calls w -> bucket w0 = bucket w ->
            exists bucket_name temp_path dec audio l,
              calls w0 = calls w ++ l /\
              (l <> [] -> environ env !! "R2_BUCKET_NAME" = Some bucket_name /\
                          scratch_path env = Return temp_path) /\
              l `prefix_of` (CallDownload bucket_name (filename request) temp_path ::
                               dec ++
                               [CallLoadModel (model_name env);
                                CallTranscribe audio (language_argument env request);
                                CallDelete bucket_name (filename request)]) /\
              (dec = [] \/ exists K N T C, dec = [CallDecrypt K N T C]) /\
              (decryption_requested (decryption_key request) (iv request) = None ->
               dec = []) /\
              ((bucket w0 = bucket w /\
                (In (CallDelete bucket_name (filename request)) l ->
                 is_Some (delete_fault env (filename request)))) \/
               (bucket w0 = delete (filename request) (bucket w) /\
                delete_fault env (filename request) = None /\
                In (CallDelete bucket_name (filename request)) l))) as Hquiet.
  { intros w0 Hc Hb. exists "", "", [], [], []. rewrite app_nil_r.
    split_and!; try done; [apply prefix_nil | by left |].
    left. split; [done|]. by intros []. }
  intros H.
  destruct H as [Hf | e Hf Hvars | e Hf Hvars Htmp
    | temp_path r w2 Hf Hvars Htmp Hp | temp_path e w2 Hf Hvars Htmp Hp].
  - split; [|by apply Hquiet]. left. split; [discriminate|done].
  - split; [|by apply Hquiet]. right. split; [done|]. by eexists.
  - split; [|by apply Hquiet]. right. split; [done|]. by eexists.
  - pose proof (pipeline_Return_transcript _ _ _ _ _ _ Hp) as (t & sg & lg & ->).
    apply pipeline_ends_effect in Hp
      as (Hs & _ & bn & dec & audio & l & Hc & Hbn & Hpre & Hshape & Hnone & Hb).
    split; [left; split; [discriminate|done]|].
    exists bn, temp_path, dec, audio, l. cbn in *. split_and!; try done.
    intros Hl. split; [by apply Hbn|done].
  - apply pipeline_ends_effect in Hp
      as (Hs & _ & bn & dec & audio & l & Hc & Hbn & Hpre & Hshape & Hnone & Hb).
    split; [right; split; [done|]; exists e; cbn in *; by rewrite Hs|].
    exists bn, temp_path, dec, audio, l. cbn in *. split_and!; try done.
    intros Hl. split; [by apply Hbn|done].
Qed.

Lemma In_canonical_delete b k bn p dec audio name lang (l : list Call) :
  (dec = [] \/ exists K N T C, dec = [CallDecrypt K N T C]) ->
  l `prefix_of` (CallDownload bn k p :: dec ++
                   [CallLoadModel name; CallTranscribe audio lang; CallDelete bn k]) ->
  In (CallDelete b k) l -> b = bn.
Proof.
  intros Hshape [rest Hpre] Hin.
  assert (In (CallDelete b k)
            (CallDownload bn k p :: dec ++
               [CallLoadModel name; CallTranscribe audio lang; CallDelete bn k]))
    as Hfull by (rewrite Hpre; apply in_or_app; by left).
  destruct Hfull as [?|Hfull]; [done|].
  apply in_app_or in Hfull as [Hd|Hd].
  - destruct Hshape as [-> | (K & N & T & C & ->)]; [done|]. by destruct Hd as [?|[]].
  - destruct Hd as [?|[?|[Heq|[]]]]; try done. by inversion Heq.
Qed.

(** X5. The bucket changes in one way only: the requested object is removed,
    and only when the delete call was issued and did not raise.  In every
    other run, whatever failed, the bucket is exactly as it was, so the
    source object is still there for another attempt; no other object is
    ever touched. *)
Theorem source_object_kept_unless_deleted env request w :
  (bucket (snd (transcribe_audio env request w)) = bucket w /\
   forall bucket_name,
     In (CallDelete bucket_name (filename request)) (issued env request w) ->
     is_Some (delete_fault env (filename request))) \/
  (bucket (snd (transcribe_audio env request w)) =
     delete (filename request) (bucket w) /\
   delete_fault env (filename request) = None /\
   exists bucket_name,
     In (CallDelete bucket_name (filename request)) (issued env request w)).
Proof.
  destruct (run_ends_total env request w) as (r & w' & H).
  pose proof (run_ends_effect _ _ _ _ _ H)
    as (_ & bn & p & dec & audio & l & Hc & _ & Hpre & Hshape & _ & Hb).
  rewrite (run_ends_issued _ _ _ _ _ _ H Hc), (run_ends_sound _ _ _ _ _ H).
  cbn [snd]. destruct Hb as [(Hb & Hdel) | (Hb & Hdel & Hin)].
  - left. split; [done|]. intros b Hin. apply Hdel.
    by rewrite (In_canonical_delete _ _ _ _ _ _ _ _ _ Hshape Hpre Hin) in Hin.
  - right. split; [done|]. split; [done|]. by exists bn.
Qed.

(** X6. The collaborators are called in one fixed order and at most once
    each: whatever an invocation issues is an initial part of download,
    decrypt (at most one call, none when decryption is not requested), load
    model, transcribe, delete.  The download goes from the configured
    bucket and the requested key to the scratch path, the model loaded is
    WHISPER_MODEL or "base", and the delete names the same bucket and key. *)
Theorem calls_in_order env request w :
  exists bucket_name temp_path dec audio,
    issued env request w `prefix_of`
      (CallDownload bucket_name (filename request) temp_path :: dec ++
         [CallLoadModel (os_environ_get env "WHISPER_MODEL" "base");
          CallTranscribe audio (language_argument env request);
          CallDelete bucket_name (filename request)]) /\
    (dec = [] \/ exists K N T C, dec = [CallDecrypt K N T C]) /\
    (decryption_requested (decryption_key request) (iv request) = None -> dec = []) /\
    (issued env request w <> [] ->
     environ env !! "R2_BUCKET_NAME" = Some bucket_name /\
     scratch_path env = Return temp_path).
Proof.
  destruct (run_ends_total env request w) as (r & w' & H).
  pose proof (run_ends_effect _ _ _ _ _ H)
    as (_ & bn & p & dec & audio & l & Hc & Hbn & Hpre & Hshape & Hnone & _).
  rewrite (run_ends_issued _ _ _ _ _ _ H Hc).
  by exists bn, p, dec, audio.
Qed.


(** ** Complete runs *)

Lemma fetches_run env request w temp_path data :
  fetches env request w temp_path data ->
  exists bucket_name,
    environ env !! "R2_BUCKET_NAME" = Some bucket_name /\
    forall r w2 w3,
      decrypt_ends env (decryption_key request) (iv request) temp_path
        (put_file temp_path data
           (add_calls [CallDownload bucket_name (filename request) temp_path]
              (put_file temp_path [] w)))
        (Return tt) w2 ->
      infer_ends env request temp_path bucket_name w2 (Return r) w3 ->
      transcribe_audio env request w = (Return r, remove_file temp_path w3).
Proof.
  intros (Hf & Hconf & Htmp & Hfault & Hobj).
  destruct Hconf as [Hvars [bn Hbn]].
  exists bn. split; [done|]. intros r w2 w3 Hdec Hinf.
  apply run_ends_sound. eapply pipeline_returned; [done..|].
  by eapply inferred.
Qed.

Lemma scratch_cleared (f : option bytes -> option bytes) (p c : string)
    (data : bytes) (m : gmap string bytes) :
  p <> c ->
  delete p (partial_alter f c (<[p := data]> m)) = delete p (partial_alter f c m).
Proof.
  intros Hne. apply map_eq. intros i.
  destruct (decide (i = p)) as [->|Hp]; [by rewrite !lookup_delete_eq|].
  rewrite !lookup_delete_ne by done.
  destruct (decide (i = c)) as [->|Hc].
  - rewrite !lookup_partial_alter_eq. by rewrite lookup_insert_ne.
  - rewrite !lookup_partial_alter_ne by done. by rewrite lookup_insert_ne.
Qed.

(** X8. The whole effect of a successful plain request.  If the object is
    fetched, decryption is not requested, the model loads and returns
    [result] for the object's bytes, the delete does not raise and every
    segment can be adjusted, then the caller gets the transcript built from
    [result]; local storage ends without the scratch file and with the
    weights file of the model as load_model left it, the bucket without the
    object, nothing is printed, and exactly four calls were made: download,
    load, transcribe on the stored bytes, delete. *)
Theorem plain_request_succeeds env request w temp_path data result adjusted :
  fetches env request w temp_path data ->
  decryption_requested (decryption_key request) (iv request) = None ->
  load_model env (os_environ_get env "WHISPER_MODEL" "base") = None ->
  transcribe env data (language_argument env request) = Return result ->
  delete_fault env (filename request) = None ->
  adjust_segments (res_segments result) = Return adjusted ->
  exists bucket_name,
    environ env !! "R2_BUCKET_NAME" = Some bucket_name /\
    transcribe_audio env request w =
      (Return (transcript (res_text result) adjusted (res_language result)),
       {| fs := delete temp_path
                  (partial_alter (cache_after env (model_name env))
                     (cache_file env (model_name env)) (fs w));
          bucket := delete (filename request) (bucket w);
          stdout := stdout w;
          calls := calls w ++
            [CallDownload bucket_name (filename request) temp_path;
             CallLoadModel (os_environ_get env "WHISPER_MODEL" "base");
             CallTranscribe data (language_argument env request);
             CallDelete bucket_name (filename request)] |}).
Proof.
  intros Hfetch Hreq Hload Htr Hdel Hadj.
  destruct (fetches_run _ _ _ _ _ Hfetch) as (bn & Hbn & Hrun).
  exists bn. split; [done|].
  pose proof (decrypt_skipped env _ _ temp_path
                (put_file temp_path data
                   (add_calls [CallDownload bn (filename request) temp_path]
                      (put_file temp_path [] w))) Hreq) as Hdec.
  assert (fs (put_file temp_path data
                (add_calls [CallDownload bn (filename request) temp_path]
                   (put_file temp_path [] w))) !! temp_path = Some data) as Hfile
    by apply lookup_insert_eq.
  pose proof Hfetch as (_ & _ & Htmp & _).
  rewrite <- (cache_model_scratch env _ _ Htmp) in Hfile.
  pose proof (responded env request temp_path bn _ data result adjusted
                Hload Hfile Htr Hdel Hadj) as Hinf.
  rewrite (Hrun _ _ _ Hdec Hinf).
  unfold remove_file, drop_object, add_calls, put_file, cache_model. cbn.
  rewrite !scratch_cleared by (by eapply scratch_is_not_cache).
  by rewrite <- app_assoc.
Qed.

Lemma plain_request_succeeds_witness :
  exists bucket_name,
    environ Reference.sample_env !! "R2_BUCKET_NAME" = Some bucket_name /\
    transcribe_audio Reference.sample_env
      (Reference.request_for "clip.wav" "EN" None None) Reference.sample_world =
      (Return (transcript " hello world" Reference.sample_adjusted "en"),
       {| fs := delete "/tmp/tmpq1.wav"
                  (partial_alter (Reference.sample_cache_after "base")
                     "/root/.cache/whisper/base.pt" ∅);
          bucket := delete "clip.wav" (bucket Reference.sample_world);
          stdout := [];
          calls := [] ++
            [CallDownload bucket_name "clip.wav" "/tmp/tmpq1.wav";
             CallLoadModel (os_environ_get Reference.sample_env "WHISPER_MODEL" "base");
             CallTranscribe Reference.sample_audio (Some "en");
             CallDelete bucket_name "clip.wav"] |}).
Proof.
  apply (plain_request_succeeds Reference.sample_env
           (Reference.request_for "clip.wav" "EN" None None) Reference.sample_world
           "/tmp/tmpq1.wav" Reference.sample_audio
           {| res_text := " hello world";
              res_segments := Reference.sample_segments;
              res_language := "en" |}
           Reference.sample_adjusted).
  - split; [discriminate|]. split; [exact sample_configured|].
    split; [reflexivity|]. split; reflexivity.
  - reflexivity.
  - reflexivity.
  - reflexivity.
  - reflexivity.
  - reflexivity.
Defined.

(** X9. The whole effect of a successful encrypted request.  If the object
    is fetched, both strings are non-empty and decode to [K] and [N], and
    the library decrypts the object's bytes (tag the last 16, ciphertext the
    rest) to [P], then the model is run on [P], not on the stored bytes,
    and with the later steps succeeding the caller gets the transcript;
    the plaintext written to the scratch file is removed with it, and
    local storage differs otherwise in the weights file of the model
    only. *)
Theorem encrypted_request_succeeds
    env request w temp_path data k n K N P result adjusted :
  fetches env request w temp_path data ->
  decryption_requested (decryption_key request) (iv request) = Some (k, n) ->
  b64decode env k = Return K ->
  b64decode env n = Return N ->
  aes_gcm_decrypt env K N (drop (length data - 16) data)
    (take (length data - 16) data) = Return P ->
  load_model env (os_environ_get env "WHISPER_MODEL" "base") = None ->
  transcribe env P (language_argument env request) = Return result ->
  delete_fault env (filename request) = None ->
  adjust_segments (res_segments result) = Return adjusted ->
  exists bucket_name,
    environ env !! "R2_BUCKET_NAME" = Some bucket_name /\
    transcribe_audio env request w =
      (Return (transcript (res_text result) adjusted (res_language result)),
       {| fs := delete temp_path
                  (partial_alter (cache_after env (model_name env))
                     (cache_file env (model_name env)) (fs w));
          bucket := delete (filename request) (bucket w);
          stdout := stdout w;
          calls := calls w ++
            [CallDownload bucket_name (filename request) temp_path;
             CallDecrypt K N (drop (length data - 16) data)
               (take (length data - 16) data);
             CallLoadModel (os_environ_get env "WHISPER_MODEL" "base");
             CallTranscribe P (language_argument env request);
             CallDelete bucket_name (filename request)] |}).
Proof.
  intros Hfetch Hreq HK HN Hlib Hload Htr Hdel Hadj.
  destruct (fetches_run _ _ _ _ _ Hfetch) as (bn & Hbn & Hrun).
  exists bn. split; [done|].
  assert (fs (put_file temp_path data
                (add_calls [CallDownload bn (filename request) temp_path]
                   (put_file temp_path [] w))) !! temp_path = Some data) as Hfile
    by apply lookup_insert_eq.
  pose proof (decrypt_done env _ _ temp_path _ k n data K N P
                Hreq Hfile HK HN Hlib) as Hdec.
  match type of Hdec with
  | decrypt_ends _ _ _ _ _ _ ?w2 =>
      assert (fs w2 !! temp_path = Some P) as Hplain by apply lookup_insert_eq
  end.
  pose proof Hfetch as (_ & _ & Htmp & _).
  rewrite <- (cache_model_scratch env _ _ Htmp) in Hplain.
  pose proof (responded env request temp_path bn _ P result adjusted
                Hload Hplain Htr Hdel Hadj) as Hinf.
  rewrite (Hrun _ _ _ Hdec Hinf).
  unfold remove_file, drop_object, add_calls, put_file, cache_model. cbn.
  rewrite !scratch_cleared by (by eapply scratch_is_not_cache).
  by rewrite <- !app_assoc.
Qed.

Lemma encrypted_request_succeeds_witness :
  exists bucket_name,
    environ Reference.sample_env !! "R2_BUCKET_NAME" = Some bucket_name /\
    transcribe_audio Reference.sample_env
      (Reference.request_for "sealed.wav" "auto"
         (Some Reference.sample_key_b64) (Some Reference.sample_nonce_b64))
      Reference.sample_world =
      (Return (transcript " hello world" Reference.sample_adjusted "en"),
       {| fs := delete "/tmp/tmpq1.wav"
                  (partial_alter (Reference.sample_cache_after "base")
                     "/root/.cache/whisper/base.pt" ∅);
          bucket := delete "sealed.wav" (bucket Reference.sample_world);
          stdout := [];
          calls := [] ++
            [CallDownload bucket_name "sealed.wav" "/tmp/tmpq1.wav";
             CallDecrypt Reference.sample_key Reference.sample_nonce
               (drop (length Reference.sample_sealed - 16) Reference.sample_sealed)
               (take (length Reference.sample_sealed - 16) Reference.sample_sealed);
             CallLoadModel (os_environ_get Reference.sample_env "WHISPER_MODEL" "base");
             CallTranscribe Reference.sample_audio None;
             CallDelete bucket_name "sealed.wav"] |}).
Proof.
  apply (encrypted_request_succeeds Reference.sample_env
           (Reference.request_for "sealed.wav" "auto"
              (Some Reference.sample_key_b64) (Some Reference.sample_nonce_b64))
           Reference.sample_world "/tmp/tmpq1.wav" Reference.sample_sealed
           Reference.sample_key_b64 Reference.sample_nonce_b64
           Reference.sample_key Reference.sample_nonce Reference.sample_audio
           {| res_text := " hello world";
              res_segments := Reference.sample_segments;
              res_language := "en" |}
           Reference.sample_adjusted).
  - split; [discriminate|]. split; [exact sample_configured|].
    split; [reflexivity|]. split; reflexivity.
  - reflexivity.
  - reflexivity.
  - reflexivity.
  - reflexivity.
  - reflexivity.
  - reflexivity.
  - reflexivity.
  - reflexivity.
Defined.

(** X10. A failed download is contained: whether the transfer is
    interrupted or the key does not exist, the caller gets the generic
    ErrorResult, the exception the store client raised is logged, the
    download is the only call made, the bucket is untouched and the empty
    scratch file is removed. *)
Theorem failed_download_contained env request w temp_path bucket_name e :
  filename request <> "" ->
  client_error env = None ->
  scratch_path env = Return temp_path ->
  environ env !! "R2_BUCKET_NAME" = Some bucket_name ->
  download_fault env (filename request) = Some e \/
  (download_fault env (filename request) = None /\
   bucket w !! filename request = None /\
   e = missing_object env (filename request)) ->
  transcribe_audio env request w =
    (Return generic_error,
     {| fs := delete temp_path (fs w); bucket := bucket w;
        stdout := stdout w ++ [("Transcription error: " ++ str_exn e)%string;
                               ("Traceback: " ++ format_exc env e)%string];
        calls := calls w ++
          [CallDownload bucket_name (filename request) temp_path] |}).
Proof.
  intros Hf Hvars Htmp Hbn Hfail.
  assert (pipeline_ends env request temp_path (put_file temp_path [] w) (Raise e)
            (add_calls [CallDownload bucket_name (filename request) temp_path]
               (put_file temp_path [] w))) as Hp.
  { destruct Hfail as [Hfault | (Hfault & Hobj & ->)].
    - by eapply download_interrupted.
    - by eapply object_missing. }
  rewrite (run_ends_sound _ _ _ _ _
             (pipeline_raised _ _ _ temp_path _ _ Hf Hvars Htmp Hp)).
  unfold add_lines, remove_file, add_calls, put_file, log_lines. cbn.
  by rewrite delete_insert_eq.
Qed.

Lemma failed_download_contained_witness :
  transcribe_audio Reference.sample_env
    (Reference.request_for "nope.wav" "auto" None None) Reference.sample_world =
  (Return generic_error,
   {| fs := delete "/tmp/tmpq1.wav" ∅; bucket := bucket Reference.sample_world;
      stdout := [] ++
        ["Transcription error: An error occurred (404) when calling the HeadObject operation: Not Found";
         ("Traceback: " ++
          format_exc Reference.sample_env
            (missing_object Reference.sample_env "nope.wav"))%string];
      calls := [] ++ [CallDownload "audio" "nope.wav" "/tmp/tmpq1.wav"] |}).
Proof.
  apply (failed_download_contained Reference.sample_env
           (Reference.request_for "nope.wav" "auto" None None) Reference.sample_world
           "/tmp/tmpq1.wav" "audio"
           (missing_object Reference.sample_env "nope.wav")).
  - discriminate.
  - reflexivity.
  - reflexivity.
  - reflexivity.
  - right. split; [reflexivity|]. split; reflexivity.
Defined.

Lemma infer_ends_delete_inv env request temp_path bucket_name w r w' :
  infer_ends env request temp_path bucket_name w r w' ->
  exists l,
    calls w' = calls w ++ l /\
    (forall c, In c l -> c = CallLoadModel (model_name env) \/
                         (exists audio, c = CallTranscribe audio (language_argument env request)) \/
                         c = CallDelete bucket_name (filename request)) /\
    (forall b, In (CallDelete b (filename request)) l ->
       delete_fault env (filename request) = None ->
       exists audio result,
         In (CallTranscribe audio (language_argument env request)) l /\
         transcribe env audio (language_argument env request) = Return result /\
         ((exists e, adjust_segments (res_segments result) = Raise e /\
                     r = Raise e) \/
          (exists adjusted, adjust_segments (res_segments result) = Return adjusted /\
             r = Return (transcript (res_text result) adjusted
                           (res_language result))))) /\
    (forall audio result,
       In (CallTranscribe audio (language_argument env request)) l ->
       transcribe env audio (language_argument env request) = Return result ->
       exists b, In (CallDelete b (filename request)) l).
Proof.
  intros H.
  destruct H as [e Hl | Hl Hf | audio e Hl Hf Ht | audio result e Hl Hf Ht Hd
    | audio result e Hl Hf Ht Hd Ha | audio result adjusted Hl Hf Ht Hd Ha].
  - exists [CallLoadModel (model_name env)]. split; [done|]. split_and!.
    + intros c [<-|[]]. by left.
    + by intros b [?|[]].
    + by intros a res [?|[]].
  - exists [CallLoadModel (model_name env)]. split; [done|]. split_and!.
    + intros c [<-|[]]. by left.
    + by intros b [?|[]].
    + by intros a res [?|[]].
  - exists [CallLoadModel (model_name env);
            CallTranscribe audio (language_argument env request)].
    split; [done|]. split_and!.
    + intros c [<-|[<-|[]]]; [by left|]. right; left. by eexists.
    + by intros b [?|[?|[]]].
    + intros a res [?|[Heq|[]]] Hres; [done|]. inversion Heq; subst. congruence.
  - exists [CallLoadModel (model_name env);
            CallTranscribe audio (language_argument env request);
            CallDelete bucket_name (filename request)].
    split; [done|]. split_and!.
    + intros c [<-|[<-|[<-|[]]]]; [by left| |by right; right].
      right; left. by eexists.
    + intros b _ Hnone. congruence.
    + intros a res _ _. exists bucket_name. right. right. by left.
  - exists [CallLoadModel (model_name env);
            CallTranscribe audio (language_argument env request);
            CallDelete bucket_name (filename request)].
    split; [done|]. split_and!.
    + intros c [<-|[<-|[<-|[]]]]; [by left| |by right; right].
      right; left. by eexists.
    + intros b _ _. exists audio, result. split; [right; by left|].
      split; [done|]. left. by exists e.
    + intros a res _ _. exists bucket_name. right. right. by left.
  - exists [CallLoadModel (model_name env);
            CallTranscribe audio (language_argument env request);
            CallDelete bucket_name (filename request)].
    split; [done|]. split_and!.
    + intros c [<-|[<-|[<-|[]]]]; [by left| |by right; right].
      right; left. by eexists.
    + intros b _ _. exists audio, result. split; [right; by left|].
      split; [done|]. right. by exists adjusted.
    + intros a res _ _. exists bucket_name. right. right. by left.
Qed.

Lemma infer_ends_audio env request temp_path bucket_name w r w' l :
  infer_ends env request temp_path bucket_name w r w' ->
  calls w' = calls w ++ l ->
  forall audio lang,
    In (CallTranscribe audio lang) l ->
    lang = language_argument env request /\
    fs (cache_model env w) !! temp_path = Some audio.
Proof.
  intros H Hc audio lang Hin.
  destruct H as [e Hl | Hl Hf | a e Hl Hf Ht | a result e Hl Hf Ht Hd
    | a result e Hl Hf Ht Hd Ha | a result adjusted Hl Hf Ht Hd Ha];
    cbn in Hc; apply app_inv_head in Hc; subst l; cbn in Hin.
  - by destruct Hin as [?|[]].
  - by destruct Hin as [?|[]].
  - destruct Hin as [?|[Heq|[]]]; [done|]. by inversion Heq; subst.
  - destruct Hin as [?|[Heq|[?|[]]]]; try done. by inversion Heq; subst.
  - destruct Hin as [?|[Heq|[?|[]]]]; try done. by inversion Heq; subst.
  - destruct Hin as [?|[Heq|[?|[]]]]; try done. by inversion Heq; subst.
Qed.

Lemma infer_ends_transcribed env request temp_path bucket_name w r w' l
    audio lang result :
  infer_ends env request temp_path bucket_name w r w' ->
  calls w' = calls w ++ l ->
  In (CallTranscribe audio lang) l ->
  transcribe env audio lang = Return result ->
  delete_fault env (filename request) = None ->
  (exists e, adjust_segments (res_segments result) = Raise e /\ r = Raise e) \/
  (exists adjusted,
     adjust_segments (res_segments result) = Return adjusted /\
     r = Return (transcript (res_text result) adjusted (res_language result))).
Proof.
  intros H Hc Hin Hres Hnone.
  destruct H as [e Hl | Hl Hf | a e Hl Hf Ht | a res e Hl Hf Ht Hd
    | a res e Hl Hf Ht Hd Ha | a res adjusted Hl Hf Ht Hd Ha];
    cbn in Hc; apply app_inv_head in Hc; subst l; cbn in Hin.
  - by destruct Hin as [?|[]].
  - by destruct Hin as [?|[]].
  - destruct Hin as [?|[Heq|[]]]; [done|]. inversion Heq; subst. congruence.
  - congruence.
  - destruct Hin as [?|[Heq|[?|[]]]]; try done. inversion Heq; subst.
    rewrite Ht in Hres. inversion Hres; subst. left. by exists e.
  - destruct Hin as [?|[Heq|[?|[]]]]; try done. inversion Heq; subst.
    rewrite Ht in Hres. inversion Hres; subst. right. by exists adjusted.
Qed.

Lemma decrypt_ends_Return_file env dk n temp_path w w' data audio :
  decrypt_ends env dk n temp_path w (Return tt) w' ->
  fs w !! temp_path = Some data ->
  fs w' !! temp_path = Some audio ->
  (decryption_requested dk n = None /\ audio = data /\ calls w' = calls w) \/
  (exists k n' K N,
     decryption_requested dk n = Some (k, n') /\
     b64decode env k = Return K /\ b64decode env n' = Return N /\
     aes_gcm_decrypt env K N (drop (length data - 16) data)
       (take (length data - 16) data) = Return audio /\
     calls w' = calls w ++ [CallDecrypt K N (drop (length data - 16) data)
                              (take (length data - 16) data)]).
Proof.
  intros H Hdata Haudio.
  inversion H as [Hreq | | | | | k n' data' K N P Hreq Hfile HK HN Hlib]; subst.
  - left. split; [done|]. split; [congruence|done].
  - right. rewrite Hdata in Hfile. inversion Hfile; subst data'.
    cbn in Haudio. rewrite lookup_insert_eq in Haudio. inversion Haudio; subst.
    by exists k, n', K, N.
Qed.

Lemma pipeline_ends_calls_inv env request temp_path w r w' :
  temp_path <> cache_file env (model_name env) ->
  pipeline_ends env request temp_path w r w' ->
  exists l,
    calls w' = calls w ++ l /\
    (forall b,
       In (CallDelete b (filename request)) l ->
       delete_fault env (filename request) = None ->
       exists audio result,
         In (CallTranscribe audio (language_argument env request)) l /\
         transcribe env audio (language_argument env request) = Return result /\
         ((exists e, adjust_segments (res_segments result) = Raise e /\
                     r = Raise e) \/
          (exists adjusted, adjust_segments (res_segments result) = Return adjusted /\
             r = Return (transcript (res_text result) adjusted
                           (res_language result))))) /\
    (forall audio lang,
       In (CallTranscribe audio lang) l ->
       lang = language_argument env request /\
       exists data,
         bucket w !! filename request = Some data /\
         ((decryption_requested (decryption_key request) (iv request) = None /\
           audio = data) \/
          (exists k n K N,
             decryption_requested (decryption_key request) (iv request)
               = Some (k, n) /\
             b64decode env k = Return K /\ b64decode env n = Return N /\
             aes_gcm_decrypt env K N (drop (length data - 16) data)
               (take (length data - 16) data) = Return audio /\
             In (CallDecrypt K N (drop (length data - 16) data)
                   (take (length data - 16) data)) l))).
Proof.
  intros Hcache H.
  destruct H as [Hbn | bn e Hbn Hfault | bn Hbn Hfault Hobj
    | bn data e w2 Hbn Hfault Hobj Hdec | bn data w2 r w3 Hbn Hfault Hobj Hdec Hinf].
  - exists []. rewrite app_nil_r. split; [done|]. split; by intros ? [].
  - exists [CallDownload bn (filename request) temp_path]. split; [done|].
    split; [by intros b [?|[]] | by intros a lg [?|[]]].
  - exists [CallDownload bn (filename request) temp_path]. split; [done|].
    split; [by intros b [?|[]] | by intros a lg [?|[]]].
  - apply decrypt_ends_effect in Hdec as (_ & _ & _ & dec & Hc & Hshape & _).
    cbn in Hc. exists (CallDownload bn (filename request) temp_path :: dec).
    split; [by rewrite Hc, <- app_assoc|].
    split.
    + intros b [?|Hin]; [done|].
      destruct Hshape as [-> | (K & N & T & C & ->)]; [done|].
      by destruct Hin as [?|[]].
    + intros a lg [?|Hin]; [done|].
      destruct Hshape as [-> | (K & N & T & C & ->)]; [done|].
      by destruct Hin as [?|[]].
  - pose proof (decrypt_ends_effect _ _ _ _ _ _ _ Hdec)
      as (_ & _ & _ & dec & Hc & Hshape & _).
    pose proof (infer_ends_delete_inv _ _ _ _ _ _ _ Hinf)
      as (l & Hc3 & _ & Hdel & _).
    cbn in Hc. exists (CallDownload bn (filename request) temp_path :: dec ++ l).
    split; [by rewrite Hc3, Hc, <- !app_assoc|].
    assert (forall c, In c (CallDownload bn (filename request) temp_path :: dec ++ l) ->
              ~ setup_call c -> In c l) as Hin_l.
    { intros c [<-|Hin] Hc0; [by destruct Hc0|].
      apply in_app_or in Hin as [Hin|Hin]; [|done].
      destruct Hshape as [-> | (K & N & T & C & ->)]; [done|].
      destruct Hin as [<-|[]]. by destruct Hc0. }
    split.
    + intros b Hin Hnone. apply Hin_l in Hin; [|by intros []].
      destruct (Hdel b Hin Hnone) as (audio & result & Hin' & Hrest).
      exists audio, result. split; [|done].
      right. apply in_or_app. by right.
    + intros audio lang Hin. apply Hin_l in Hin; [|by intros []].
      destruct (infer_ends_audio _ _ _ _ _ _ _ _ Hinf Hc3 _ _ Hin) as [-> Hfile].
      cbn in Hfile. rewrite lookup_partial_alter_ne in Hfile by congruence.
      split; [done|]. exists data. split; [done|].
      destruct (decrypt_ends_Return_file _ _ _ _ _ _ data audio Hdec)
        as [(Hreq & -> & _) | (k & n & K & N & Hreq & HK & HN & Hlib & Hcd)];
        [apply lookup_insert_eq | done | by left |].
      right. exists k, n, K, N. split_and!; try done.
      right. apply in_or_app. left.
      cbn in Hcd. rewrite Hcd in Hc. apply app_inv_head in Hc. subst dec.
      by left.
Qed.

Lemma pipeline_ends_transcribed env request temp_path w r w' l audio lang result :
  pipeline_ends env request temp_path w r w' ->
  calls w' = calls w ++ l ->
  In (CallTranscribe audio lang) l ->
  transcribe env audio lang = Return result ->
  delete_fault env (filename request) = None ->
  (exists e, adjust_segments (res_segments result) = Raise e /\ r = Raise e) \/
  (exists adjusted,
     adjust_segments (res_segments result) = Return adjusted /\
     r = Return (transcript (res_text result) adjusted (res_language result))).
Proof.
  intros H Hc Hin Hres Hnone.
  destruct H as [Hbn | bn e Hbn Hfault | bn Hbn Hfault Hobj
    | bn data e w2 Hbn Hfault Hobj Hdec | bn data w2 r w3 Hbn Hfault Hobj Hdec Hinf].
  - rewrite <- (app_nil_r (calls w)) in Hc at 1. apply app_inv_head in Hc.
    subst. destruct Hin.
  - cbn in Hc. apply app_inv_head in Hc. subst. by destruct Hin as [?|[]].
  - cbn in Hc. apply app_inv_head in Hc. subst. by destruct Hin as [?|[]].
  - apply decrypt_ends_effect in Hdec as (_ & _ & _ & dec & Hc2 & Hshape & _).
    cbn in Hc2. rewrite Hc2, <- app_assoc in Hc. apply app_inv_head in Hc. subst.
    destruct Hin as [?|Hin]; [done|].
    destruct Hshape as [-> | (K & N & T & C & ->)]; [done|].
    by destruct Hin as [?|[]].
  - apply decrypt_ends_effect in Hdec as (_ & _ & _ & dec & Hc2 & Hshape & _).
    pose proof (infer_ends_effect _ _ _ _ _ _ _ Hinf)
      as (_ & _ & a & l3 & Hc3 & _).
    cbn in Hc2. rewrite Hc3, Hc2, <- !app_assoc in Hc. apply app_inv_head in Hc.
    subst. cbn in Hin. destruct Hin as [?|Hin]; [done|].
    apply in_app_or in Hin as [Hin|Hin].
    + destruct Hshape as [-> | (K & N & T & C & ->)]; [done|].
      by destruct Hin as [?|[]].
    + by eapply infer_ends_transcribed.
Qed.

Lemma run_ends_pipeline env request w r w' :
  run_ends env request w r w' ->
  issued env request w = [] \/
  exists temp_path r2 w2,
    scratch_path env = Return temp_path /\
    pipeline_ends env request temp_path (put_file temp_path [] w) r2 w2 /\
    issued env request w = drop (length (calls w)) (calls w2) /\
    (r2 = Return r \/ (exists e, r2 = Raise e) /\ r = generic_error).
Proof.
  intros H. pose proof (run_ends_sound _ _ _ _ _ H) as Hrun.
  destruct H as [Hf | e Hf Hvars | e Hf Hvars Htmp
    | temp_path r w2 Hf Hvars Htmp Hp | temp_path e w2 Hf Hvars Htmp Hp].
  - left. eapply issued_of; [done|]. by rewrite app_nil_r.
  - left. eapply issued_of; [done|]. cbn. by rewrite app_nil_r.
  - left. eapply issued_of; [done|]. cbn. by rewrite app_nil_r.
  - right. exists temp_path, (Return r), w2. split_and!; try done; [|by left].
    unfold issued. by rewrite Hrun.
  - right. exists temp_path, (Raise e), w2. split_and!; try done.
    + unfold issued. by rewrite Hrun.
    + right. split; [by exists e|done].
Qed.

(** ** Timestamp adjustment of the response *)

Lemma adjust_segments_numeric segments :
  Forall (fun segment => is_Some (timestamp segment "start") /\
                         is_Some (timestamp segment "end")) segments ->
  exists adjusted, adjust_segments segments = Return adjusted.
Proof.
  induction 1 as [|segment rest [[s Hs] [e He]] _ [adjusted IH]].
  - by exists [].
  - cbn. rewrite (adjust_segment_spec _ _ _ Hs He), IH. cbn. by eexists.
Qed.

(** C3. The adjustment is applied to every segment before the response is
    returned.  Whenever the model has returned a result whose segments have
    numeric start and end, and the delete that follows does not raise, the
    response is the transcript whose segments are those of the model, one
    for one and in order, each with start = max(0, start - 0.5) and
    end = max(0.5, end - 0.5) and its other keys unchanged; and every
    successful response is of that form.  In particular
    {start: 1.2, end: 3.0} becomes {start: 0.7, end: 2.5} and
    {start: 0.2, end: 0.4} becomes {start: 0, end: 0.5}. *)
Theorem timestamps_adjusted :
  (forall env request w audio lang result,
     In (CallTranscribe audio lang) (issued env request w) ->
     transcribe env audio lang = Return result ->
     delete_fault env (filename request) = None ->
     Forall (fun segment => is_Some (timestamp segment "start") /\
                            is_Some (timestamp segment "end"))
       (res_segments result) ->
     exists adjusted,
       fst (transcribe_audio env request w) =
         Return (transcript (res_text result) adjusted (res_language result)) /\
       adjust_segments (res_segments result) = Return adjusted /\
       Forall2 adjusted_from (res_segments result) adjusted) /\
  (forall env request w text segments lang w',
     transcribe_audio env request w = (Return (transcript text segments lang), w') ->
     exists audio result,
       In (CallTranscribe audio (language_argument env request))
          (issued env request w) /\
       transcribe env audio (language_argument env request) = Return result /\
       text = res_text result /\ lang = res_language result /\
       Forall2 adjusted_from (res_segments result) segments) /\
  (forall segment,
     timestamp segment "start" = Some (Q2Qc (12 # 10)) ->
     timestamp segment "end" = Some (Q2Qc (3 # 1)) ->
     adjust_segment segment =
       Return (<["end" := PFloat (Q2Qc (25 # 10))]>
                 (<["start" := PFloat (Q2Qc (7 # 10))]> segment))) /\
  (forall segment,
     timestamp segment "start" = Some (Q2Qc (2 # 10)) ->
     timestamp segment "end" = Some (Q2Qc (4 # 10)) ->
     adjust_segment segment =
       Return (<["end" := PFloat (Q2Qc (5 # 10))]> (<["start" := PInt 0]> segment))).
Proof.
  split_and!.
  - intros env request w audio lang result Hin Htr Hdel Hnum.
    destruct (adjust_segments_numeric _ Hnum) as [adjusted Hadj].
    exists adjusted. split; [|split; [done | by apply adjust_segments_inv]].
    destruct (run_ends_total env request w) as (r & w' & H).
    rewrite (run_ends_sound _ _ _ _ _ H). cbn [fst].
    destruct (run_ends_pipeline _ _ _ _ _ H)
      as [Hnil | (p & r2 & w2 & Htmp & Hp & Hissued & Hr)].
    { rewrite Hnil in Hin. destruct Hin. }
    pose proof (pipeline_ends_effect _ _ _ _ _ _ Hp)
      as (_ & _ & bn & dec & a & l & Hc & _).
    cbn in Hc. rewrite Hc, drop_app_length in Hissued. rewrite Hissued in Hin.
    destruct (pipeline_ends_transcribed _ _ _ _ _ _ _ _ _ _ Hp Hc Hin Htr Hdel)
      as [(e & He & _) | (adjusted' & Ha & ->)]; [congruence|].
    rewrite Hadj in Ha. inversion Ha; subst adjusted'.
    destruct Hr as [Heq | [[e ?] _]]; [|discriminate]. by inversion Heq.
  - intros env request w text segments lang w' Hrun.
    apply run_ends_iff in Hrun.
    destruct (run_ends_pipeline _ _ _ _ _ Hrun)
      as [Hnil | (p & r2 & w2 & Htmp & Hp & Hissued & Hr)].
    { exfalso. inversion Hrun as [ | | | p r w2 Hf Hvars Htmp Hp | ]; subst.
      pose proof (run_ends_sound _ _ _ _ _ Hrun) as Hsound.
      inversion Hp as [| | | | bn data w3 r' w4 Hbn Hfault Hobj Hdec Hinf]; subst.
      apply decrypt_ends_effect in Hdec as (_ & _ & _ & dec & Hc2 & _).
      apply infer_ends_effect in Hinf as (_ & _ & a & l & Hc3 & _).
      cbn in Hc2. unfold issued in Hnil. rewrite Hsound in Hnil. cbn in Hnil.
      rewrite Hc3, Hc2, <- !app_assoc, drop_app_length in Hnil. discriminate. }
    destruct Hr as [-> | [[e ->] Heq]]; [|discriminate].
    inversion Hp as [| | | | bn data w3 r' w4 Hbn Hfault Hobj Hdec Hinf]; subst.
    apply decrypt_ends_effect in Hdec as (_ & _ & _ & dec & Hc2 & _).
    inversion Hinf as [| | | | | audio result adjusted Hl Hfile Ht Hd Ha Hr Hw];
      subst.
    exists audio, result. split_and!; try done; [|by apply adjust_segments_inv].
    rewrite Hissued. cbn. cbn in Hc2. rewrite Hc2, <- !app_assoc, drop_app_length.
    cbn. right. apply in_or_app. right. right. by left.
  - intros segment Hs He. rewrite (adjust_segment_spec _ _ _ Hs He).
    by rewrite max_0_example_1, max_adjustment_example_1.
  - intros segment Hs He. rewrite (adjust_segment_spec _ _ _ Hs He).
    by rewrite max_0_example_2, max_adjustment_example_2.
Qed.

Lemma timestamps_adjusted_witness :
  fst (transcribe_audio Reference.sample_env
         (Reference.request_for "clip.wav" "EN" None None)
         Reference.sample_world) =
  Return (transcript " hello world"
            [<["end" := PFloat (Q2Qc (25 # 10))]>
               (<["start" := PFloat (Q2Qc (7 # 10))]> Reference.first_segment);
             <["end" := PFloat (Q2Qc (5 # 10))]>
               (<["start" := PInt 0]> Reference.second_segment)]
            "en").
Proof.
  destruct (proj1 timestamps_adjusted Reference.sample_env
              (Reference.request_for "clip.wav" "EN" None None)
              Reference.sample_world Reference.sample_audio (Some "en")
              {| res_text := " hello world";
                 res_segments := Reference.sample_segments;
                 res_language := "en" |})
    as (adjusted & Hr & Hadj & _).
  - vm_compute. tauto.
  - reflexivity.
  - reflexivity.
  - repeat constructor; by eexists.
  - rewrite Hr. clear Hr.
    pose proof (proj1 (proj2 (proj2 timestamps_adjusted))
                  Reference.first_segment eq_refl eq_refl) as H1.
    pose proof (proj2 (proj2 (proj2 timestamps_adjusted))
                  Reference.second_segment eq_refl eq_refl) as H2.
    cbn [res_segments] in Hadj. unfold Reference.sample_segments in Hadj.
    cbn [adjust_segments] in Hadj. rewrite H1, H2 in Hadj.
    cbn [bind_o] in Hadj. inversion Hadj. reflexivity.
Defined.

(** ** Deletion comes before the adjustment *)

(** X11. The source object is deleted before the segments are adjusted.
    Whenever the delete was issued and did not raise, inference had
    returned a result, and the response is decided by the adjustment alone:
    the generic ErrorResult if a segment cannot be adjusted (the object is
    gone all the same), the transcript otherwise. *)
Theorem deletion_precedes_adjustment env request w bucket_name :
  In (CallDelete bucket_name (filename request)) (issued env request w) ->
  delete_fault env (filename request) = None ->
  bucket (snd (transcribe_audio env request w)) !! filename request = None /\
  exists audio result,
    In (CallTranscribe audio (language_argument env request)) (issued env request w) /\
    transcribe env audio (language_argument env request) = Return result /\
    ((exists e, adjust_segments (res_segments result) = Raise e /\
                fst (transcribe_audio env request w) = Return generic_error) \/
     (exists adjusted,
        adjust_segments (res_segments result) = Return adjusted /\
        fst (transcribe_audio env request w) =
          Return (transcript (res_text result) adjusted (res_language result)))).
Proof.
  intros Hin Hnone. split.
  { destruct (run_ends_total env request w) as (r & w' & H).
    pose proof (run_ends_effect _ _ _ _ _ H)
      as (_ & bn & p & dec & audio & l & Hc & _ & Hpre & Hshape & _ & Hb).
    rewrite (run_ends_issued _ _ _ _ _ _ H Hc) in Hin.
    rewrite (run_ends_sound _ _ _ _ _ H). cbn [snd].
    destruct Hb as [(_ & Hsome) | (Hb & _)].
    - rewrite (In_canonical_delete _ _ _ _ _ _ _ _ _ Hshape Hpre Hin) in Hin.
      destruct (Hsome Hin) as [e He]. congruence.
    - rewrite Hb. apply lookup_delete_eq. }
  destruct (run_ends_total env request w) as (r & w' & H).
  rewrite (run_ends_sound _ _ _ _ _ H). cbn [fst].
  destruct (run_ends_pipeline _ _ _ _ _ H)
    as [Hnil | (p & r2 & w2 & Htmp & Hp & Hissued & Hr)].
  { rewrite Hnil in Hin. destruct Hin. }
  apply pipeline_ends_calls_inv in Hp as (l & Hc & Hdel & _);
    [|by eapply scratch_is_not_cache].
  cbn in Hc. rewrite Hc, drop_app_length in Hissued. rewrite Hissued in Hin |- *.
  destruct (Hdel _ Hin Hnone) as (audio & result & Hin' & Htr & Hcases).
  exists audio, result. split; [done|]. split; [done|].
  destruct Hcases as [(e & Ha & ->) | (adjusted & Ha & ->)].
  - left. exists e. split; [done|].
    destruct Hr as [?|[_ ->]]; [discriminate|done].
  - right. exists adjusted. split; [done|].
    destruct Hr as [Heq|[[e ?] _]]; [|discriminate]. by inversion Heq.
Qed.

Lemma deletion_precedes_adjustment_witness :
  bucket (snd (transcribe_audio
                 (Reference.sample_env_with Reference.sample_environ
                    Reference.malformed_transcribe)
                 (Reference.request_for "clip.wav" "auto" None None)
                 Reference.sample_world)) !! "clip.wav" = None.
Proof.
  refine (proj1 (deletion_precedes_adjustment
            (Reference.sample_env_with Reference.sample_environ
               Reference.malformed_transcribe)
            (Reference.request_for "clip.wav" "auto" None None)
            Reference.sample_world "audio" _ _)).
  - vm_compute. tauto.
  - reflexivity.
Defined.

(** ** What the model is run on *)

(** X12. The audio handed to the model is always the requested object: its
    stored bytes as they are when decryption is not requested, and
    otherwise exactly what the library returned for them (tag the last 16
    bytes, ciphertext the rest) under the decoded key and nonce.  The model
    is never run on anything else, and never when the object is missing. *)
Theorem model_input env request w audio lang :
  In (CallTranscribe audio lang) (issued env request w) ->
  exists data,
    bucket w !! filename request = Some data /\
    ((decryption_requested (decryption_key request) (iv request) = None /\
      audio = data) \/
     (exists k n K N,
        decryption_requested (decryption_key request) (iv request) = Some (k, n) /\
        b64decode env k = Return K /\ b64decode env n = Return N /\
        aes_gcm_decrypt env K N (drop (length data - 16) data)
          (take (length data - 16) data) = Return audio /\
        In (CallDecrypt K N (drop (length data - 16) data)
              (take (length data - 16) data)) (issued env request w))).
Proof.
  intros Hin.
  destruct (run_ends_total env request w) as (r & w' & H).
  destruct (run_ends_pipeline _ _ _ _ _ H)
    as [Hnil | (p & r2 & w2 & Htmp & Hp & Hissued & _)].
  { rewrite Hnil in Hin. destruct Hin. }
  apply pipeline_ends_calls_inv in Hp as (l & Hc & _ & Haudio);
    [|by eapply scratch_is_not_cache].
  cbn in Hc. rewrite Hc, drop_app_length in Hissued. rewrite Hissued in Hin |- *.
  destruct (Haudio _ _ Hin) as (_ & data & Hdata & Hflow).
  exists data. split; [done|]. done.
Qed.

Lemma model_input_witness :
  exists data,
    bucket Reference.sample_world !! "sealed.wav" = Some data /\
    ((decryption_requested (Some Reference.sample_key_b64)
        (Some Reference.sample_nonce_b64) = None /\
      Reference.sample_audio = data) \/
     (exists k n K N,
        decryption_requested (Some Reference.sample_key_b64)
          (Some Reference.sample_nonce_b64) = Some (k, n) /\
        b64decode Reference.sample_env k = Return K /\
        b64decode Reference.sample_env n = Return N /\
        aes_gcm_decrypt Reference.sample_env K N (drop (length data - 16) data)
          (take (length data - 16) data) = Return Reference.sample_audio /\
        In (CallDecrypt K N (drop (length data - 16) data)
              (take (length data - 16) data))
           (issued Reference.sample_env
              (Reference.request_for "sealed.wav" "auto"
                 (Some Reference.sample_key_b64) (Some Reference.sample_nonce_b64))
              Reference.sample_world))).
Proof.
  apply (model_input Reference.sample_env
           (Reference.request_for "sealed.wav" "auto"
              (Some Reference.sample_key_b64) (Some Reference.sample_nonce_b64))
           Reference.sample_world Reference.sample_audio None).
  vm_compute. tauto.
Defined.

(** ** More on the timestamp adjustment *)

Ltac to_Q :=
  unfold Qcle, Qclt, Qcminus, Qcplus, Qcopp, SEGMENT_TIME_ADJUSTMENT_SEC, Q2Qc in *;
  cbn [this] in *; rewrite ?Qred_correct in *.

Lemma Qc_max_ge_l (a b : Qc) : (a <= Qc_max a b)%Qc.
Proof.
  unfold Qc_max. destruct (Qclt_le_dec a b); [by apply Qclt_le_weak | apply Qcle_refl].
Qed.

Lemma Qc_max_0_shift (s : Qc) :
  (SEGMENT_TIME_ADJUSTMENT_SEC <= s)%Qc ->
  Qc_max 0 (s - SEGMENT_TIME_ADJUSTMENT_SEC) = (s - SEGMENT_TIME_ADJUSTMENT_SEC)%Qc.
Proof.
  intros H. unfold Qc_max.
  destruct (Qclt_le_dec 0 (s - SEGMENT_TIME_ADJUSTMENT_SEC)) as [_|H1]; [done|].
  apply Qc_is_canon. to_Q. lra.
Qed.

Lemma Qc_max_adjustment_shift (e : Qc) :
  (1 <= e)%Qc ->
  Qc_max SEGMENT_TIME_ADJUSTMENT_SEC (e - SEGMENT_TIME_ADJUSTMENT_SEC) =
    (e - SEGMENT_TIME_ADJUSTMENT_SEC)%Qc.
Proof.
  intros H. unfold Qc_max.
  destruct (Qclt_le_dec SEGMENT_TIME_ADJUSTMENT_SEC
              (e - SEGMENT_TIME_ADJUSTMENT_SEC)) as [_|H1]; [done|].
  apply Qc_is_canon. to_Q. lra.
Qed.

Lemma overlap_iff (e1 s2 : Qc) :
  (e1 <= s2)%Qc ->
  (Qc_max SEGMENT_TIME_ADJUSTMENT_SEC (e1 - SEGMENT_TIME_ADJUSTMENT_SEC) <=
   Qc_max 0 (s2 - SEGMENT_TIME_ADJUSTMENT_SEC))%Qc <-> (1 <= s2)%Qc.
Proof.
  intros H. unfold Qc_max.
  destruct (Qclt_le_dec SEGMENT_TIME_ADJUSTMENT_SEC
              (e1 - SEGMENT_TIME_ADJUSTMENT_SEC)) as [H1|H1],
    (Qclt_le_dec 0 (s2 - SEGMENT_TIME_ADJUSTMENT_SEC)) as [H2|H2];
    to_Q; split; intros; lra.
Qed.

(** X13. In every successful response each segment has a start of at least
    0 and an end of at least 0.5 seconds, and its start is at most its end
    whenever that held for the model's segment. *)
Theorem adjusted_bounds env request w text segments lang w' :
  transcribe_audio env request w = (Return (transcript text segments lang), w') ->
  Forall (fun segment =>
            exists s e,
              timestamp segment "start" = Some s /\
              timestamp segment "end" = Some e /\
              (0 <= s)%Qc /\ (SEGMENT_TIME_ADJUSTMENT_SEC <= e)%Qc)
         segments.
Proof.
  intros H.
  destruct (transcribe_body env request w) as [[r|e] w1] eqn:Hb.
  2: { rewrite (transcribe_audio_Raise _ _ _ _ _ Hb), on_exception_spec in H.
       discriminate. }
  rewrite (transcribe_audio_Return _ _ _ _ _ Hb) in H. inversion H; subst.
  apply transcribe_body_Return_inv in Hb
    as [(_ & ? & _) | (_ & audio & result & adjusted & _ & _ & Ha & Hr)];
    [discriminate|].
  inversion Hr; subst. apply adjust_segments_inv in Ha.
  eapply Forall2_Forall_r; [exact Ha|]. apply Forall_forall.
  intros orig _ adj (s & e & _ & _ & _ & Hs & He & _).
  eexists _, _. split; [done|]. split; [done|].
  split; apply Qc_max_ge_l.
Qed.

Lemma adjusted_bounds_witness :
  Forall (fun segment =>
            exists s e,
              timestamp segment "start" = Some s /\
              timestamp segment "end" = Some e /\
              (0 <= s)%Qc /\ (SEGMENT_TIME_ADJUSTMENT_SEC <= e)%Qc)
         Reference.sample_adjusted.
Proof.
  apply (adjusted_bounds Reference.sample_env
           (Reference.request_for "clip.wav" "EN" None None) Reference.sample_world
           " hello world" Reference.sample_adjusted "en"
           {| fs := {["/root/.cache/whisper/base.pt" := Reference.sample_weights]};
              bucket := delete "clip.wav" (bucket Reference.sample_world);
              stdout := [];
              calls := [CallDownload "audio" "clip.wav" "/tmp/tmpq1.wav";
                        CallLoadModel "base";
                        CallTranscribe Reference.sample_audio (Some "en");
                        CallDelete "audio" "clip.wav"] |}).
  vm_compute. reflexivity.
Defined.

(** X14. A segment that starts at or after 0.5 s and ends at or after 1 s
    is moved earlier by exactly 0.5 s at both ends, so its duration is
    unchanged; the clamps only act on what lies in the first second. *)
Theorem late_segment_shifted segment s e :
  timestamp segment "start" = Some s ->
  timestamp segment "end" = Some e ->
  (SEGMENT_TIME_ADJUSTMENT_SEC <= s)%Qc ->
  (1 <= e)%Qc ->
  exists adjusted,
    adjust_segment segment = Return adjusted /\
    timestamp adjusted "start" = Some (s - SEGMENT_TIME_ADJUSTMENT_SEC)%Qc /\
    timestamp adjusted "end" = Some (e - SEGMENT_TIME_ADJUSTMENT_SEC)%Qc.
Proof.
  intros Hs He Hs' He'.
  destruct (adjusted_from_insert _ _ _ Hs He)
    as (s0 & e0 & Hs0 & He0 & _ & Hs1 & He1 & _).
  rewrite Hs in Hs0. rewrite He in He0. inversion Hs0; inversion He0; subst.
  eexists. split; [by apply adjust_segment_spec|].
  rewrite Hs1, He1, Qc_max_0_shift, Qc_max_adjustment_shift by done. done.
Qed.

Lemma late_segment_shifted_witness :
  exists adjusted,
    adjust_segment (list_to_map [("start", PFloat (Q2Qc (12 # 10)));
                                 ("end", PFloat (Q2Qc (3 # 1)))]) = Return adjusted /\
    timestamp adjusted "start" =
      Some (Q2Qc (12 # 10) - SEGMENT_TIME_ADJUSTMENT_SEC)%Qc /\
    timestamp adjusted "end" = Some (Q2Qc (3 # 1) - SEGMENT_TIME_ADJUSTMENT_SEC)%Qc.
Proof.
  apply (late_segment_shifted
           (list_to_map [("start", PFloat (Q2Qc (12 # 10)));
                         ("end", PFloat (Q2Qc (3 # 1)))])
           (Q2Qc (12 # 10)) (Q2Qc (3 # 1))).
  - reflexivity.
  - reflexivity.
  - vm_compute. discriminate.
  - vm_compute. discriminate.
Defined.

(** X15. Two segments that do not overlap before the adjustment (the first
    ends no later than the second starts) still do not overlap after it
    exactly when the second starts at or after 1 s.  A boundary inside the
    first second always turns into an overlap: the end of the first
    segment is raised to 0.5 s while the start of the second falls below. *)
Theorem adjacent_segments_overlap_iff first second e1 s2 adjusted1 adjusted2 :
  timestamp first "end" = Some e1 ->
  timestamp second "start" = Some s2 ->
  (e1 <= s2)%Qc ->
  adjust_segment first = Return adjusted1 ->
  adjust_segment second = Return adjusted2 ->
  exists e1' s2',
    timestamp adjusted1 "end" = Some e1' /\
    timestamp adjusted2 "start" = Some s2' /\
    ((e1' <= s2')%Qc <-> (1 <= s2)%Qc).
Proof.
  intros He1 Hs2 Hle Ha1 Ha2.
  apply adjust_segment_inv in Ha1 as (sa & ea & _ & Hea & _ & _ & Hea' & _).
  apply adjust_segment_inv in Ha2 as (sb & eb & Hsb & _ & _ & Hsb' & _ & _).
  rewrite He1 in Hea. rewrite Hs2 in Hsb. inversion Hea; inversion Hsb; subst.
  eexists _, _. split; [done|]. split; [done|]. by apply overlap_iff.
Qed.

Lemma adjacent_segments_overlap_iff_witness :
  exists e1' s2',
    timestamp
      (<["end" := max_adjustment (Q2Qc (3 # 10) - SEGMENT_TIME_ADJUSTMENT_SEC)%Qc]>
         (<["start" := max_0 (Q2Qc (1 # 10) - SEGMENT_TIME_ADJUSTMENT_SEC)%Qc]>
            (list_to_map [("start", PFloat (Q2Qc (1 # 10)));
                          ("end", PFloat (Q2Qc (3 # 10)))]))) "end" = Some e1' /\
    timestamp
      (<["end" := max_adjustment (Q2Qc (6 # 10) - SEGMENT_TIME_ADJUSTMENT_SEC)%Qc]>
         (<["start" := max_0 (Q2Qc (4 # 10) - SEGMENT_TIME_ADJUSTMENT_SEC)%Qc]>
            (list_to_map [("start", PFloat (Q2Qc (4 # 10)));
                          ("end", PFloat (Q2Qc (6 # 10)))]))) "start" = Some s2' /\
    ((e1' <= s2')%Qc <-> (1 <= Q2Qc (4 # 10))%Qc).
Proof.
  apply (adjacent_segments_overlap_iff
           (list_to_map [("start", PFloat (Q2Qc (1 # 10)));
                         ("end", PFloat (Q2Qc (3 # 10)))])
           (list_to_map [("start", PFloat (Q2Qc (4 # 10)));
                         ("end", PFloat (Q2Qc (6 # 10)))])
           (Q2Qc (3 # 10)) (Q2Qc (4 # 10))).
  - reflexivity.
  - reflexivity.
  - vm_compute. discriminate.
  - by apply adjust_segment_spec.
  - by apply adjust_segment_spec.
Defined.

(** X16. The adjustment loop returns exactly when every segment has a
    numeric start and a numeric end; it then returns as many segments as it
    was given.  One segment without them makes the whole loop raise, so a
    response never carries a partly adjusted list. *)
Theorem adjust_segments_returns_iff segments :
  ((exists adjusted, adjust_segments segments = Return adjusted) <->
   Forall (fun segment => is_Some (timestamp segment "start") /\
                          is_Some (timestamp segment "end")) segments) /\
  (forall adjusted, adjust_segments segments = Return adjusted ->
                    length adjusted = length segments).
Proof.
  split; [split|].
  - intros [adjusted H]. apply adjust_segments_inv in H.
    eapply Forall2_Forall_l; [exact H|]. apply Forall_forall.
    intros adj _ orig (s & e & Hs & He & _). rewrite Hs, He. by split.
  - apply adjust_segments_numeric.
  - intros adjusted H. apply adjust_segments_inv in H.
    symmetry. by eapply Forall2_length.
Qed.

(** ** More on the decrypt step *)

(** X17. A decrypt step that raises leaves the scratch file, the bucket and
    standard output as they were: the file still holds the downloaded
    bytes, never a partial plaintext.  Either the library was not called at
    all (the file could not be read or a string is not valid base64), or it
    was called once and it is its exception that is raised. *)
Theorem decrypt_failure_keeps_file env dk n temp_path w e w' :
  decrypt_step env dk n temp_path w = (Raise e, w') ->
  fs w' = fs w /\ bucket w' = bucket w /\ stdout w' = stdout w /\
  (calls w' = calls w \/
   exists K N T C,
     calls w' = calls w ++ [CallDecrypt K N T C] /\
     aes_gcm_decrypt env K N T C = Raise e).
Proof.
  intros H. apply decrypt_ends_iff in H.
  inversion H as [ | k n' Hreq Hfile | k n' data e' Hreq Hfile HK
    | k n' data K e' Hreq Hfile HK HN | k n' data K N e' Hreq Hfile HK HN Hlib | ];
    subst; split_and!; try done; try (by left).
  right. by eexists _, _, _, _.
Qed.

Lemma decrypt_failure_keeps_file_witness :
  fs (snd (decrypt_step Reference.sample_env (Some "AQ=")
             (Some Reference.sample_nonce_b64) "/tmp/tmpq1.wav"
             {| fs := {["/tmp/tmpq1.wav" := Reference.sample_sealed]};
                bucket := ∅; stdout := []; calls := [] |})) =
  {["/tmp/tmpq1.wav" := Reference.sample_sealed]}.
Proof.
  refine (proj1 (decrypt_failure_keeps_file Reference.sample_env (Some "AQ=")
                   (Some Reference.sample_nonce_b64) "/tmp/tmpq1.wav"
                   {| fs := {["/tmp/tmpq1.wav" := Reference.sample_sealed]};
                      bucket := ∅; stdout := []; calls := [] |}
                   Reference.incorrect_padding _ _)).
  vm_compute. reflexivity.
Defined.

Lemma no_decrypt_call env request w :
  decryption_requested (decryption_key request) (iv request) = None ->
  forall K N T C, ~ In (CallDecrypt K N T C) (issued env request w).
Proof.
  intros Hreq.
  destruct (run_ends_total env request w) as (r & w' & H).
  pose proof (run_ends_effect _ _ _ _ _ H)
    as (_ & bn & p & dec & audio & l & Hc & _ & [rest Hpre] & _ & Hdec & _).
  rewrite (run_ends_issued _ _ _ _ _ _ H Hc).
  rewrite (Hdec Hreq) in Hpre. cbn in Hpre.
  intros K N T C Hin.
  assert (In (CallDecrypt K N T C) (l ++ rest)) as Hfull
    by (apply in_or_app; by left).
  rewrite <- Hpre in Hfull. by destruct Hfull as [?|[?|[?|[?|[]]]]].
Qed.

(** X18. Decryption needs both strings: a request that carries a key but
    no nonce, or a nonce but no key, is handled exactly as one that carries
    neither, and no decrypt call is made; the stored bytes go to the model
    as they are. *)
Theorem decryption_needs_both env request w :
  decryption_key request = None \/ iv request = None ->
  transcribe_audio env request w =
    transcribe_audio env
      {| filename := filename request; language := language request;
         decryption_key := None; iv := None |} w /\
  forall K N T C, ~ In (CallDecrypt K N T C) (issued env request w).
Proof.
  intros Hnone. split.
  - destruct request as [f l dk n]. cbn in Hnone.
    unfold transcribe_audio, transcribe_body, pipeline, decrypt_step. cbn.
    destruct Hnone as [-> | ->]; [done|]. by destruct dk.
  - apply no_decrypt_call. unfold decryption_requested.
    destruct Hnone as [-> | ->]; [done|]. by destruct (decryption_key request).
Qed.

Lemma decryption_needs_both_witness :
  transcribe_audio Reference.sample_env
    (Reference.request_for "sealed.wav" "auto" (Some Reference.sample_key_b64) None)
    Reference.sample_world =
  transcribe_audio Reference.sample_env
    (Reference.request_for "sealed.wav" "auto" None None) Reference.sample_world.
Proof.
  refine (proj1 (decryption_needs_both Reference.sample_env
                   (Reference.request_for "sealed.wav" "auto"
                      (Some Reference.sample_key_b64) None)
                   Reference.sample_world _)).
  right. reflexivity.
Defined.

(** ** More on the language hint *)

Lemma lower_ascii_idempotent c : lower_ascii (lower_ascii c) = lower_ascii c.
Proof. by destruct c as [[] [] [] [] [] [] [] []]. Qed.

Lemma lower_idempotent s : lower (lower s) = lower s.
Proof.
  induction s as [|c s IH]; [done|]. cbn. by rewrite lower_ascii_idempotent, IH.
Qed.

Lemma transcribe_call_language env request w audio lang :
  In (CallTranscribe audio lang) (issued env request w) ->
  lang = language_argument env request.
Proof.
  intros Hin.
  destruct (run_ends_total env request w) as (r & w' & H).
  destruct (run_ends_pipeline _ _ _ _ _ H)
    as [Hnil | (p & r2 & w2 & Htmp & Hp & Hissued & _)].
  { rewrite Hnil in Hin. destruct Hin. }
  apply pipeline_ends_calls_inv in Hp as (l & Hc & _ & Haudio);
    [|by eapply scratch_is_not_cache].
  cbn in Hc. rewrite Hc, drop_app_length in Hissued. rewrite Hissued in Hin.
  by destruct (Haudio _ _ Hin) as (-> & _).
Qed.

(** X19. For a hint of ASCII characters, on which str.lower is known to
    lower-case the letters A-Z: a language forced on the model is never
    "auto"-detected by accident of case and never carries an upper-case
    ASCII letter.  The model gets a language argument only when the hint
    differs from the exact string "auto", and that argument is the hint with
    A-Z lower-cased, which lower-casing leaves unchanged.  So the hint
    "Auto" or "AUTO" is not the sentinel; it forces the language "auto". *)
Theorem forced_language_is_lowercase env request w audio l :
  lower_contract env ->
  isascii (language request) = true ->
  In (CallTranscribe audio (Some l)) (issued env request w) ->
  language request <> "auto" /\
  l = lower (language request) /\
  lower l = l /\
  (lower (language request) = "auto" -> l = "auto").
Proof.
  intros Hlow Hascii Hin. apply transcribe_call_language in Hin.
  unfold language_argument in Hin.
  destruct (String.eqb_spec (language request) "auto") as [|Hne]; [discriminate|].
  inversion Hin; subst. rewrite (Hlow _ Hascii).
  split_and!; try done. apply lower_idempotent.
Qed.

Lemma forced_language_is_lowercase_witness :
  language (Reference.request_for "clip.wav" "Auto" None None) <> "auto" /\
  "auto" = lower (language (Reference.request_for "clip.wav" "Auto" None None)) /\
  lower "auto" = "auto" /\
  (lower (language (Reference.request_for "clip.wav" "Auto" None None)) = "auto" ->
   "auto" = "auto").
Proof.
  apply (forced_language_is_lowercase Reference.sample_env
           (Reference.request_for "clip.wav" "Auto" None None)
           Reference.sample_world Reference.sample_audio "auto").
  - apply sample_lower_contract.
  - reflexivity.
  - vm_compute. tauto.
Defined.

(** ** Request bodies *)

(** X20. The defaults of the request model carry through the endpoint.  A
    body that validates has a string filename; when it has no "language"
    key, every transcribe call is made without a language (detection); when
    it lacks "decryptionKey" or "iv", no decrypt call is made.  A body
    without a string filename does not validate, so the function's own
    check can only ever see the empty string. *)
Theorem request_defaults body :
  (body !! "filename" = None -> parse_request body = None) /\
  (forall request env w,
     parse_request body = Some request ->
     body !! "filename" = Some (Some (filename request)) /\
     (body !! "language" = None ->
      language request = "auto" /\
      forall audio lang,
        In (CallTranscribe audio lang) (issued env request w) -> lang = None) /\
     (body !! "decryptionKey" = None \/ body !! "iv" = None ->
      forall K N T C, ~ In (CallDecrypt K N T C) (issued env request w))).
Proof.
  split.
  - intros H. unfold parse_request. by rewrite H.
  - intros request env w Hparse. unfold parse_request in Hparse.
    destruct (body !! "filename") as [[name|]|] eqn:Hname; try discriminate.
    destruct (default (Some "auto") (body !! "language")) as [lang|] eqn:Hlang;
      [|discriminate].
    inversion Hparse; subst request; clear Hparse. cbn [filename].
    split; [done|]. split.
    + intros Hnone. rewrite Hnone in Hlang. cbn in Hlang. inversion Hlang; subst.
      split; [done|]. intros audio lg Hin.
      by apply transcribe_call_language in Hin.
    + intros Hnone. apply no_decrypt_call. cbn.
      destruct Hnone as [-> | ->]; cbn; [done|].
      by destruct (default None (body !! "decryptionKey")).
Qed.

Lemma request_defaults_witness :
  language (Reference.request_for "clip.wav" "auto" None None) = "auto" /\
  forall audio lang,
    In (CallTranscribe audio lang)
       (issued Reference.sample_env
          (Reference.request_for "clip.wav" "auto" None None)
          Reference.sample_world) ->
    lang = None.
Proof.
  refine (proj1 (proj2 (proj2 (request_defaults {["filename" := Some "clip.wav"]})
                          (Reference.request_for "clip.wav" "auto" None None)
                          Reference.sample_env Reference.sample_world _)) _).
  - reflexivity.
  - reflexivity.
Defined.

Lemma validation_only_for_empty_filename_witness :
  transcribe_audio Reference.sample_env
    (Reference.request_for "" "auto" None None) Reference.sample_world =
  (Return validation_error, Reference.sample_world).
Proof.
  refine (proj2 (validation_only_for_empty_filename Reference.sample_env
                   (Reference.request_for "" "auto" None None)
                   Reference.sample_world) _).
  reflexivity.
Defined.

Lemma adjust_segments_returns_iff_witness :
  length Reference.sample_adjusted = length Reference.sample_segments.
Proof.
  refine (proj2 (adjust_segments_returns_iff Reference.sample_segments)
            Reference.sample_adjusted _).
  vm_compute. reflexivity.
Defined.
